(** * ENDGME-Backend: the wiki extraction core, embedded in Rocq

    A shallow embedding of [ScrapingUtils] (src/utils/scraping.utils.ts) and of
    the parts of [ScrapingService] (src/scraping/scraping.service.ts) that decide
    the properties stated at the end of the file.

    Conventions of the embedding.
    - A JavaScript string is the list of its UTF-16 code units ([list N]).
      Literals of the source are written [js "..."].
    - [String.prototype.toLowerCase] and [toUpperCase] are embedded for the
      Basic Latin and Latin-1 Supplement blocks (U+0000..U+00FF), together with
      the three code points outside these blocks that are images of Latin-1
      letters (U+0178, U+039C, U+03BC); every other code unit is left as it is.
    - A parsed page is a tree of text, comment and element nodes, as cheerio
      builds it; HTML parsing itself ([cheerio.load]) is not embedded, the
      extractors take the tree.
    - A plain object used as a record of string properties is the finite map of
      its own properties; reading and writing go through [getProp] and
      [setProp], which account for the members inherited from
      [Object.prototype].
    - Logging has no effect on any result and is left out.
    - A number parsed from a page is an integer ([jsint]), exact up to 2^53.
    - The passes of the service take the table they write and return it; the
      clock and the answers of the store are read from a record of services,
      next to the network and the parsers of the [World]. *)

From Stdlib Require Import NArith ZArith Ascii String.
From stdpp Require Import gmap strings list fin_maps.

Local Open Scope N_scope.

(** ** JavaScript strings *)

Abbreviation jsstring := (list N).

(** A source literal made of ASCII characters. *)
Definition js (s : string) : jsstring :=
  (fun a => N_of_ascii a) <$> list_ascii_of_string s.

Definition nonEmpty (s : jsstring) : bool :=
  match s with [] => false | _ => true end.

(** ECMAScript WhiteSpace and LineTerminator code points: what [trim] strips
    and what the regular expression class \s matches. *)
Definition isWhiteSpace (c : N) : bool :=
  ((9 <=? c) && (c <=? 13)) || (c =? 32) || (c =? 160) || (c =? 5760)
  || ((8192 <=? c) && (c <=? 8202)) || (c =? 8232) || (c =? 8233)
  || (c =? 8239) || (c =? 8287) || (c =? 12288) || (c =? 65279).

Fixpoint trimStart (s : jsstring) : jsstring :=
  match s with
  | [] => []
  | c :: s' => if isWhiteSpace c then trimStart s' else s
  end.

Definition trimEnd (s : jsstring) : jsstring :=
  reverse (trimStart (reverse s)).

Definition trim (s : jsstring) : jsstring := trimEnd (trimStart s).

(** Lower-case mapping of one code unit: that of JavaScript below U+0100;
    above, U+0178 and U+039C are mapped and every other code unit is left as
    it is, so a property that depends on the mapping is stated for Latin-1
    text only. *)
Definition lowerUnit (c : N) : N :=
  if (65 <=? c) && (c <=? 90) then c + 32
  else if (192 <=? c) && (c <=? 222) && negb (c =? 215) then c + 32
  else if c =? 376 then 255
  else if c =? 924 then 956
  else c.

(** Upper-case mapping of one code unit: that of JavaScript below U+0100
    (U+00DF, sharp s, has the two-letter upper-case form "SS"); above, U+03BC
    is mapped and every other code unit is left as it is. *)
Definition upperUnit (c : N) : jsstring :=
  if (97 <=? c) && (c <=? 122) then [c - 32]
  else if c =? 181 then [924]
  else if c =? 223 then [83; 83]
  else if (224 <=? c) && (c <=? 254) && negb (c =? 247) then [c - 32]
  else if c =? 255 then [376]
  else if c =? 956 then [924]
  else [c].

Definition toLowerCase (s : jsstring) : jsstring := lowerUnit <$> s.

Definition toUpperCase (s : jsstring) : jsstring := s ≫= upperUnit.

(** [s.charAt(0)] and [s.slice(1)]. *)
Definition charAt0 (s : jsstring) : jsstring := take 1 s.
Definition slice1 (s : jsstring) : jsstring := drop 1 s.

(** [s.split(sep)] for a one-character separator. *)
Fixpoint split (sep : N) (s : jsstring) : list jsstring :=
  match s with
  | [] => [[]]
  | c :: s' =>
      if c =? sep then [] :: split sep s'
      else match split sep s' with
           | w :: ws => (c :: w) :: ws
           | [] => [[c]]
           end
  end.

(** [ws.join(sep)] for a one-character separator. *)
Fixpoint join (sep : N) (ws : list jsstring) : jsstring :=
  match ws with
  | [] => []
  | [w] => w
  | w :: ws' => w ++ sep :: join sep ws'
  end.

Definition SPACE : N := 32.

(** [capitalizeWords] *)
Definition capitalizeWord (word : jsstring) : jsstring :=
  toUpperCase (charAt0 word) ++ slice1 word.

Definition capitalizeWords (text : jsstring) : jsstring :=
  join SPACE (capitalizeWord <$> split SPACE (toLowerCase text)).

(** [s.startsWith(p)] *)
Fixpoint startsWith (p s : jsstring) : bool :=
  match p, s with
  | [], _ => true
  | _ :: _, [] => false
  | a :: p', b :: s' => (a =? b) && startsWith p' s'
  end.

(** [s.indexOf(p)]; [None] stands for -1. *)
Fixpoint indexOf (p s : jsstring) : option nat :=
  if startsWith p s then Some 0%nat
  else match s with
       | [] => None
       | _ :: s' => S <$> indexOf p s'
       end.

(** [s.replace(/ /g, '_')] *)
Definition replaceSpaces (s : jsstring) : jsstring :=
  (fun c => if c =? 32 then 95 else c) <$> s.

(** [s.replace(/suffix$/, '')] for a literal suffix. *)
Definition stripSuffix (suffix s : jsstring) : jsstring :=
  if startsWith (reverse suffix) (reverse s)
  then take (length s - length suffix)%nat s
  else s.

Example trim_ex : trim (js "  Web strike ") = js "Web strike".
Proof. reflexivity. Qed.

Example capitalizeWords_ex :
  capitalizeWords (js "wEB  strike") = js "Web  Strike".
Proof. reflexivity. Qed.

Example indexOf_ex : indexOf (js " - ") (js "Cooldown - 6s") = Some 8%nat.
Proof. reflexivity. Qed.

Example stripSuffix_ex : stripSuffix (js "_-") (js "damage_-") = js "damage".
Proof. reflexivity. Qed.

(** ** The document tree *)

Abbreviation attributes := (list (string * list N)).

#[warnings="-register-all"]
Inductive node : Type :=
| Text (data : jsstring)
| Comment (data : jsstring)
| Element (tag : string) (attribs : attributes) (children : list node).

(** Children of a node ([[]] for text and comments). *)
Definition childNodes (n : node) : list node :=
  match n with
  | Element _ _ cs => cs
  | _ => []
  end.

(** domutils [textContent]: the data of the text nodes below a node, in
    document order; comments contribute nothing. *)
Fixpoint textContent (n : node) : jsstring :=
  match n with
  | Text d => d
  | Comment _ => []
  | Element _ _ cs =>
      (fix go (cs : list node) : jsstring :=
         match cs with
         | [] => []
         | c :: cs' => textContent c ++ go cs'
         end) cs
  end.

(** [elem.attribs[name]] read through cheerio's own-property check. *)
Fixpoint getAttr (name : string) (attrs : attributes) : option jsstring :=
  match attrs with
  | [] => None
  | (k, v) :: rest => if String.eqb k name then Some v else getAttr name rest
  end.

(** A member of a cheerio selection: the node, its position in the tree (the
    child indices from the root, which is what tells two equal subtrees apart)
    and its next sibling. *)
Record located : Type := Located {
  path : list nat;
  self : node;
  nextSibling : option node
}.

(** What a compound selector looks at: an element's tag name and attributes. *)
Abbreviation einfo := (string * list (string * list N))%type.

(** The nodes strictly below [n], in document order, each with the elements
    between it and [n] (nearest first). *)
Fixpoint descendants (anc : list einfo) (p : list nat) (n : node)
  : list (list einfo * located) :=
  match n with
  | Element _ _ cs =>
      (fix go (i : nat) (cs : list node) : list (list einfo * located) :=
         match cs with
         | [] => []
         | c :: cs' =>
             (anc, Located (p ++ [i]) c (head cs'))
               :: match c with
                  | Element t a _ => descendants ((t, a) :: anc) (p ++ [i]) c
                  | _ => []
                  end
               ++ go (S i) cs'
         end) 0%nat cs
  | _ => []
  end.

(** *** Selectors *)

(** A compound selector: an optional tag name, class names and
    attribute-equals tests. *)
Record compound : Type := Compound {
  c_tag : option string;
  c_classes : list jsstring;
  c_attrs : list (string * jsstring)
}.

Inductive combinator : Type := Descendant | Child.

(** A complex selector, read right to left: the compound the subject must
    match, then the chain of combinators and compounds to its left. *)
Record selector : Type := Selector {
  subject : compound;
  context : list (combinator * compound)
}.

(** The white-space separated tokens of a class attribute. *)
Fixpoint tokens (cur : jsstring) (s : jsstring) : list jsstring :=
  match s with
  | [] => if nonEmpty cur then [reverse cur] else []
  | c :: s' =>
      if isWhiteSpace c
      then (if nonEmpty cur then [reverse cur] else []) ++ tokens [] s'
      else tokens (c :: cur) s'
  end.

Definition hasClass (attrs : attributes) (cls : jsstring) : bool :=
  match getAttr "class" attrs with
  | Some v => bool_decide (cls ∈ tokens [] v)
  | None => false
  end.

Definition hasAttrValue (attrs : attributes) (kv : string * jsstring) : bool :=
  bool_decide (getAttr kv.1 attrs = Some kv.2).

Definition matchesCompound (c : compound) (e : einfo) : bool :=
  match c_tag c with
  | Some t => String.eqb t e.1
  | None => true
  end
  && forallb (hasClass e.2) (c_classes c)
  && forallb (hasAttrValue e.2) (c_attrs c).

(** Does the chain to the left of the subject hold along the ancestors? *)
Fixpoint matchesContext (ctx : list (combinator * compound)) (anc : list einfo)
  : bool :=
  match ctx with
  | [] => true
  | (Child, c) :: ctx' =>
      match anc with
      | a :: anc' => matchesCompound c a && matchesContext ctx' anc'
      | [] => false
      end
  | (Descendant, c) :: ctx' =>
      (fix search (anc : list einfo) : bool :=
         match anc with
         | [] => false
         | a :: anc' =>
             (matchesCompound c a && matchesContext ctx' anc') || search anc'
         end) anc
  end.

Definition matches (s : selector) (h : list einfo * located) : bool :=
  match self h.2 with
  | Element t a _ => matchesCompound (subject s) (t, a) && matchesContext (context s) h.1
  | _ => false
  end.

(** [$(x).find(sel)] for one element [x]: the elements below [x] that match,
    in document order. The selector is scoped to [x]: every compound of the
    chain is matched strictly below it. *)
Definition find1 (s : selector) (x : located) : list located :=
  snd <$> filter (fun h => matches s h = true) (descendants [] (path x) (self x)).

(** css-select [removeSubsets]: drop the members that lie below another
    member, so that no node is reached twice. *)
Definition isStrictPrefix (p q : list nat) : bool :=
  bool_decide (p ≠ q) && bool_decide (p `prefix_of` q).

Definition removeSubsets (xs : list located) : list located :=
  filter (fun x => existsb (fun y => isStrictPrefix (path y) (path x)) xs = false) xs.

(** [sel.find(s)] for a selection. *)
Definition find (s : selector) (xs : list located) : list located :=
  removeSubsets xs ≫= find1 s.

(** [cheerio.load(page)]: the root of the parsed document. *)
Definition root (children : list node) : located :=
  Located [] (Element "#document" [] children) None.

(** [$(sel)] on a loaded document. *)
Definition select (s : selector) (doc : list node) : list located :=
  find1 s (root doc).

(** [sel.text()] *)
Definition text (xs : list located) : jsstring :=
  xs ≫= (fun x => textContent (self x)).

(** [sel.attr(name)]: the attribute of the first member. *)
Definition attr (name : string) (xs : list located) : option jsstring :=
  match xs with
  | x :: _ => match self x with
              | Element _ a _ => getAttr name a
              | _ => None
              end
  | [] => None
  end.

(** [sel.first()], [sel.last()], [sel.slice(0, -1)] *)
Definition first (xs : list located) : list located := take 1 xs.
Definition last_ (xs : list located) : list located :=
  drop (length xs - 1)%nat xs.
Definition sliceInit (xs : list located) : list located :=
  take (length xs - 1)%nat xs.

(** Is [sel.html()] a non-empty string? The serialisation of the children of
    the first member is empty only when they are all empty text nodes. *)
Definition rendersEmpty (n : node) : bool :=
  match n with
  | Text [] => true
  | _ => false
  end.

Definition htmlNonEmpty (xs : list located) : bool :=
  match xs with
  | x :: _ => negb (forallb rendersEmpty (childNodes (self x)))
  | [] => false
  end.

(** Selector literals of the source. *)
Definition tagSel (t : string) : compound := Compound (Some t) [] [].
Definition classSel (c : string) : compound := Compound None [js c] [].
Definition only (c : compound) : selector := Selector c [].

(** ** Plain objects *)

(** The names every plain object inherits from [Object.prototype]. *)
Definition Object_prototype_keys : list jsstring :=
  js <$> [ "constructor"; "__defineGetter__"; "__defineSetter__";
           "hasOwnProperty"; "__lookupGetter__"; "__lookupSetter__";
           "isPrototypeOf"; "propertyIsEnumerable"; "toString"; "valueOf";
           "__proto__"; "toLocaleString" ]%string.

(** What reading a property of an object of strings can give. *)
Inductive jsvalue : Type :=
| VUndefined
| VString (s : jsstring)
| VInherited (key : jsstring).   (* a member of Object.prototype: a function, or the prototype itself *)

#[global] Instance jsvalue_eq_dec : EqDecision jsvalue.
Proof. solve_decision. Defined.

(** [o[k]]: an own property, else the inherited member, else undefined. *)
Definition getProp (o : gmap jsstring jsstring) (k : jsstring) : jsvalue :=
  match o !! k with
  | Some v => VString v
  | None => if bool_decide (k ∈ Object_prototype_keys) then VInherited k else VUndefined
  end.

(** [o[k] = v] for a string [v]: creates or replaces the own property, except
    for [__proto__], an accessor whose setter ignores a string. *)
Definition setProp (k v : jsstring) (o : gmap jsstring jsstring)
  : gmap jsstring jsstring :=
  if bool_decide (k = js "__proto__") then o else <[k := v]> o.

Definition truthy (v : jsvalue) : bool :=
  match v with
  | VUndefined => false
  | VString s => nonEmpty s
  | VInherited _ => true
  end.

(** [a || b] *)
Definition orElse (a b : jsvalue) : jsvalue := if truthy a then a else b.

(** Truthiness of an optional string ([undefined] or a string). *)
Definition truthyStr (o : option jsstring) : bool :=
  match o with
  | Some s => nonEmpty s
  | None => false
  end.

(** ** Abilities *)

(** A row of [marvel_rivals_abilities] as the extractors hand it on. *)
Record Ability : Type := mkAbility {
  hero_id : jsstring;
  name : jsstring;
  type : jsvalue;
  description : jsstring;
  stats : gmap jsstring jsstring
}.

#[global] Instance Ability_eq_dec : EqDecision Ability.
Proof. solve_decision. Defined.

(** *** Current format: [extractNewFormatAbilities] *)

(** The object held in [currentAbility]; [stats] is a reference to an object
    of the heap, shared with the row pushed for the same ability. *)
Record CurrentAbility : Type := mkCurrent {
  cur_name : jsstring;
  cur_type : jsstring;
  cur_description : jsstring;
  cur_stats : nat
}.

(** An element of [abilitiesToInsert]. *)
Record PushedAbility : Type := mkPushed {
  p_hero_id : jsstring;
  p_name : jsstring;
  p_type : jsstring;
  p_description : jsstring;
  p_stats : nat
}.

(** The variables of the row loop: the heap of stats objects, [currentAbility]
    ([None] for null) and [abilitiesToInsert]. *)
Record State : Type := mkState {
  heap : list (gmap jsstring jsstring);
  currentAbility : option CurrentAbility;
  abilitiesToInsert : list PushedAbility
}.

Definition initialState : State := mkState [] None [].

Definition LEFT_MOUSE_BUTTON : jsstring := js "Left Mouse Button".
Definition RIGHT_MOUSE_BUTTON : jsstring := js "Right Mouse Button".

(** The type of a start row, from its cells. *)
Definition startRowType (tds : list located) : jsstring :=
  let typeCell := first tds in
  let typeImg := find (only (tagSel "img")) typeCell in
  if (0 <? length typeImg)%nat then
    let imgTitle :=
      if truthyStr (attr "title" typeImg) then attr "title" typeImg
      else attr "alt" typeImg in
    if bool_decide (imgTitle = Some (js "Left mouse button")) then LEFT_MOUSE_BUTTON
    else if bool_decide (imgTitle = Some (js "Right mouse button")) then RIGHT_MOUSE_BUTTON
    else []
  else toUpperCase (trim (text typeCell)).

(** The name of a start row, from its cells. *)
Definition startRowName (tds : list located) : jsstring :=
  capitalizeWords (trim (text (last_ tds))).

(** The key of a stat, from the text left of the separator (or from a label). *)
Definition statKey (s : jsstring) : jsstring :=
  stripSuffix (js "_-") (replaceSpaces (toLowerCase s)).

(** What one bold element of a continuation cell assigns, if anything. *)
Definition statOfBold (elem : located) : option (jsstring * jsstring) :=
  let fullText := trim (textContent (self elem)) in
  match indexOf (js " - ") fullText with
  | Some separatorIndex =>
      let key := statKey (take separatorIndex fullText) in
      let value := trim (drop (separatorIndex + 3) fullText) in
      if nonEmpty key && nonEmpty value then Some (key, value) else None
  | None =>
      let nextText :=
        match nextSibling elem with
        | Some sib => trim (textContent sib)
        | None => []
        end in
      if nonEmpty nextText then
        let key := statKey (stripSuffix (js ":") fullText) in
        if nonEmpty key then Some (key, nextText) else None
      else None
  end.

(** [currentAbility.stats[key] = value] *)
Definition assignStat (ref : nat) (h : list (gmap jsstring jsstring))
  (elem : located) : list (gmap jsstring jsstring) :=
  match statOfBold elem with
  | Some (key, value) => alter (setProp key value) ref h
  | None => h
  end.

(** [abilitiesToInsert[abilitiesToInsert.length - 1].description = d] *)
Definition setLastDescription (d : jsstring) (l : list PushedAbility)
  : list PushedAbility :=
  alter (fun p => mkPushed (p_hero_id p) (p_name p) (p_type p) d (p_stats p))
        (length l - 1)%nat l.

(** The body of the loop over the rows, for one row. *)
Definition processRow (heroId : jsstring) (st : State) (tr : located) : State :=
  let tds := find1 (only (tagSel "td")) tr in
  if (length tds =? 3)%nat then
    let type := startRowType tds in
    let name := startRowName tds in
    let ref := length (heap st) in
    mkState (heap st ++ [∅])
            (Some (mkCurrent name type [] ref))
            (abilitiesToInsert st ++ [mkPushed heroId name type [] ref])
  else
    match currentAbility st with
    | Some cur =>
        if (length tds =? 1)%nat && bool_decide (attr "colspan" tds = Some (js "3")) then
          let td := first tds in
          if htmlNonEmpty td then
            let description :=
              trim (text (find (Selector (tagSel "i") [(Descendant, tagSel "small")]) td)) in
            let st1 :=
              if nonEmpty description then
                mkState (heap st)
                        (Some (mkCurrent (cur_name cur) (cur_type cur) description (cur_stats cur)))
                        (setLastDescription description (abilitiesToInsert st))
              else st in
            mkState (foldl (assignStat (cur_stats cur)) (heap st1)
                           (find (only (tagSel "b")) td))
                    (currentAbility st1)
                    (abilitiesToInsert st1)
          else st
        else st
    | None => st
    end.

(** What the caller sees of a pushed row: its stats reference followed. *)
Definition resolve (h : list (gmap jsstring jsstring)) (p : PushedAbility) : Ability :=
  mkAbility (p_hero_id p) (p_name p) (VString (p_type p)) (p_description p)
            (default ∅ (h !! p_stats p)).

Definition emitted (st : State) : list Ability :=
  resolve (heap st) <$> abilitiesToInsert st.

(** [skillTable.find('tbody > tr')] *)
Definition abilityRows (skillTable : list located) : list located :=
  find (Selector (tagSel "tr") [(Child, tagSel "tbody")]) skillTable.

Definition extractNewFormatAbilities (skillTable : list located)
  (heroId : jsstring) : list Ability :=
  emitted (foldl (processRow heroId) initialState (abilityRows skillTable)).

(** *** Legacy format: [extractLegacyAbilities] *)

(** The object literal [typeMap] of [mapAbilityType]. *)
Definition typeMap : gmap jsstring jsstring :=
  list_to_map
    [ (js "Primary 1", js "Left Mouse Button");
      (js "Primary 2", js "Right Mouse Button");
      (js "Primary", js "Left Mouse Button");
      (js "Q", js "Q");
      (js "E", js "E");
      (js "F", js "F");
      (js "Passive", js "Passive");
      (js "Left Shift", js "Left Shift") ].

(** [typeMap[rawType] || rawType] *)
Definition mapAbilityType (rawType : jsstring) : jsvalue :=
  orElse (getProp typeMap rawType) (VString rawType).

Definition dataSource (c : compound) (v : string) : compound :=
  Compound (c_tag c) (c_classes c) (c_attrs c ++ [("data-source"%string, js v)]).

(** [values.get(i)] wrapped again: a selection of at most one element. *)
Definition getAt (i : nat) (xs : list located) : list located :=
  match xs !! i with
  | Some x => [x]
  | None => []
  end.

(** The stats one horizontal group assigns, label by label. *)
Definition groupStats (group : located) (stats0 : gmap jsstring jsstring)
  : gmap jsstring jsstring :=
  let labels := find1 (only (classSel "pi-data-label")) group in
  let values := find1 (only (classSel "pi-data-value")) group in
  foldl (fun st '(i, label) =>
           let key := replaceSpaces (toLowerCase (trim (text [label]))) in
           let value := trim (text (getAt i values)) in
           if nonEmpty key && nonEmpty value then setProp key value st else st)
        stats0 (imap (fun i label => (i, label)) labels).

(** The ability of one info panel. *)
Definition legacyAbility (heroId : jsstring) (aside : located) : Ability :=
  let name := capitalizeWords (trim (text (find1 (only (classSel "pi-title")) aside))) in
  let rawType :=
    trim (text (find1 (only (dataSource (tagSel "td") "keybind")) aside)) in
  let description :=
    trim (text (find1 (Selector (classSel "pi-data-value")
                         [(Descendant, dataSource (classSel "pi-data") "description")])
                      aside)) in
  let stats1 :=
    foldl (fun st group => groupStats group st) ∅
          (find1 (only (classSel "pi-horizontal-group")) aside) in
  let properties :=
    trim (text (find1 (Selector (classSel "pi-data-value")
                         [(Descendant, dataSource (classSel "pi-data") "properties")])
                      aside)) in
  let stats2 :=
    if nonEmpty properties then setProp (js "properties") properties stats1
    else stats1 in
  mkAbility heroId name (mapAbilityType rawType) description stats2.

(** [$('.fandom-table tbody tr td aside')] *)
Definition legacyAsides (doc : list node) : list located :=
  select (Selector (tagSel "aside")
            [(Descendant, tagSel "td"); (Descendant, tagSel "tr");
             (Descendant, tagSel "tbody"); (Descendant, classSel "fandom-table")])
         doc.

Definition extractLegacyAbilities (doc : list node) (heroId : jsstring)
  : list Ability :=
  legacyAbility heroId <$> legacyAsides doc.

(** *** [extractAbilities] *)

(** [$('table.wikitable.skill-table').first()] *)
Definition skillTableOf (doc : list node) : list located :=
  first (select (only (Compound (Some "table"%string)
                         [js "wikitable"; js "skill-table"] [])) doc).

Definition extractAbilities (doc : list node) (heroId : jsstring) : list Ability :=
  let skillTable := skillTableOf doc in
  if (0 <? length skillTable)%nat
  then extractNewFormatAbilities skillTable heroId
  else extractLegacyAbilities doc heroId.

(** ** Stats: [extractDifficulty] *)

Definition STAR_FULL : jsstring := js "StarFull".

(** [$(img).attr('alt') || ''] *)
Definition altOf (img : located) : jsstring :=
  if truthyStr (attr "alt" [img]) then default [] (attr "alt" [img]) else [].

(** [difficultyDiv.find('img')] *)
Definition starImages (doc : list node) : list located :=
  find (only (tagSel "img"))
       (select (only (dataSource (tagSel "div") "difficulty")) doc).

(** The value of [difficulty] after the loop over the images. *)
Definition countFullStars (imgs : list located) : nat :=
  foldl (fun difficulty img =>
           if bool_decide (altOf img = STAR_FULL) then S difficulty else difficulty)
        0%nat imgs.

Definition extractDifficulty (doc : list node) : option nat :=
  let difficultyDiv := select (only (dataSource (tagSel "div") "difficulty")) doc in
  if (length difficultyDiv =? 0)%nat then None
  else
    let difficulty := countFullStars (find (only (tagSel "img")) difficultyDiv) in
    if (difficulty <? 1)%nat || (5 <? difficulty)%nat then None
    else Some difficulty.

(** ** Lore: [getHeroLoreSection] *)

(** The marker, an em dash (U+2014) followed by " Biography". *)
Definition BIOGRAPHY : jsstring := 8212 :: js " Biography".

Definition NEWLINES : jsstring := [10; 10].

(** [$('blockquote').filter(...)]: no id and no class, or empty ones. *)
Definition loreBlockquotes (doc : list node) : list located :=
  filter (fun el => (negb (truthyStr (attr "id" [el]))
                     && negb (truthyStr (attr "class" [el]))) = true)
         (select (only (tagSel "blockquote")) doc).

(** The paragraphs appended to [loreContent] for the block that is chosen. *)
Definition appendParagraph (loreContent : jsstring) (p : located) : jsstring :=
  let paragraph := trim (text [p]) in
  if nonEmpty paragraph then loreContent ++ paragraph ++ NEWLINES else loreContent.

(** The loop over the candidate blocks: [loreContent] and [biographyFound]
    when it ends, by exhaustion or by the [return false] that breaks it. *)
Fixpoint eachBlockquote (blocks : list located) : jsstring * bool :=
  match blocks with
  | [] => ([], false)
  | blockquote :: rest =>
      let pTags := find1 (only (tagSel "p")) blockquote in
      let lastPText := trim (text (last_ pTags)) in
      if bool_decide (lastPText = BIOGRAPHY)
      then (foldl appendParagraph [] (sliceInit pTags), true)
      else eachBlockquote rest
  end.

Definition getHeroLoreSection (doc : list node) : option jsstring :=
  let blocks := loreBlockquotes doc in
  if (length blocks =? 0)%nat then None
  else
    let '(loreContent, biographyFound) := eachBlockquote blocks in
    if negb biographyFound then None
    else
      let loreContent := trim loreContent in
      if nonEmpty loreContent then Some loreContent else None.

(** ** The service: [ScrapingService] *)

(** What a call into a collaborator, or a block of statements, ends with. *)
Inductive outcome (A : Type) : Type :=
| Returns (a : A)
| Throws (message : jsstring).

Arguments Returns {A} a.
Arguments Throws {A} message.

Definition bindOutcome {A B : Type} (m : outcome A) (k : A -> outcome B)
  : outcome B :=
  match m with
  | Returns a => k a
  | Throws e => Throws e
  end.

Notation "'let*' x ':=' m 'in' k" := (bindOutcome m (fun x => k))
  (at level 10, x name, m at level 100, k at level 200).

(** [try { body } catch (error) { handler }] *)
Definition tryCatch {A : Type} (body : outcome A) (handler : jsstring -> outcome A)
  : outcome A :=
  match body with
  | Returns a => Returns a
  | Throws e => handler e
  end.

(** A parsed crawl policy, as far as the service uses it: [robots.isAllowed]. *)
Record Robots : Type := mkRobots {
  isAllowed : jsstring -> jsstring -> outcome bool
}.

Record Hero : Type := mkHero {
  id : jsstring;
  hero_name : jsstring
}.

(** Everything outside the process: the built-ins that can throw, the network,
    the robots.txt parser, the HTML parser and the two tables of the store as
    far as the ability pass reads them. *)
Record World : Type := mkWorld {
  newURL : jsstring -> jsstring -> outcome jsstring;      (* new URL(path, base).href *)
  encodeURIComponent : jsstring -> outcome jsstring;
  axiosGet : jsstring -> outcome jsstring;                (* the data of the response *)
  robotsParser : jsstring -> jsstring -> outcome Robots;
  cheerioLoad : jsstring -> list node;
  selectHeroes : option (list Hero);                      (* None: an error, or no data *)
  storeRejects : list Ability -> bool                     (* the upsert answers with an error *)
}.

(** [canScrape] *)
Definition policyVerdict (w : World) (url userAgent : jsstring) : outcome bool :=
  let* robotsUrl := newURL w (js "/robots.txt") url in
  let* data := axiosGet w robotsUrl in
  let* robots := robotsParser w robotsUrl data in
  isAllowed robots url userAgent.

Definition canScrape (w : World) (url userAgent : jsstring) : outcome bool :=
  tryCatch (policyVerdict w url userAgent) (fun error => Returns true).

(** [ScrapingUtils.getHeroPageUrl] *)
Definition getHeroPageUrl (w : World) (heroName : jsstring) : outcome jsstring :=
  let* encodedName := encodeURIComponent w (replaceSpaces heroName) in
  Returns (js "https://marvelrivals.fandom.com/wiki/" ++ encodedName).

(** *** The store *)

(** The value of a column of an ability row. *)
Inductive cell : Type :=
| CellText (s : jsstring)
| CellValue (v : jsvalue)
| CellJson (m : gmap jsstring jsstring)
| CellNone.

#[global] Instance cell_eq_dec : EqDecision cell.
Proof. solve_decision. Defined.

Definition column (c : jsstring) (r : Ability) : cell :=
  if bool_decide (c = js "hero_id") then CellText (hero_id r)
  else if bool_decide (c = js "name") then CellText (name r)
  else if bool_decide (c = js "type") then CellValue (type r)
  else if bool_decide (c = js "description") then CellText (description r)
  else if bool_decide (c = js "stats") then CellJson (stats r)
  else CellNone.

(** The identity of a row under an [onConflict] option: its values in the
    comma-separated columns. *)
Definition conflictKey (onConflict : jsstring) (r : Ability) : list cell :=
  (fun c => column c r) <$> split 44 onConflict.

(** Modelled from the spec: the store's upsert, an external collaborator of the
    repository (the Supabase client). Following sections 3 and 6 of the
    specification, an upsert keyed on some columns updates in place the stored
    row that has the same values in these columns, and adds the row when there
    is none. *)
Definition upsertRow (onConflict : jsstring) (table : list Ability) (r : Ability)
  : list Ability :=
  if existsb (fun old => bool_decide (conflictKey onConflict old = conflictKey onConflict r)) table
  then (fun old => if bool_decide (conflictKey onConflict old = conflictKey onConflict r)
                   then r else old) <$> table
  else table ++ [r].

Definition upsertRows (onConflict : jsstring) (rows table : list Ability)
  : list Ability :=
  foldl (upsertRow onConflict) table rows.

(** [from('marvel_rivals_abilities').upsert(rows, { onConflict })]: [None] is
    an answer with an error, which leaves the table as it was. *)
Definition upsert (w : World) (rows : list Ability) (onConflict : jsstring)
  (table : list Ability) : option (list Ability) :=
  if storeRejects w rows then None else Some (upsertRows onConflict rows table).

(** *** [scrapeHeroAbilities] *)

(** The body of the loop over the heroes, inside its try block; [table] is
    [marvel_rivals_abilities]. Every early [continue], and the catch clause,
    leave the table as it is. *)
Definition scrapeHero (w : World) (table : list Ability) (hero : Hero)
  (heroUrl : jsstring) : list Ability :=
  match canScrape w heroUrl (js "*") with
  | Returns true =>
      match axiosGet w heroUrl with
      | Returns heroPageData =>
          let abilitiesToInsert :=
            extractAbilities (cheerioLoad w heroPageData) (id hero) in
          if (length abilitiesToInsert =? 0)%nat then table
          else match upsert w abilitiesToInsert (js "name") table with
               | Some table' => table'
               | None => table
               end
      | Throws heroError => table
      end
  | Returns false => table
  | Throws heroError => table
  end.

(** The loop over the heroes. [getHeroPageUrl] is called outside the inner try
    block: if it throws, the outer catch clause ends the pass. *)
Fixpoint forEachHero (w : World) (table : list Ability) (heroes : list Hero)
  : list Ability :=
  match heroes with
  | [] => table
  | hero :: rest =>
      match getHeroPageUrl w (hero_name hero) with
      | Returns heroUrl => forEachHero w (scrapeHero w table hero heroUrl) rest
      | Throws error => table
      end
  end.

Definition scrapeHeroAbilities (w : World) (table : list Ability) : list Ability :=
  match selectHeroes w with
  | Some heroes => forEachHero w table heroes
  | None => table
  end.

(** ** The properties, in the words of the specification *)

(** The data cells of a row: [$(tr).find('td')]. *)
Definition cellsOf (tr : located) : list located :=
  find1 (only (tagSel "td")) tr.

(** A start row has exactly three data cells. *)
Definition isStartRow (tr : located) : bool :=
  (length (cellsOf tr) =? 3)%nat.

(** A continuation row has one data cell, spanning the three columns. *)
Definition isContinuationRow (tr : located) : bool :=
  (length (cellsOf tr) =? 1)%nat
  && bool_decide (attr "colspan" (cellsOf tr) = Some (js "3")).

(** The description a row supplies (empty if it supplies none). *)
Definition rowDescription (tr : located) : jsstring :=
  if isContinuationRow tr && htmlNonEmpty (first (cellsOf tr))
  then trim (text (find (Selector (tagSel "i") [(Descendant, tagSel "small")])
                        (first (cellsOf tr))))
  else [].

(** The normalized key/value pairs read from a row, in document order. *)
Definition rowStats (tr : located) : list (jsstring * jsstring) :=
  if isContinuationRow tr && htmlNonEmpty (first (cellsOf tr))
  then omap statOfBold (find (only (tagSel "b")) (first (cellsOf tr)))
  else [].

(** Assigning pairs to a stats object, in order. *)
Definition assignAll (pairs : list (jsstring * jsstring))
  (o : gmap jsstring jsstring) : gmap jsstring jsstring :=
  foldl (fun o kv => setProp kv.1 kv.2 o) o pairs.

(** The value read last for a key among pairs, if the key was read at all. *)
Fixpoint lastValue (key : jsstring) (pairs : list (jsstring * jsstring))
  : option jsstring :=
  match pairs with
  | [] => None
  | (k, v) :: rest =>
      match lastValue key rest with
      | Some v' => Some v'
      | None => if bool_decide (k = key) then Some v else None
      end
  end.

(** *** The stats of an ability, in the words of the specification *)

(** Section 4.3 (b): the bolded "key - value" pairs of a continuation row are
    read via the first occurrence of the literal separator; the text before
    it becomes a normalized key (lower-cased, spaces to underscores, trailing
    separator artifacts stripped), the text after it the raw value; bolded
    text without the separator is a label whose value is the text of the
    sibling that follows it. Where the specification is silent the reading is
    that of the source: texts are trimmed, a label loses a final colon, the
    sibling is a node of any kind, and a pair with an empty key or an empty
    value is not read. *)
Definition SEPARATOR : jsstring := js " - ".

Definition UNDERSCORE : N := 95.

(** A text cut at the first occurrence of [sep]: what stands before it and
    what stands after it. *)
Fixpoint cutAtFirst (sep s : jsstring) : option (jsstring * jsstring) :=
  if bool_decide (sep `prefix_of` s) then Some ([], drop (length sep) s)
  else match s with
       | [] => None
       | c :: s' => (fun p => (c :: p.1, p.2)) <$> cutAtFirst sep s'
       end.

(** A text without a given ending, if it has it. *)
Definition withoutEnding (ending s : jsstring) : jsstring :=
  if bool_decide (ending `suffix_of` s) then take (length s - length ending)%nat s
  else s.

Definition normalizedLabel (label : jsstring) : jsstring :=
  withoutEnding (js "_-")
    ((fun c => if bool_decide (c = SPACE) then UNDERSCORE else c) <$> toLowerCase label).

(** The pair read from a bold element, if one is. *)
Definition pairRead (bold : located) : option (jsstring * jsstring) :=
  let shown := trim (textContent (self bold)) in
  let kv :=
    match cutAtFirst SEPARATOR shown with
    | Some (before, after) => (normalizedLabel before, trim after)
    | None =>
        (normalizedLabel (withoutEnding (js ":") shown),
         trim (from_option textContent [] (nextSibling bold)))
    end in
  if bool_decide (kv.1 ≠ [] /\ kv.2 ≠ []) then Some kv else None.

(** The pairs read from a row, in document order: those of the bold elements
    of a continuation row whose cell has content. *)
Definition pairsRead (tr : located) : list (jsstring * jsstring) :=
  if isContinuationRow tr && htmlNonEmpty (first (cellsOf tr))
  then omap pairRead (find (only (tagSel "b")) (first (cellsOf tr)))
  else [].

(** A map that contains exactly the pairs of a list. *)
Definition containsExactly (m : gmap jsstring jsstring)
  (pairs : list (jsstring * jsstring)) : Prop :=
  forall k v, m !! k = Some v <-> (k, v) ∈ pairs.

(** What a stats object holds under a key once pairs were read into it: the
    value of the last pair with that key, and nothing under [__proto__]. *)
Definition valueKept (key : jsstring) (pairs : list (jsstring * jsstring))
  : option jsstring :=
  if bool_decide (key = js "__proto__") then None else lastValue key pairs.

(** The ability a start row opens. *)
Definition startAbility (heroId : jsstring) (tr : located) : Ability :=
  mkAbility heroId (startRowName (cellsOf tr))
            (VString (startRowType (cellsOf tr))) [] ∅.

(** What a later row adds to the ability that is open. *)
Definition absorb (a : Ability) (tr : located) : Ability :=
  mkAbility (hero_id a) (name a) (type a)
            (if nonEmpty (rowDescription tr) then rowDescription tr else description a)
            (assignAll (rowStats tr) (stats a)).

(** The rows that follow a start row and precede the next start row. *)
Fixpoint rowsUntilStart (rows : list located) : list located :=
  match rows with
  | [] => []
  | r :: rest => if isStartRow r then [] else r :: rowsUntilStart rest
  end.

(** Each start row with the rows that belong to it; rows before the first
    start row belong to none. *)
Fixpoint groupRows (rows : list located) : list (located * list located) :=
  match rows with
  | [] => []
  | r :: rest =>
      if isStartRow r then (r, rowsUntilStart rest) :: groupRows rest
      else groupRows rest
  end.

Definition abilityOfGroup (heroId : jsstring) (g : located * list located)
  : Ability :=
  foldl absorb (startAbility heroId g.1) g.2.

(** One step of the two-state machine of the specification, on the list of
    abilities emitted so far: a start row opens an ability, any other row is
    absorbed by the last one, if there is one. *)
Definition machineStep (heroId : jsstring) (out : list Ability) (tr : located)
  : list Ability :=
  if isStartRow tr then out ++ [startAbility heroId tr]
  else alter (fun a => absorb a tr) (length out - 1)%nat out.

(** The label of the first image of a selection: its title, or its alt text
    when the title is missing or empty. *)
Definition imageLabel (imgs : list located) : option jsstring :=
  if truthyStr (attr "title" imgs) then attr "title" imgs else attr "alt" imgs.

(** Lore, in the words of the specification: the trimmed concatenation of the
    trimmed texts of the paragraphs before the marker, separated by blank
    lines. *)
Fixpoint joinBlank (ps : list jsstring) : jsstring :=
  match ps with
  | [] => []
  | [p] => p
  | p :: ps' => p ++ NEWLINES ++ joinBlank ps'
  end.

Definition paragraphs (blockquote : located) : list located :=
  find1 (only (tagSel "p")) blockquote.

Definition endsWithMarker (blockquote : located) : bool :=
  bool_decide (trim (text (last_ (paragraphs blockquote))) = BIOGRAPHY).

Definition precedingTexts (blockquote : located) : list jsstring :=
  (fun p => trim (text [p])) <$> sliceInit (paragraphs blockquote).

Definition loreAsSpecified (doc : list node) : option jsstring :=
  match filter (fun b => endsWithMarker b = true) (loreBlockquotes doc) with
  | [] => None
  | b :: _ =>
      let lore := trim (joinBlank (precedingTexts b)) in
      if nonEmpty lore then Some lore else None
  end.

(** The same with the empty paragraphs left out, which is what the source
    does. *)
Definition loreOfBlock (blockquote : located) : jsstring :=
  joinBlank (filter (fun t => nonEmpty t = true) (precedingTexts blockquote)).

(** ** Invariants and auxiliary predicates *)

(** What holds of the loop variables of [extractNewFormatAbilities] between
    two rows: every pushed row owns the stats object at its own index, and
    [currentAbility], when set, shares the stats object of the last row. *)
Record StateInv (st : State) : Prop := mkStateInv {
  inv_heap : length (heap st) = length (abilitiesToInsert st);
  inv_refs : forall i p, abilitiesToInsert st !! i = Some p -> p_stats p = i;
  inv_current : match currentAbility st with
                | None => abilitiesToInsert st = []
                | Some cur => S (cur_stats cur) = length (heap st)
                end
}.

(** A string that begins and ends with a code unit [trim] keeps. *)
Definition bounded (s : jsstring) : Prop :=
  (exists c, head s = Some c /\ isWhiteSpace c = false)
  /\ (exists d, last s = Some d /\ isWhiteSpace d = false).

(** A code unit whose lower-case form has a one-unit upper-case form that
    lower-cases and upper-cases back to itself. *)
Definition stableInitial (c : N) : bool :=
  match upperUnit (lowerUnit c) with
  | [u] => negb (lowerUnit u =? SPACE) && bool_decide (upperUnit (lowerUnit u) = [u])
  | _ => false
  end.

(** A word that is empty or begins with such a code unit. *)
Definition stableWord (w : jsstring) : Prop :=
  match w with
  | [] => True
  | c :: _ => stableInitial c = true
  end.

(** U+00DF, LATIN SMALL LETTER SHARP S. *)
Definition SHARP_S : N := 223.

(** ** Pages and worlds used as examples *)

Definition elem (t : string) (cs : list node) : node := Element t [] cs.

Definition elemWith (t k v : string) (cs : list node) : node :=
  Element t [(k, js v)] cs.

Definition textCell (s : string) : node := elem "td" [Text (js s)].

(** A page in the current format, with the given rows in its skill table. *)
Definition skillTablePage (rows : list node) : list node :=
  [elem "html"
     [elem "body"
        [elemWith "table" "class" "wikitable skill-table" [elem "tbody" rows]]]].

(** The page of section 8 of the specification: one start row with the icon
    of the left mouse button, and its continuation row. *)
Definition web_start : node :=
  elem "tr" [elem "td" [elemWith "img" "title" "Left mouse button" []];
             elem "td" [];
             textCell "web strike"].

Definition web_continuation : node :=
  elem "tr" [elemWith "td" "colspan" "3"
               [elem "small" [elem "i" [Text (js "Swing forward.")]];
                elem "b" [Text (js "Cooldown - 6s")]]].

Definition web_page : list node := skillTablePage [web_start; web_continuation].

Definition web_start_row : located :=
  Located [0; 0; 0; 0; 0]%nat web_start (Some web_continuation).

Definition web_continuation_row : located :=
  Located [0; 0; 0; 0; 1]%nat web_continuation None.

Definition web_strike : Ability :=
  mkAbility (js "hero-1") (js "Web Strike") (VString (js "Left Mouse Button"))
            (js "Swing forward.") {[ js "cooldown" := js "6s" ]}.

(** A start row whose first cell holds the icon of a key and its letter. *)
Definition key_page : list node :=
  skillTablePage
    [elem "tr" [elem "td" [elemWith "img" "title" "E key" []; Text (js " e ")];
                elem "td" [];
                textCell "phase shift"]].

(** A continuation row that gives a key twice, and the key [__proto__]. *)
Definition shadow_continuation : node :=
  elem "tr" [elemWith "td" "colspan" "3"
               [elem "b" [Text (js "__proto__ - x")];
                elem "b" [Text (js "Damage - 40")];
                elem "b" [Text (js "Damage - 55")]]].

Definition shadow_page : list node := skillTablePage [web_start; shadow_continuation].

(** A start row with three empty cells, and a legacy panel with no title and
    no key binding. *)
Definition blank_page : list node :=
  skillTablePage [elem "tr" [elem "td" []; elem "td" []; elem "td" []]].

Definition blank_legacy_page : list node :=
  [elem "html"
     [elemWith "table" "class" "fandom-table"
        [elem "tbody" [elem "tr" [elem "td" [elem "aside" []]]]]]].

(** Another hero with an ability of the same name. *)
Definition venom_page : list node :=
  skillTablePage [elem "tr" [textCell "e"; elem "td" []; textCell "web strike"]].

Definition venom_strike : Ability :=
  mkAbility (js "hero-2") (js "Web Strike") (VString (js "E")) [] ∅.

(** A difficulty panel with four full stars and an empty one. *)
Definition star (alt : string) : node := elemWith "img" "alt" alt [].

Definition stars_page : list node :=
  [elem "html"
     [elemWith "div" "data-source" "difficulty"
        [star "StarFull"; star "StarFull"; star "StarFull"; star "StarFull";
         star "StarEmpty"]]].

(** Quotation blocks: two paragraphs before the marker; and three, the middle
    one empty. *)
Definition paragraph (s : jsstring) : node := elem "p" [Text s].

Definition lore_page : list node :=
  [elem "html"
     [elemWith "blockquote" "class" "quote" [paragraph BIOGRAPHY];
      elem "blockquote"
        [paragraph (js " Bitten by a spider. "); paragraph (js "He swings.");
         paragraph BIOGRAPHY]]].

Definition gap_page : list node :=
  [elem "html"
     [elem "blockquote"
        [paragraph (js "One."); paragraph []; paragraph (js "Two.");
         paragraph BIOGRAPHY]]].

Definition wikiUrl (heroName : string) : jsstring :=
  js "https://marvelrivals.fandom.com/wiki/" ++ js heroName.

(** A world with two heroes whose pages are served and allowed. *)
Definition two_heroes : World :=
  mkWorld
    (fun path base => Returns (js "https://marvelrivals.fandom.com" ++ path))
    (fun s => Returns s)
    (fun url =>
       if bool_decide (url = wikiUrl "Spider-Man") then Returns (js "page 1")
       else if bool_decide (url = wikiUrl "Venom") then Returns (js "page 2")
       else if bool_decide (url = js "https://marvelrivals.fandom.com/robots.txt")
            then Returns []
       else Throws (js "Request failed with status code 404"))
    (fun robotsUrl data => Returns (mkRobots (fun url userAgent => Returns true)))
    (fun data =>
       if bool_decide (data = js "page 1") then web_page
       else if bool_decide (data = js "page 2") then venom_page
       else [])
    (Some [mkHero (js "hero-1") (js "Spider-Man"); mkHero (js "hero-2") (js "Venom")])
    (fun rows => false).

(** A world in which no request gets through. *)
Definition offline : World :=
  mkWorld
    (fun path base => Returns (js "https://marvelrivals.fandom.com" ++ path))
    (fun s => Returns s)
    (fun url => Throws (js "getaddrinfo ENOTFOUND marvelrivals.fandom.com"))
    (fun robotsUrl data => Returns (mkRobots (fun url userAgent => Returns false)))
    (fun data => [])
    None
    (fun rows => false).

(** ** Further parts of the source *)

(** *** The store, for any table *)

(** Modelled from the spec: the upsert of one row into a table of the store,
    keyed on [key] (sections 3 and 6 of the specification): the stored rows
    with the key of the row are replaced by it, and the row is added when
    there is none. [upsertRow] is the instance for ability rows. *)
Definition upsertBy {A K : Type} `{EqDecision K} (key : A -> K)
  (table : list A) (r : A) : list A :=
  if existsb (fun old => bool_decide (key old = key r)) table
  then (fun old => if bool_decide (key old = key r) then r else old) <$> table
  else table ++ [r].

(** What the rows of a batch make of a stored row, one after the other. *)
Definition replacedBy {A K : Type} `{EqDecision K} (key : A -> K)
  (rows : list A) (old : A) : A :=
  foldl (fun o r => if bool_decide (key o = key r) then r else o) old rows.

(** *** The ability pass, hero by hero *)

(** The rows the pass writes for one hero: the abilities extracted from the
    page, when the page is allowed and fetched and the store accepts them. *)
Definition writtenFor (w : World) (hero : Hero) (heroUrl : jsstring)
  : list Ability :=
  match canScrape w heroUrl (js "*") with
  | Returns true =>
      match axiosGet w heroUrl with
      | Returns heroPageData =>
          let rows := extractAbilities (cheerioLoad w heroPageData) (id hero) in
          if storeRejects w rows then [] else rows
      | Throws _ => []
      end
  | _ => []
  end.

(** The rows the pass writes for a list of heroes, in order; a name whose URL
    cannot be built ends the list. *)
Fixpoint writtenForAll (w : World) (heroes : list Hero) : list Ability :=
  match heroes with
  | [] => []
  | hero :: rest =>
      match getHeroPageUrl w (hero_name hero) with
      | Returns heroUrl => writtenFor w hero heroUrl ++ writtenForAll w rest
      | Throws _ => []
      end
  end.

(** A world like [two_heroes] in which the page of the first hero is gone. *)
Definition first_page_gone : World :=
  mkWorld
    (newURL two_heroes)
    (encodeURIComponent two_heroes)
    (fun url =>
       if bool_decide (url = wikiUrl "Spider-Man")
       then Throws (js "Request failed with status code 404")
       else axiosGet two_heroes url)
    (robotsParser two_heroes)
    (cheerioLoad two_heroes)
    (selectHeroes two_heroes)
    (storeRejects two_heroes).

Definition spider_man : Hero := mkHero (js "hero-1") (js "Spider-Man").
Definition venom : Hero := mkHero (js "hero-2") (js "Venom").

(** *** Shapes of keys, values and rows *)





(** A raw value: not empty, with no white space at either end. *)
Definition trimmedValue (v : jsstring) : Prop :=
  v ≠ [] /\ trim v = v.

(** The rows the row loop reacts to: start rows, and continuation rows whose
    cell has content. *)
Definition contributes (tr : located) : bool :=
  isStartRow tr || (isContinuationRow tr && htmlNonEmpty (first (cellsOf tr))).

(** The description among rows that is supplied last, if any is. *)
Definition lastDescription (rows : list located) : jsstring :=
  default [] (last (filter (fun d => nonEmpty d = true) (rowDescription <$> rows))).

(** A header row, as wiki tables have them. *)
Definition header_row : node :=
  elem "tr" [elem "th" [Text (js "Key")]; elem "th" [Text (js "Ability")]].

(** A code unit whose lower-case form has a one-unit upper-case form with the
    same lower-case form. *)
Definition caseOnly (c : N) : bool :=
  match upperUnit (lowerUnit c) with
  | [u] => lowerUnit u =? lowerUnit c
  | _ => false
  end.

(** *** Health: [extractHealth] and [generateStats] *)

(** A JavaScript number that holds an integer: the integer itself while its
    magnitude is at most 2^53, the range in which every integer is a double;
    beyond it a double that is not computed here. Minus zero and zero are not
    told apart. *)
Inductive jsint : Type :=
| Exactly (z : Z)
| Inexact.

Definition toNumber (z : Z) : jsint :=
  if (Z.abs z <=? 2 ^ 53)%Z then Exactly z else Inexact.

Definition isDigit (c : N) : bool := (48 <=? c) && (c <=? 57).

(** The value of the decimal digits a string begins with, after [acc]. *)
Fixpoint digitsValue (acc : N) (s : jsstring) : N :=
  match s with
  | c :: s' => if isDigit c then digitsValue (10 * acc + (c - 48)) s' else acc
  | [] => acc
  end.

(** [parseInt(s, 10)]; [None] stands for NaN. Leading white space is
    skipped, one sign is read, then digits up to the first code unit that is
    none. *)
Definition parseInt10 (s : jsstring) : option jsint :=
  let unsigned (sign : Z) (digits : jsstring) :=
    match digits with
    | c :: _ =>
        if isDigit c then Some (toNumber (sign * Z.of_N (digitsValue 0 digits)))
        else None
    | [] => None
    end in
  match trimStart s with
  | 45 :: rest => unsigned (-1)%Z rest
  | 43 :: rest => unsigned 1%Z rest
  | rest => unsigned 1%Z rest
  end.

(** [healthDiv.find('div.pi-data-value').text().trim()] *)
Definition healthTextOf (healthDiv : list located) : jsstring :=
  trim (text (find (only (Compound (Some "div"%string) [js "pi-data-value"] []))
                   healthDiv)).

Definition extractHealth (doc : list node) : option jsint :=
  let healthDiv := select (only (dataSource (tagSel "div") "health")) doc in
  if (length healthDiv =? 0)%nat then None
  else parseInt10 (healthTextOf healthDiv).

(** The object [generateStats] returns. *)
Record HeroStats : Type := mkHeroStats {
  health : option jsint;
  difficulty : option nat
}.

Definition generateStats (doc : list node) : HeroStats :=
  mkHeroStats (extractHealth doc) (extractDifficulty doc).

(** The decimal digits of a number, as [String(n)] writes an integer. *)
Fixpoint decimalFrom (fuel : nat) (n : N) (acc : jsstring) : jsstring :=
  match fuel with
  | O => acc
  | S fuel' =>
      let acc' := (48 + n mod 10) :: acc in
      if n / 10 =? 0 then acc' else decimalFrom fuel' (n / 10) acc'
  end.

Definition decimal (n : N) : jsstring :=
  decimalFrom (S (N.to_nat (N.log2 n))) n [].

(** A page with a health panel. *)
Definition health_page (value : jsstring) : list node :=
  [elem "html"
     [elemWith "div" "data-source" "health"
        [elem "h3" [Text (js "Health")];
         elemWith "div" "class" "pi-data-value pi-font" [Text value]]]].

(** *** The other passes of the service *)

(** A row of the table [news]. *)
Record NewsItem : Type := mkNewsItem {
  n_title : jsstring;
  n_content : option jsstring;
  n_published_at : Z;
  n_created_at : Z;
  n_updated_at : Z;
  n_game_id : jsstring;
  n_image_url : option jsstring;
  n_type : jsstring;
  n_url : jsstring
}.

(** An element of the array [heroes] of [scrapeHeroes]. *)
Record HeroInsert : Type := mkHeroInsert {
  r_name : jsstring;
  r_image_url : jsstring;
  r_type : jsstring;
  r_created_at : Z;
  r_game_id : jsstring
}.

(** A row of the table [marvel_rivals_heroes]. *)
Record HeroRow : Type := mkHeroRow {
  h_id : jsstring;
  h_name : jsstring;
  h_image_url : jsstring;
  h_type : jsstring;
  h_lore : option jsstring;
  h_stats : option HeroStats
}.

(** What these passes need from outside, besides the [World]: the clock, read
    by each [new Date()], and the answers of the store. *)
Record Services : Type := mkServices {
  world : World;
  now : nat -> Z;                          (* the time at the n-th reading of the clock *)
  newsRejects : NewsItem -> bool;          (* the upsert of the item answers with an error *)
  selectFails : bool;                      (* the select of the heroes answers with an error *)
  updateRejects : jsstring -> bool         (* the update of the hero with this id answers with an error *)
}.

Definition newsUrls : list (jsstring * jsstring) :=
  [ (js "https://marvelrivals.com/news/", js "announcement");
    (js "https://marvelrivals.com/gameupdate/", js "update");
    (js "https://marvelrivals.com/devdiaries/", js "dev_diary") ].

Definition heroesUrl : jsstring := js "https://marvelrivals.fandom.com/wiki/Heroes".

Definition marvelRivalsGameId : jsstring := js "acbbf41e-1049-4adf-8b86-4033a324d404".

(** [x?.trim()] *)
Definition trimOpt (x : option jsstring) : option jsstring := trim <$> x.

(** [x || null] for an optional string. *)
Definition orNull (x : option jsstring) : option jsstring :=
  if truthyStr x then x else None.

Definition classOf (t : string) (classes : list string) : compound :=
  Compound (Some t) (js <$> classes) [].

(** **** [scrapeNews] *)

(** The body of the loop over the anchors of a feed page. The state is the
    table [news] and the number of readings of the clock so far. *)
Definition scrapeNewsItem (s : Services) (type : jsstring)
  (st : list NewsItem * nat) (element : located) : list NewsItem * nat :=
  let anchor := [element] in
  match trimOpt (attr "href" anchor) with
  | Some (c :: l) =>
      let link := c :: l in
      let imageUrl :=
        orNull (trimOpt (attr "src"
                  (find (Selector (tagSel "img") [(Descendant, classOf "div" ["img"])])
                        anchor))) in
      let title :=
        trim (text (find (Selector (tagSel "h2") [(Descendant, classOf "div" ["text"])])
                         anchor)) in
      if nonEmpty title then
        let description :=
          orNull (Some (trim (text (find (Selector (tagSel "p")
                                            [(Descendant, classOf "div" ["text"])])
                                         anchor)))) in
        let ticks := st.2 in
        let item :=
          mkNewsItem title description (now s ticks) (now s (S ticks))
                     (now s (S (S ticks))) marvelRivalsGameId imageUrl type link in
        if newsRejects s item then (st.1, S (S (S ticks)))
        else (upsertBy n_url st.1 item, S (S (S ticks)))
      else st
  | _ => st
  end.

(** The body of the loop over the feeds, inside its try block. *)
Definition scrapeFeed (s : Services) (st : list NewsItem * nat)
  (news : jsstring * jsstring) : list NewsItem * nat :=
  let '(url, type) := news in
  match canScrape (world s) url (js "*") with
  | Returns true =>
      match axiosGet (world s) url with
      | Returns data =>
          let newsItems :=
            select (only (classOf "a" ["list-item"])) (cheerioLoad (world s) data) in
          if (length newsItems =? 0)%nat then st
          else foldl (scrapeNewsItem s type) st newsItems
      | Throws error => st
      end
  | Returns false => st
  | Throws error => st
  end.

Definition scrapeNews (s : Services) (table : list NewsItem) : list NewsItem :=
  (foldl (scrapeFeed s) (table, 0%nat) newsUrls).1.

(** What the news pass stores of its own. *)
Definition wellFormedNews (x : NewsItem) : Prop :=
  trimmedValue (n_url x)
  /\ trimmedValue (n_title x)
  /\ n_type x ∈ [js "announcement"; js "update"; js "dev_diary"]
  /\ n_game_id x = marvelRivalsGameId
  /\ (forall c, n_content x = Some c -> trimmedValue c)
  /\ (forall u, n_image_url x = Some u -> trimmedValue u).

(** The link under which an anchor is upserted, if the loop gets that far. *)
Definition linkOf (element : located) : option jsstring :=
  match trimOpt (attr "href" [element]) with
  | Some (c :: l) =>
      if nonEmpty (trim (text (find (Selector (tagSel "h2")
                                       [(Descendant, classOf "div" ["text"])])
                                    [element])))
      then Some (c :: l) else None
  | _ => None
  end.

(** The anchors the pass goes through for a feed. *)
Definition feedAnchors (w : World) (news : jsstring * jsstring) : list located :=
  match canScrape w news.1 (js "*") with
  | Returns true =>
      match axiosGet w news.1 with
      | Returns data => select (only (classOf "a" ["list-item"])) (cheerioLoad w data)
      | Throws _ => []
      end
  | _ => []
  end.

(** A feed page with one item, served for the three feeds. *)
Definition news_anchor : node :=
  Element "a" [("class"%string, js "list-item"); ("href"%string, js " /news/season-1.html ")]
    [elemWith "div" "class" "img" [elemWith "img" "src" "https://cdn.example/s1.png" []];
     elemWith "div" "class" "text"
       [elem "h2" [Text (js " Season 1 ")]; elem "p" [Text (js "Eternal Night Falls")]]].

Definition news_page : list node := [elem "html" [elem "body" [news_anchor]]].

Definition news_world : World :=
  mkWorld
    (fun path base => Returns (js "https://marvelrivals.com" ++ path))
    (fun s => Returns s)
    (fun url => Returns (js "feed"))
    (fun robotsUrl data => Returns (mkRobots (fun url userAgent => Returns true)))
    (fun data => news_page)
    None
    (fun rows => false).

Definition news_services (start : Z) : Services :=
  mkServices news_world (fun n => (start + Z.of_nat n)%Z) (fun item => false) false
             (fun heroId => false).

(** What the news pass may do to a stored row: keep it, or put in its place
    a well-formed row with the same URL. *)
Definition keptOrRefreshed (rows : list NewsItem) (x : NewsItem) : Prop :=
  x ∈ rows \/ exists y, y ∈ rows /\ n_url y = n_url x /\ wellFormedNews y.

(** Two rows stored by an earlier pass: the one of the page, with the title
    it had then, and one whose page is gone. *)
Definition stale_season_1 : NewsItem :=
  mkNewsItem (js "Season 1 is coming") None 10 11 12 marvelRivalsGameId None
    (js "announcement") (js "/news/season-1.html").

Definition season_0 : NewsItem :=
  mkNewsItem (js "Season 0") None 1 2 3 marvelRivalsGameId None
    (js "announcement") (js "/news/season-0.html").

(** The anchors of the three feeds, in the order of the pass, each with the
    type of its feed. *)
Definition newsAnchors (w : World) : list (jsstring * located) :=
  news ← newsUrls; (fun element => (news.2, element)) <$> feedAnchors w news.

(** The row a pass over [news_world] that starts at time 1000 leaves. *)
Definition season_1 : NewsItem :=
  mkNewsItem (js "Season 1") (Some (js "Eternal Night Falls")) 1006 1007 1008
    marvelRivalsGameId (Some (js "https://cdn.example/s1.png")) (js "dev_diary")
    (js "/news/season-1.html").

(** **** [scrapeHeroes] *)

(** ECMAScript LineTerminator code points: what the regular expression atom
    [.] does not match. *)
Definition isLineTerminator (c : N) : bool :=
  (c =? 10) || (c =? 13) || (c =? 8232) || (c =? 8233).

Definition PAREN : N := 40.

Definition startsWithParen (s : jsstring) : bool :=
  match s with
  | c :: _ => c =? PAREN
  | [] => false
  end.

(** The first group of a match of [/^(.+?)\s*\(/] once the group holds
    [taken]: the group is extended, one code unit that is no line terminator
    at a time, until white space and an opening parenthesis follow. *)
Fixpoint lazyGroup (taken rest : jsstring) : option jsstring :=
  if startsWithParen (trimStart rest) then Some taken
  else match rest with
       | c :: rest' =>
           if isLineTerminator c then None else lazyGroup (taken ++ [c]) rest'
       | [] => None
       end.

(** [titleAttr.match(/^(.+?)\s*\(/)], as far as its first group; [None] is
    no match. *)
Definition nameMatch (titleAttr : jsstring) : option jsstring :=
  match titleAttr with
  | c :: rest => if isLineTerminator c then None else lazyGroup [c] rest
  | [] => None
  end.

(** [nameMatch ? nameMatch[1].trim() : titleAttr] *)
Definition heroNameOf (titleAttr : jsstring) : jsstring :=
  match nameMatch titleAttr with
  | Some group => trim group
  | None => titleAttr
  end.

(** The callback of [galleryWrappers.each]. The state is the array [heroes]
    and the number of readings of the clock so far. *)
Definition scrapeWrapper (s : Services) (heroType : jsstring)
  (st : list HeroInsert * nat) (wrapper : located) : list HeroInsert * nat :=
  let wrapperDiv := [wrapper] in
  match trimOpt (attr "id" wrapperDiv) with
  | Some (_ :: _) =>
      let img := first (find (only (classOf "img" ["thumbimage"])) wrapperDiv) in
      let imageUrl := trimOpt (attr "data-src" img) in
      let titleAttr := trimOpt (attr "title" img) in
      match imageUrl with
      | Some (u :: rl) =>
          match titleAttr with
          | Some (t :: tl) =>
              let heroName := heroNameOf (t :: tl) in
              if nonEmpty heroName then
                (st.1 ++ [mkHeroInsert heroName (u :: rl) heroType (now s st.2)
                            marvelRivalsGameId],
                 S st.2)
              else st
          | _ => st
          end
      | _ => st
      end
  | _ => st
  end.

(** The callback of [mrMainDivs.each]. *)
Definition scrapeSection (s : Services) (st : list HeroInsert * nat)
  (mrMainDiv : located) : list HeroInsert * nat :=
  let section := [mrMainDiv] in
  let heroType :=
    toLowerCase
      (trim (text (first (find (Selector (classSel "mw-headline")
                                  [(Descendant, tagSel "h3")])
                               section)))) in
  if nonEmpty heroType then
    foldl (scrapeWrapper s heroType) st
          (find (only (classOf "div" ["gallery-image-wrapper"; "accent"])) section)
  else st.

(** [scrapeHeroes], as the rows it hands to the upsert keyed on the name;
    [None] when it leaves without an upsert. *)
Definition scrapeHeroes (s : Services) : option (list HeroInsert) :=
  match canScrape (world s) heroesUrl (js "*") with
  | Returns true =>
      match axiosGet (world s) heroesUrl with
      | Returns data =>
          let mrMainDivs :=
            select (only (Compound (Some "div"%string) [] [("id"%string, js "mr-main")]))
                   (cheerioLoad (world s) data) in
          if (length mrMainDivs =? 0)%nat then None
          else
            let heroes := (foldl (scrapeSection s) ([], 0%nat) mrMainDivs).1 in
            if (length heroes =? 0)%nat then None else Some heroes
      | Throws error => None
      end
  | Returns false => None
  | Throws error => None
  end.

(** **** [scrapeHeroLoreAndStats] *)

(** Modelled from the spec: the store's update of the lore and the stats of
    the rows with a given id (section 6 of the specification: the sink is
    keyed by character id); the other columns and the other rows stay. *)
Definition withLore (row : HeroRow) (lore : jsstring) (stats : HeroStats) : HeroRow :=
  mkHeroRow (h_id row) (h_name row) (h_image_url row) (h_type row)
            (Some lore) (Some stats).

Definition updateById (heroId : jsstring) (lore : jsstring) (stats : HeroStats)
  (table : list HeroRow) : list HeroRow :=
  (fun row => if bool_decide (h_id row = heroId) then withLore row lore stats else row)
    <$> table.

(** The body of the loop over the heroes, inside its try block; [table] is
    [marvel_rivals_heroes]. *)
Definition scrapeLore (s : Services) (table : list HeroRow) (hero : HeroRow)
  (heroUrl : jsstring) : list HeroRow :=
  match canScrape (world s) heroUrl (js "*") with
  | Returns true =>
      match axiosGet (world s) heroUrl with
      | Returns heroPageData =>
          match getHeroLoreSection (cheerioLoad (world s) heroPageData) with
          | Some (c :: l) =>
              let updatedStats := generateStats (cheerioLoad (world s) heroPageData) in
              if updateRejects s (h_id hero) then table
              else updateById (h_id hero) (c :: l) updatedStats table
          | _ => table
          end
      | Throws heroError => table
      end
  | Returns false => table
  | Throws heroError => table
  end.

(** The loop over the heroes read from the store. [getHeroPageUrl] is called
    outside the inner try block: if it throws, the outer catch clause ends the
    pass. *)
Fixpoint forEachHeroRow (s : Services) (table : list HeroRow) (heroes : list HeroRow)
  : list HeroRow :=
  match heroes with
  | [] => table
  | hero :: rest =>
      match getHeroPageUrl (world s) (h_name hero) with
      | Returns heroUrl => forEachHeroRow s (scrapeLore s table hero heroUrl) rest
      | Throws error => table
      end
  end.

(** [scrapeHeroLoreAndStats]: the heroes are the rows of the table when the
    pass starts. *)
Definition scrapeHeroLoreAndStats (s : Services) (table : list HeroRow)
  : list HeroRow :=
  if selectFails s then table else forEachHeroRow s table table.

(** What the heroes pass hands to the store of its own. *)
Definition wellFormedHero (r : HeroInsert) : Prop :=
  trimmedValue (r_name r)
  /\ trimmedValue (r_image_url r)
  /\ r_type r ≠ []
  /\ r_game_id r = marvelRivalsGameId.

(** The heroes a page lists: in every section that has a type, the gallery
    wrappers that have an id, an image URL and a title, each with the type of
    its section. *)
Definition wrapperImg (wrapper : located) : list located :=
  first (find (only (classOf "img" ["thumbimage"])) [wrapper]).

Definition wrapperImage (wrapper : located) : jsstring :=
  default [] (trimOpt (attr "data-src" (wrapperImg wrapper))).

Definition wrapperTitle (wrapper : located) : jsstring :=
  default [] (trimOpt (attr "title" (wrapperImg wrapper))).

Definition complete (wrapper : located) : bool :=
  truthyStr (trimOpt (attr "id" [wrapper]))
  && nonEmpty (wrapperImage wrapper) && nonEmpty (wrapperTitle wrapper).

Definition sectionType (mrMainDiv : located) : jsstring :=
  toLowerCase
    (trim (text (first (find (Selector (classSel "mw-headline")
                                [(Descendant, tagSel "h3")])
                             [mrMainDiv])))).

Definition listedIn (mrMainDiv : located) : list (jsstring * located) :=
  if nonEmpty (sectionType mrMainDiv) then
    (fun wrapper => (sectionType mrMainDiv, wrapper))
      <$> filter (fun wrapper => complete wrapper = true)
            (find (only (classOf "div" ["gallery-image-wrapper"; "accent"])) [mrMainDiv])
  else [].

Definition listedHeroes (doc : list node) : list (jsstring * located) :=
  select (only (Compound (Some "div"%string) [] [("id"%string, js "mr-main")])) doc
    ≫= listedIn.

(** The name, the image URL and the type a listed hero is to be stored
    with. *)
Definition heroOf (listed : jsstring * located) : jsstring * jsstring * jsstring :=
  (heroNameOf (wrapperTitle listed.2), wrapperImage listed.2, listed.1).

Definition storedAs (r : HeroInsert) : jsstring * jsstring * jsstring :=
  (r_name r, r_image_url r, r_type r).

(** What the lore pass may do to a row: leave it, or give it a lore that is
    not empty and trimmed, with stats. *)
Definition keepsOrGainsLore (old new : HeroRow) : Prop :=
  h_id new = h_id old /\ h_name new = h_name old
  /\ h_image_url new = h_image_url old /\ h_type new = h_type old
  /\ (new = old
      \/ exists lore stats,
           h_lore new = Some lore /\ trimmedValue lore /\ h_stats new = Some stats).

(** The update the lore pass applies for a hero, if any. *)
Definition loreFor (s : Services) (hero : HeroRow) : option (jsstring * HeroStats) :=
  match getHeroPageUrl (world s) (h_name hero) with
  | Returns heroUrl =>
      match canScrape (world s) heroUrl (js "*") with
      | Returns true =>
          match axiosGet (world s) heroUrl with
          | Returns heroPageData =>
              match getHeroLoreSection (cheerioLoad (world s) heroPageData) with
              | Some (c :: l) =>
                  if updateRejects s (h_id hero) then None
                  else Some (c :: l, generateStats (cheerioLoad (world s) heroPageData))
              | _ => None
              end
          | Throws _ => None
          end
      | _ => None
      end
  | Throws _ => None
  end.

Definition afterLore (s : Services) (hero : HeroRow) : HeroRow :=
  match loreFor s hero with
  | Some (lore, stats) => withLore hero lore stats
  | None => hero
  end.

(** The page that lists the heroes. *)
Definition hero_wrapper (ident title src : string) : node :=
  Element "div" [("class"%string, js "gallery-image-wrapper accent"); ("id"%string, js ident)]
    [Element "img" [("class"%string, js "thumbimage"); ("title"%string, js title);
                    ("data-src"%string, js src)] []].

Definition heroes_page : list node :=
  [elem "html"
     [elemWith "div" "id" "mr-main"
        [elem "h3" [elemWith "span" "class" "mw-headline" [Text (js " Duelist ")]];
         hero_wrapper "Spider-Man" "Spider-Man (Duelist)" "https://img.example/spider-man.png";
         hero_wrapper "Venom" " Venom " "https://img.example/venom.png";
         hero_wrapper "Unknown" "" "https://img.example/unknown.png"]]].

Definition heroes_world : World :=
  mkWorld
    (fun path base => Returns (js "https://marvelrivals.fandom.com" ++ path))
    (fun s => Returns s)
    (fun url => Returns (js "heroes"))
    (fun robotsUrl data => Returns (mkRobots (fun url userAgent => Returns true)))
    (fun data => heroes_page)
    None
    (fun rows => false).

Definition heroes_services : Services :=
  mkServices heroes_world (fun n => Z.of_nat n) (fun item => false) false
             (fun heroId => false).

(** A page with lore and stats, and the store of two heroes of whom the
    first has that page and the second none. *)
Definition hero_page : list node :=
  [elem "html"
     [elem "blockquote"
        [paragraph (js " Bitten by a spider. "); paragraph (js "He swings.");
         paragraph BIOGRAPHY];
      elemWith "div" "data-source" "health"
        [elemWith "div" "class" "pi-data-value pi-font" [Text (js "250")]];
      elemWith "div" "data-source" "difficulty" [star "StarFull"; star "StarFull"; star "StarEmpty"]]].

Definition lore_world : World :=
  mkWorld
    (fun path base => Returns (js "https://marvelrivals.fandom.com" ++ path))
    (fun s => Returns s)
    (fun url =>
       if bool_decide (url = wikiUrl "Spider-Man") then Returns (js "page 1")
       else Throws (js "Request failed with status code 404"))
    (fun robotsUrl data => Returns (mkRobots (fun url userAgent => Returns true)))
    (fun data => hero_page)
    None
    (fun rows => false).

Definition lore_services : Services :=
  mkServices lore_world (fun n => Z.of_nat n) (fun item => false) false
             (fun heroId => false).

Definition stored_heroes : list HeroRow :=
  [mkHeroRow (js "hero-1") (js "Spider-Man") (js "https://img.example/spider-man.png")
     (js "duelist") None None;
   mkHeroRow (js "hero-2") (js "Venom") (js "https://img.example/venom.png")
     (js "vanguard") (Some (js "A symbiote.")) None].

(** What the update made for [hero] does to a row of the table. *)
Definition applyLore (s : Services) (row hero : HeroRow) : HeroRow :=
  if bool_decide (h_id row = h_id hero)
  then match loreFor s hero with
       | Some (lore, stats) => withLore row lore stats
       | None => row
       end
  else row.

(** ** Tactics *)

(** Case analysis on every test of the goal. *)
Ltac split_tests :=
  repeat match goal with
         | |- context [if ?b then _ else _] => destruct b eqn:?
         end.

(** Boolean tests on code units, as propositions [lia] understands. *)
Ltac tests_to_props :=
  repeat match goal with
         | H : _ && _ = true |- _ => apply andb_true_iff in H as [? ?]
         | H : _ && _ = false |- _ => apply andb_false_iff in H as [?|?]
         | H : negb _ = true |- _ => apply negb_true_iff in H
         | H : negb _ = false |- _ => apply negb_false_iff in H
         | H : (_ <=? _) = true |- _ => apply N.leb_le in H
         | H : (_ <=? _) = false |- _ => apply N.leb_gt in H
         | H : (_ =? _) = true |- _ => apply N.eqb_eq in H
         | H : (_ =? _) = false |- _ => apply N.eqb_neq in H
         end.

(** * Properties *)

(** ** Strings *)

Lemma nonEmpty_true s : nonEmpty s = true <-> s ≠ [].
Proof. by destruct s. Qed.

Lemma lowerUnit_idem c : lowerUnit (lowerUnit c) = lowerUnit c.
Proof. unfold lowerUnit. split_tests; tests_to_props; first [reflexivity | lia]. Qed.

Lemma lowerUnit_space c : lowerUnit c = SPACE <-> c = SPACE.
Proof.
  unfold lowerUnit, SPACE. split.
  - split_tests; tests_to_props; lia.
  - intros ->. reflexivity.
Qed.

Lemma toLowerCase_cons c w : toLowerCase (c :: w) = lowerUnit c :: toLowerCase w.
Proof. reflexivity. Qed.

Lemma toLowerCase_idem w : toLowerCase (toLowerCase w) = toLowerCase w.
Proof.
  unfold toLowerCase. rewrite <- list_fmap_compose.
  apply list_fmap_ext. intros _ c _. apply lowerUnit_idem.
Qed.

Lemma toLowerCase_no_space w : SPACE ∉ w -> SPACE ∉ toLowerCase w.
Proof.
  unfold toLowerCase. intros Hw (c & Hc & Hin)%list_elem_of_fmap.
  symmetry in Hc. apply lowerUnit_space in Hc as ->. done.
Qed.

Lemma capitalizeWord_cons c w : capitalizeWord (c :: w) = upperUnit c ++ w.
Proof.
  unfold capitalizeWord, charAt0, slice1, toUpperCase. cbn. by rewrite app_nil_r.
Qed.

(** Every Latin-1 code unit other than the space and the sharp s is stable:
    checked on the 256 code units. *)
Lemma stableInitial_latin1 c :
  c < 256 -> c ≠ SHARP_S -> c ≠ SPACE -> stableInitial c = true.
Proof.
  intros Hc Hsharp Hsp.
  assert (Hall : forallb (fun n => (n =? SHARP_S) || (n =? SPACE) || stableInitial n)
                   (N.of_nat <$> seq 0 256) = true) by (vm_compute; reflexivity).
  rewrite forallb_forall in Hall.
  assert (Hin : In c (N.of_nat <$> seq 0 256)).
  { apply list_elem_of_In, list_elem_of_fmap. exists (N.to_nat c).
    split; [lia|]. apply elem_of_seq. lia. }
  apply Hall in Hin. apply orb_true_iff in Hin as [Hin|Hin]; [|done].
  apply orb_true_iff in Hin as [Hin|Hin]; apply N.eqb_eq in Hin; done.
Qed.

(** *** [split] and [join] *)

Lemma split_nonnil sep s : split sep s ≠ [].
Proof.
  destruct s as [|c s]; cbn; [done|].
  destruct (c =? sep); [done|]. by destruct (split sep s).
Qed.

Lemma split_no_sep sep s : Forall (fun w => sep ∉ w) (split sep s).
Proof.
  induction s as [|c s IH]; cbn.
  - constructor; [|done]. apply not_elem_of_nil.
  - destruct (c =? sep) eqn:Hc.
    + constructor; [apply not_elem_of_nil | done].
    + apply N.eqb_neq in Hc. destruct (split sep s) as [|w ws].
      * constructor; [|done]. intros [?|?%not_elem_of_nil]%elem_of_cons; done.
      * apply Forall_cons in IH as [Hw Hws]. constructor; [|done].
        intros [?|?]%elem_of_cons; done.
Qed.

Lemma split_app_sep sep w s :
  sep ∉ w -> split sep (w ++ sep :: s) = w :: split sep s.
Proof.
  induction w as [|c w IH]; intros Hw; cbn.
  - by rewrite N.eqb_refl.
  - apply not_elem_of_cons in Hw as [Hc Hw].
    destruct (c =? sep) eqn:E; [apply N.eqb_eq in E; done|].
    by rewrite IH.
Qed.

Lemma split_single sep w : sep ∉ w -> split sep w = [w].
Proof.
  induction w as [|c w IH]; intros Hw; cbn; [done|].
  apply not_elem_of_cons in Hw as [Hc Hw].
  destruct (c =? sep) eqn:E; [apply N.eqb_eq in E; done|].
  by rewrite IH.
Qed.

Lemma split_join sep ws :
  ws ≠ [] -> Forall (fun w => sep ∉ w) ws -> split sep (join sep ws) = ws.
Proof.
  induction ws as [|w ws IH]; intros Hne Hall; [done|].
  apply Forall_cons in Hall as [Hw Hws].
  destruct ws as [|w' ws].
  - cbn. by apply split_single.
  - cbn [join]. rewrite split_app_sep by done. f_equal. by apply IH.
Qed.

Lemma join_split sep s : join sep (split sep s) = s.
Proof.
  induction s as [|c s IH]; cbn; [done|].
  destruct (c =? sep) eqn:E.
  - apply N.eqb_eq in E as ->. pose proof (split_nonnil sep s).
    destruct (split sep s); [done|]. cbn in *. by rewrite IH.
  - destruct (split sep s) as [|w ws] eqn:Hs; [by destruct (split_nonnil sep s)|].
    rewrite <- IH. by destruct ws.
Qed.

Lemma elem_of_join sep c w ws : (c :: w) ∈ ws -> c ∈ join sep ws.
Proof.
  induction ws as [|w1 ws IH]; [by intros ?%not_elem_of_nil|].
  intros [<-|Hin]%elem_of_cons.
  - destruct ws; cbn; by left.
  - destruct ws as [|w2 ws]; [by apply not_elem_of_nil in Hin|].
    cbn [join]. apply elem_of_app. right. right. by apply IH.
Qed.

Lemma toLowerCase_join ws :
  toLowerCase (join SPACE ws) = join SPACE (toLowerCase <$> ws).
Proof.
  induction ws as [|w ws IH]; [done|].
  destruct ws as [|w' ws]; [done|].
  cbn [join fmap list_fmap] in *. unfold toLowerCase in *.
  by rewrite fmap_app, fmap_cons, IH.
Qed.

Lemma split_toLowerCase text :
  split SPACE (toLowerCase text) = toLowerCase <$> split SPACE text.
Proof.
  induction text as [|c text IH]; [done|].
  rewrite toLowerCase_cons. cbn [split]. rewrite IH.
  destruct (c =? SPACE) eqn:E.
  - apply N.eqb_eq in E as ->. done.
  - assert ((lowerUnit c =? SPACE) = false) as ->.
    { apply N.eqb_neq. rewrite lowerUnit_space. by apply N.eqb_neq. }
    by destruct (split SPACE text).
Qed.

(** *** [capitalizeWords] *)

Lemma capitalizeWord_stable w :
  stableWord w -> SPACE ∉ w ->
  (SPACE ∉ toLowerCase (capitalizeWord (toLowerCase w)))
  /\ (capitalizeWord (toLowerCase (capitalizeWord (toLowerCase w)))
      = capitalizeWord (toLowerCase w)).
Proof.
  destruct w as [|c w]; [intros _ _; split; [apply not_elem_of_nil | done]|].
  intros Hst [Hc Hw]%not_elem_of_cons. cbn in Hst. unfold stableInitial in Hst.
  rewrite toLowerCase_cons, capitalizeWord_cons.
  destruct (upperUnit (lowerUnit c)) as [|u [|? ?]] eqn:Hu; try done.
  apply andb_true_iff in Hst as [Hsp Hback].
  apply negb_true_iff, N.eqb_neq in Hsp. apply bool_decide_eq_true in Hback.
  change ([u] ++ toLowerCase w) with (u :: toLowerCase w).
  rewrite toLowerCase_cons, toLowerCase_idem, capitalizeWord_cons, Hback.
  split; [|done].
  apply not_elem_of_cons. split; [done|]. by apply toLowerCase_no_space.
Qed.

Lemma capitalizeWords_twice text :
  Forall stableWord (split SPACE text) ->
  capitalizeWords (capitalizeWords text) = capitalizeWords text.
Proof.
  intros Hst. unfold capitalizeWords.
  rewrite toLowerCase_join, split_toLowerCase, <- !list_fmap_compose.
  pose proof (split_no_sep SPACE text) as Hsep.
  rewrite split_join.
  - rewrite <- list_fmap_compose. f_equal.
    apply list_eq. intros i. rewrite !list_lookup_fmap.
    destruct (split SPACE text !! i) as [w|] eqn:Hw; [|done]. cbn. f_equal.
    eapply capitalizeWord_stable.
    + eapply (proj1 (Forall_lookup _ _) Hst); done.
    + eapply (proj1 (Forall_lookup _ _) Hsep); done.
  - pose proof (split_nonnil SPACE text). by destruct (split SPACE text).
  - apply Forall_fmap, Forall_lookup. intros i w Hw. cbn.
    eapply capitalizeWord_stable.
    + eapply (proj1 (Forall_lookup _ _) Hst); done.
    + eapply (proj1 (Forall_lookup _ _) Hsep); done.
Qed.

(** C10, as amended. For every string of Basic Latin and Latin-1 characters
    (code units below U+0100) in which no space-separated word begins with the
    sharp s (U+00DF), applying [capitalizeWords] twice gives the same result as
    applying it once. *)
Theorem capitalizeWords_idempotent_latin1 (text : jsstring) :
  Forall (fun c => c < 256) text ->
  Forall (fun w => head w ≠ Some SHARP_S) (split SPACE text) ->
  capitalizeWords (capitalizeWords text) = capitalizeWords text.
Proof.
  intros Hlat Hss. apply capitalizeWords_twice.
  apply Forall_lookup. intros i w Hw.
  destruct w as [|c w]; [done|]. cbn.
  apply stableInitial_latin1.
  - assert (c ∈ text) as Hin.
    { rewrite <- (join_split SPACE text).
      eapply elem_of_join. by eapply list_elem_of_lookup_2. }
    by eapply (proj1 (Forall_forall _ _) Hlat).
  - intros ->. by eapply (proj1 (Forall_lookup _ _) Hss).
  - intros ->. pose proof (split_no_sep SPACE text) as Hsep.
    eapply (proj1 (Forall_lookup _ _) Hsep); [done|]. by left.
Qed.

Lemma capitalizeWords_idempotent_latin1_witness :
  Forall (fun c => c < 256) (js "wEB strike")
  /\ Forall (fun w => head w ≠ Some SHARP_S) (split SPACE (js "wEB strike"))
  /\ capitalizeWords (capitalizeWords (js "wEB strike"))
     = capitalizeWords (js "wEB strike").
Proof.
  assert (H1 : Forall (fun c => c < 256) (js "wEB strike")) by (repeat constructor).
  assert (H2 : Forall (fun w => head w ≠ Some SHARP_S) (split SPACE (js "wEB strike")))
    by (repeat constructor; discriminate).
  split; [exact H1|]. split; [exact H2|].
  exact (capitalizeWords_idempotent_latin1 (js "wEB strike") H1 H2).
Defined.

(** C10 as stated fails: the upper-case form of the sharp s is "SS", which the
    second application turns into "Ss". *)
Lemma capitalizeWords_sharp_s :
  capitalizeWords [SHARP_S] = js "SS"
  /\ capitalizeWords (capitalizeWords [SHARP_S]) = js "Ss"
  /\ capitalizeWords (capitalizeWords [SHARP_S]) ≠ capitalizeWords [SHARP_S].
Proof.
  split; [reflexivity|]. split; [reflexivity|]. vm_compute. discriminate.
Qed.

(** ** Selections *)

Lemma isStrictPrefix_irrefl p : isStrictPrefix p p = false.
Proof.
  unfold isStrictPrefix. rewrite bool_decide_eq_false_2; [done|].
  intros H. by apply H.
Qed.

Lemma removeSubsets_singleton x : removeSubsets [x] = [x].
Proof.
  unfold removeSubsets. rewrite filter_cons_True; [done|].
  cbn. by rewrite isStrictPrefix_irrefl.
Qed.

Lemma find_singleton s x : find s [x] = find1 s x.
Proof.
  unfold find. rewrite removeSubsets_singleton. cbn. by rewrite app_nil_r.
Qed.

(** ** The current format *)

Section CurrentFormat.

Variable heroId : jsstring.

(** *** The body of the loop, case by case *)

Lemma processRow_start st tr :
  isStartRow tr = true ->
  processRow heroId st tr =
    mkState (heap st ++ [∅])
      (Some (mkCurrent (startRowName (cellsOf tr)) (startRowType (cellsOf tr)) []
               (length (heap st))))
      (abilitiesToInsert st
         ++ [mkPushed heroId (startRowName (cellsOf tr)) (startRowType (cellsOf tr)) []
               (length (heap st))]).
Proof. unfold isStartRow, cellsOf, processRow. intros ->. done. Qed.

Lemma processRow_orphan st tr :
  isStartRow tr = false -> currentAbility st = None -> processRow heroId st tr = st.
Proof. unfold isStartRow, cellsOf, processRow. intros -> ->. done. Qed.

Lemma processRow_ignored st tr :
  isStartRow tr = false ->
  isContinuationRow tr && htmlNonEmpty (first (cellsOf tr)) = false ->
  processRow heroId st tr = st.
Proof.
  unfold isStartRow, isContinuationRow, cellsOf, processRow. intros -> H.
  destruct (currentAbility st); [|done].
  destruct (_ && bool_decide _); [|done]. cbn in H. by rewrite H.
Qed.

Lemma foldl_assignStat ref bs h :
  foldl (assignStat ref) h bs = alter (assignAll (omap statOfBold bs)) ref h.
Proof.
  revert h. induction bs as [|b bs IH]; intros h; cbn.
  - symmetry. by apply list_alter_id.
  - rewrite IH. unfold assignStat. destruct (statOfBold b) as [[k v]|]; [|done].
    rewrite list_alter_alter_eq. by apply list_alter_ext.
Qed.

Lemma processRow_continuation st tr cur :
  isStartRow tr = false ->
  isContinuationRow tr && htmlNonEmpty (first (cellsOf tr)) = true ->
  currentAbility st = Some cur ->
  processRow heroId st tr =
    mkState (alter (assignAll (rowStats tr)) (cur_stats cur) (heap st))
      (if nonEmpty (rowDescription tr)
       then Some (mkCurrent (cur_name cur) (cur_type cur) (rowDescription tr) (cur_stats cur))
       else Some cur)
      (if nonEmpty (rowDescription tr)
       then setLastDescription (rowDescription tr) (abilitiesToInsert st)
       else abilitiesToInsert st).
Proof.
  intros Hs Hc Hcur. unfold rowStats, rowDescription. rewrite Hc.
  apply andb_true_iff in Hc as [Hc Hh].
  unfold isStartRow, isContinuationRow, cellsOf, processRow in *.
  rewrite Hs, Hcur, Hc, Hh. rewrite foldl_assignStat.
  destruct (nonEmpty _); cbn; by rewrite <- ?Hcur.
Qed.

Lemma continuation_not_start tr :
  isContinuationRow tr = true -> isStartRow tr = false.
Proof.
  unfold isContinuationRow, isStartRow. intros [H _]%andb_true_iff.
  apply Nat.eqb_eq in H. by rewrite H.
Qed.

Lemma absorb_other a tr :
  isContinuationRow tr && htmlNonEmpty (first (cellsOf tr)) = false -> absorb a tr = a.
Proof.
  intros H. unfold absorb, rowDescription, rowStats. rewrite H. cbn. by destruct a.
Qed.

(** *** The invariant, and the loop as the machine of the specification *)

Lemma StateInv_initial : StateInv initialState.
Proof. split; cbn; [done| |done]. intros i p H. by rewrite lookup_nil in H. Qed.

Lemma StateInv_start st tr :
  StateInv st -> isStartRow tr = true -> StateInv (processRow heroId st tr).
Proof.
  intros [Hlen Hrefs _] Hs. rewrite processRow_start by done.
  split; cbn.
  - rewrite !length_app. cbn. lia.
  - intros i p Hp. apply lookup_snoc_Some in Hp as [[_ Hp]|[Hi <-]]; eauto.
    cbn. lia.
  - rewrite length_app. cbn. lia.
Qed.

Lemma StateInv_continuation st tr cur :
  StateInv st -> isStartRow tr = false ->
  isContinuationRow tr && htmlNonEmpty (first (cellsOf tr)) = true ->
  currentAbility st = Some cur ->
  StateInv (processRow heroId st tr).
Proof.
  intros [Hlen Hrefs Hcur] Hs Hc Hsome.
  rewrite (processRow_continuation _ _ cur) by done.
  rewrite Hsome in Hcur.
  split; cbn.
  - rewrite length_alter. destruct (nonEmpty _); [|done].
    unfold setLastDescription. by rewrite length_alter.
  - intros i p. destruct (nonEmpty _); [|by apply Hrefs].
    unfold setLastDescription. rewrite list_lookup_alter.
    case_decide; [subst i|by apply Hrefs].
    destruct (abilitiesToInsert st !! _) as [q|] eqn:Hq; cbn; [|done].
    intros [= <-]. cbn. by apply Hrefs.
  - rewrite length_alter. by destruct (nonEmpty _).
Qed.

Lemma emitted_start st tr :
  StateInv st -> isStartRow tr = true ->
  emitted (processRow heroId st tr) = emitted st ++ [startAbility heroId tr].
Proof.
  intros [Hlen Hrefs _] Hs. rewrite processRow_start by done.
  unfold emitted. cbn. rewrite fmap_app. f_equal.
  - apply list_eq. intros i. rewrite !list_lookup_fmap.
    destruct (abilitiesToInsert st !! i) as [p|] eqn:Hp; [|done]. cbn. f_equal.
    unfold resolve. rewrite lookup_app_l; [done|].
    rewrite (Hrefs _ _ Hp), Hlen. by eapply lookup_lt_Some.
  - cbn. unfold resolve, startAbility. cbn. by rewrite list_lookup_middle.
Qed.

(** The stats object of the current ability is the one of the last pushed row:
    the aliasing of [currentAbility.stats] with the stats of that row. *)
Lemma emitted_continuation st tr cur :
  StateInv st -> isStartRow tr = false ->
  isContinuationRow tr && htmlNonEmpty (first (cellsOf tr)) = true ->
  currentAbility st = Some cur ->
  emitted (processRow heroId st tr)
  = alter (fun a => absorb a tr) (length (emitted st) - 1)%nat (emitted st).
Proof.
  intros [Hlen Hrefs Hcur] Hs Hc Hsome.
  rewrite (processRow_continuation _ _ cur) by done.
  rewrite Hsome in Hcur. unfold emitted. cbn. rewrite length_fmap.
  assert (Hlast : cur_stats cur = (length (abilitiesToInsert st) - 1)%nat) by lia.
  assert (Hpush : forall i,
             (if nonEmpty (rowDescription tr)
              then setLastDescription (rowDescription tr) (abilitiesToInsert st)
              else abilitiesToInsert st) !! i
             = (fun p => if decide (i = cur_stats cur)
                         then mkPushed (p_hero_id p) (p_name p) (p_type p)
                                (if nonEmpty (rowDescription tr)
                                 then rowDescription tr else p_description p)
                                (p_stats p)
                         else p) <$> abilitiesToInsert st !! i).
  { intros i. destruct (nonEmpty (rowDescription tr)).
    - unfold setLastDescription. rewrite list_lookup_alter, <- Hlast.
      destruct (decide (cur_stats cur = i)) as [->|Hne].
      + by destruct (decide (i = i)).
      + destruct (decide (i = cur_stats cur)); [congruence|]. by destruct (_ !! i).
    - destruct (abilitiesToInsert st !! i) as [p|]; [|done]. cbn.
      case_decide; [|done]. by destruct p. }
  apply list_eq. intros i. rewrite <- Hlast.
  destruct (decide (i = cur_stats cur)) as [->|Hne].
  - rewrite list_lookup_alter_eq, !list_lookup_fmap, Hpush.
    destruct (abilitiesToInsert st !! cur_stats cur) as [p|] eqn:Hp; [|done].
    cbn. rewrite decide_True by done. f_equal.
    unfold resolve, absorb. cbn. rewrite (Hrefs _ _ Hp), list_lookup_alter_eq.
    assert (is_Some (heap st !! cur_stats cur)) as [m Hm].
    { apply lookup_lt_is_Some. lia. }
    rewrite Hm. done.
  - rewrite list_lookup_alter_ne by done. rewrite !list_lookup_fmap, Hpush.
    destruct (abilitiesToInsert st !! i) as [p|] eqn:Hp; [|done].
    cbn. rewrite decide_False by done. f_equal.
    unfold resolve. rewrite (Hrefs _ _ Hp), list_lookup_alter_ne by done. done.
Qed.

Lemma processRow_simulation st tr :
  StateInv st ->
  StateInv (processRow heroId st tr)
  /\ emitted (processRow heroId st tr) = machineStep heroId (emitted st) tr.
Proof.
  intros Hinv. unfold machineStep.
  destruct (isStartRow tr) eqn:Hs.
  { split; [by apply StateInv_start | by apply emitted_start]. }
  destruct (isContinuationRow tr && htmlNonEmpty (first (cellsOf tr))) eqn:Hc.
  - destruct (currentAbility st) as [cur|] eqn:Hcur.
    + split; [by eapply StateInv_continuation | by eapply emitted_continuation].
    + rewrite processRow_orphan by done. split; [done|].
      destruct Hinv as [_ _ H]. rewrite Hcur in H. unfold emitted. by rewrite H.
  - rewrite processRow_ignored by done. split; [done|].
    symmetry. apply list_alter_id. intros a. by apply absorb_other.
Qed.

Lemma processRows_simulation rows st :
  StateInv st ->
  StateInv (foldl (processRow heroId) st rows)
  /\ emitted (foldl (processRow heroId) st rows)
     = foldl (machineStep heroId) (emitted st) rows.
Proof.
  revert st. induction rows as [|tr rows IH]; intros st Hinv; [done|].
  cbn. destruct (processRow_simulation st tr Hinv) as [Hinv' <-].
  by apply IH.
Qed.

(** *** The machine, group by group *)

Lemma machine_open rows out a :
  foldl (machineStep heroId) (out ++ [a]) rows
  = out ++ foldl absorb a (rowsUntilStart rows)
        :: (abilityOfGroup heroId <$> groupRows rows).
Proof.
  revert out a. induction rows as [|tr rows IH]; intros out a; [done|].
  cbn. unfold machineStep at 2. destruct (isStartRow tr) eqn:Hs.
  - rewrite IH. cbn. by rewrite <- app_assoc.
  - rewrite length_app. cbn.
    replace (length out + 1 - 1)%nat with (length out + 0)%nat by lia.
    rewrite alter_app_r. cbn. apply IH.
Qed.

Lemma machine_groups rows :
  foldl (machineStep heroId) [] rows = abilityOfGroup heroId <$> groupRows rows.
Proof.
  induction rows as [|tr rows IH]; [done|].
  cbn. unfold machineStep at 2. destruct (isStartRow tr) eqn:Hs.
  - cbn. apply (machine_open rows []).
  - cbn. apply IH.
Qed.

Lemma extractNewFormatAbilities_groups skillTable :
  extractNewFormatAbilities skillTable heroId
  = abilityOfGroup heroId <$> groupRows (abilityRows skillTable).
Proof.
  unfold extractNewFormatAbilities.
  destruct (processRows_simulation (abilityRows skillTable) initialState StateInv_initial)
    as [_ ->].
  apply machine_groups.
Qed.

Lemma groupRows_starts rows :
  fst <$> groupRows rows = filter (fun r => isStartRow r = true) rows.
Proof.
  induction rows as [|r rows IH]; [done|]. cbn [groupRows].
  destruct (isStartRow r) eqn:Hs.
  - rewrite filter_cons_True by done. cbn. by rewrite IH.
  - rewrite filter_cons_False by (by rewrite Hs). done.
Qed.

Lemma absorb_all_fixed a rows :
  hero_id (foldl absorb a rows) = hero_id a
  /\ name (foldl absorb a rows) = name a
  /\ type (foldl absorb a rows) = type a.
Proof.
  revert a. induction rows as [|r rows IH]; intros a; [done|].
  cbn. destruct (IH (absorb a r)) as (-> & -> & ->). done.
Qed.

Lemma assignAll_app l1 l2 o :
  assignAll (l1 ++ l2) o = assignAll l2 (assignAll l1 o).
Proof. unfold assignAll. by rewrite foldl_app. Qed.

(** Reading the object back: every key other than [__proto__] has the value
    read last for it, or the value it had. *)
Lemma assignAll_lookup pairs o key :
  key ≠ js "__proto__" ->
  assignAll pairs o !! key
  = match lastValue key pairs with
    | Some v => Some v
    | None => o !! key
    end.
Proof.
  intros Hkey. revert o. induction pairs as [|[k v] pairs IH]; intros o; [done|].
  unfold assignAll in *. cbn [foldl lastValue fst snd]. rewrite IH.
  destruct (lastValue key pairs); [done|].
  unfold setProp. destruct (decide (k = key)) as [->|Hne].
  - rewrite (bool_decide_eq_true_2 (key = key)) by done.
    rewrite bool_decide_eq_false_2 by done. by rewrite lookup_insert_eq.
  - rewrite (bool_decide_eq_false_2 (k = key)) by done.
    case_bool_decide; [done|]. by rewrite lookup_insert_ne.
Qed.

Lemma absorb_all_stats a rows :
  stats (foldl absorb a rows) = assignAll (rows ≫= rowStats) (stats a).
Proof.
  revert a. induction rows as [|r rows IH]; intros a; [done|].
  cbn [foldl]. by rewrite IH, bind_cons, assignAll_app.
Qed.

Lemma extractNewFormatAbilities_length skillTable :
  length (extractNewFormatAbilities skillTable heroId)
  = length (filter (fun r => isStartRow r = true) (abilityRows skillTable)).
Proof.
  by rewrite extractNewFormatAbilities_groups, <- groupRows_starts, !length_fmap.
Qed.

Lemma extractNewFormatAbilities_names skillTable :
  (fun a => (name a, type a)) <$> extractNewFormatAbilities skillTable heroId
  = (fun r => (startRowName (cellsOf r), VString (startRowType (cellsOf r))))
      <$> filter (fun r => isStartRow r = true) (abilityRows skillTable).
Proof.
  rewrite extractNewFormatAbilities_groups, <- groupRows_starts.
  rewrite <- !list_fmap_compose.
  apply list_fmap_ext. intros _ [r rs] _. cbn. unfold abilityOfGroup. cbn.
  by destruct (absorb_all_fixed (startAbility heroId r) rs) as (_ & -> & ->).
Qed.

Lemma extractNewFormatAbilities_stats skillTable :
  stats <$> extractNewFormatAbilities skillTable heroId
  = (fun g => assignAll (g.2 ≫= rowStats) ∅) <$> groupRows (abilityRows skillTable).
Proof.
  rewrite extractNewFormatAbilities_groups, <- list_fmap_compose.
  apply list_fmap_ext. intros _ [r rs] _. cbn. unfold abilityOfGroup. cbn.
  by rewrite absorb_all_stats.
Qed.

(** *** The pairs read, and what the stats object keeps of them *)

Lemma startsWith_prefix p s : startsWith p s = bool_decide (p `prefix_of` s).
Proof.
  revert s. induction p as [|a p IH]; intros s.
  - cbn. symmetry. apply bool_decide_eq_true_2, prefix_nil.
  - destruct s as [|b s]; cbn [startsWith].
    + symmetry. apply bool_decide_eq_false_2. intros [k Hk]. discriminate.
    + rewrite IH. destruct (N.eqb_spec a b) as [-> |Hne]; cbn [andb].
      * apply bool_decide_ext. split; [apply prefix_cons | apply prefix_cons_inv_2].
      * symmetry. apply bool_decide_eq_false_2. by intros ?%prefix_cons_inv_1.
Qed.

Lemma cutAtFirst_indexOf sep s :
  cutAtFirst sep s
  = (fun i => (take i s, drop (i + length sep)%nat s)) <$> indexOf sep s.
Proof.
  induction s as [|c s IH]; cbn [cutAtFirst indexOf]; rewrite startsWith_prefix;
    case_bool_decide; try done.
  rewrite IH. by destruct (indexOf sep s).
Qed.

Lemma stripSuffix_withoutEnding ending s : stripSuffix ending s = withoutEnding ending s.
Proof.
  unfold stripSuffix, withoutEnding. rewrite startsWith_prefix.
  assert (bool_decide (reverse ending `prefix_of` reverse s)
          = bool_decide (ending `suffix_of` s)) as ->; [|done].
  apply bool_decide_ext. symmetry. apply suffix_prefix_reverse.
Qed.

Lemma statKey_normalizedLabel s : statKey s = normalizedLabel s.
Proof.
  unfold statKey, normalizedLabel. rewrite stripSuffix_withoutEnding. f_equal.
  unfold replaceSpaces. apply list_fmap_ext. intros _ c _.
  unfold SPACE, UNDERSCORE. destruct (N.eqb_spec c 32) as [-> |Hne].
  - by rewrite bool_decide_eq_true_2.
  - by rewrite bool_decide_eq_false_2.
Qed.

Lemma nonEmpty_both (k v : jsstring) :
  nonEmpty k && nonEmpty v = bool_decide (k ≠ [] /\ v ≠ []).
Proof. destruct k, v; cbn; try done; by rewrite bool_decide_eq_true_2. Qed.

(** The source reads from a bold element the pair the specification
    describes. *)
Lemma statOfBold_pairRead bold : statOfBold bold = pairRead bold.
Proof.
  unfold statOfBold, pairRead, SEPARATOR. rewrite cutAtFirst_indexOf.
  destruct (indexOf (js " - ") _) as [i|]; cbn [fmap option_fmap option_map].
  - rewrite statKey_normalizedLabel, nonEmpty_both. reflexivity.
  - rewrite stripSuffix_withoutEnding, statKey_normalizedLabel.
    cbn [fst snd]. rewrite <- nonEmpty_both.
    destruct (nextSibling bold) as [sib|]; cbn [from_option].
    + destruct (nonEmpty (trim (textContent sib))); [|by rewrite andb_false_r].
      rewrite andb_true_r. by destruct (nonEmpty _).
    + by rewrite andb_false_r.
Qed.

Lemma rowStats_pairsRead tr : rowStats tr = pairsRead tr.
Proof.
  unfold rowStats, pairsRead. destruct (_ && _); [|done].
  induction (find _ _) as [|b bs IH]; [done|].
  cbn [omap list_omap]. by rewrite statOfBold_pairRead, IH.
Qed.

(** Nothing is ever stored under [__proto__]. *)
Lemma assignAll_proto pairs o :
  assignAll pairs o !! js "__proto__" = o !! js "__proto__".
Proof.
  revert o. induction pairs as [|[k v] pairs IH]; intros o; [done|].
  unfold assignAll in *. cbn [foldl fst snd]. rewrite IH.
  unfold setProp. case_bool_decide as Hk; [done|]. by rewrite lookup_insert_ne.
Qed.

Lemma assignAll_valueKept pairs key :
  assignAll pairs ∅ !! key = valueKept key pairs.
Proof.
  unfold valueKept. case_bool_decide as Hkey.
  - subst key. by rewrite assignAll_proto.
  - rewrite assignAll_lookup by done. by destruct (lastValue key pairs).
Qed.

Lemma abilityOfGroup_valueKept g key :
  stats (abilityOfGroup heroId g) !! key = valueKept key (g.2 ≫= pairsRead).
Proof.
  unfold abilityOfGroup. rewrite absorb_all_stats. cbn [stats startAbility].
  rewrite assignAll_valueKept. f_equal.
  induction (g.2) as [|r rs IH]; [done|]. by rewrite !bind_cons, IH, rowStats_pairsRead.
Qed.

Lemma lastValue_elem key pairs v : lastValue key pairs = Some v -> (key, v) ∈ pairs.
Proof.
  induction pairs as [|[k v0] pairs IH]; [done|]. cbn [lastValue].
  destruct (lastValue key pairs) as [v'|].
  - intros [= ->]. right. by apply IH.
  - case_bool_decide as Hk; [|done]. intros [= ->]. subst k. by left.
Qed.

Lemma lastValue_fresh key pairs : key ∉ pairs.*1 -> lastValue key pairs = None.
Proof.
  intros Hkey. destruct (lastValue key pairs) as [v|] eqn:Hv; [|done].
  exfalso. apply Hkey. apply lastValue_elem in Hv.
  apply list_elem_of_fmap. by exists (key, v).
Qed.

Lemma lastValue_distinct key pairs v :
  NoDup pairs.*1 -> (key, v) ∈ pairs -> lastValue key pairs = Some v.
Proof.
  induction pairs as [|[k v0] pairs IH]; [by intros _ ?%not_elem_of_nil|].
  cbn [fmap list_fmap fst lastValue]. intros [Hk Hnd]%NoDup_cons [[= -> ->]|Hin]%elem_of_cons.
  - rewrite lastValue_fresh by done. by rewrite bool_decide_eq_true_2.
  - by rewrite (IH Hnd Hin).
Qed.

(** With distinct keys, none of them [__proto__], what is kept is exactly
    what was read. *)
Lemma valueKept_exactly (m : gmap jsstring jsstring) pairs :
  (forall key, m !! key = valueKept key pairs) ->
  NoDup pairs.*1 -> js "__proto__" ∉ pairs.*1 -> containsExactly m pairs.
Proof.
  intros Hm Hnd Hproto k v. rewrite Hm. unfold valueKept. split.
  - case_bool_decide; [done|]. apply lastValue_elem.
  - intros Hin. rewrite bool_decide_eq_false_2.
    + by apply lastValue_distinct.
    + intros ->. apply Hproto. apply list_elem_of_fmap. by exists (js "__proto__", v).
Qed.

(** C1, as amended. For every skill table handed to the current-format
    strategy: the number of emitted abilities is the number of rows with
    exactly three data cells; the abilities come in row order, each with the
    name and type of its start row; and the stats object of each ability
    holds, under every key, the value of the last pair read with that key
    from the continuation rows between its start row and the next start row,
    and nothing under [__proto__] - of two pairs with the same key only the
    later one is kept. When the keys read are distinct and none of them is
    [__proto__], the stats object contains exactly the pairs read. *)
Theorem extractNewFormatAbilities_rows (skillTable : list located) :
  let rows := abilityRows skillTable in
  let out := extractNewFormatAbilities skillTable heroId in
  length out = length (filter (fun r => isStartRow r = true) rows)
  /\ (fun a => (name a, type a)) <$> out
     = (fun r => (startRowName (cellsOf r), VString (startRowType (cellsOf r))))
         <$> filter (fun r => isStartRow r = true) rows
  /\ Forall2 (fun a g =>
                let pairs := g.2 ≫= pairsRead in
                (forall key, stats a !! key = valueKept key pairs)
                /\ (NoDup pairs.*1 -> js "__proto__" ∉ pairs.*1 ->
                    containsExactly (stats a) pairs))
             out (groupRows rows).
Proof.
  cbv zeta. split; [apply extractNewFormatAbilities_length|].
  split; [apply extractNewFormatAbilities_names|].
  rewrite extractNewFormatAbilities_groups.
  apply Forall2_fmap_l, Forall_Forall2_diag, Forall_forall.
  intros g _.
  assert (Hkept : forall key, stats (abilityOfGroup heroId g) !! key
                              = valueKept key (g.2 ≫= pairsRead))
    by (intros key; apply abilityOfGroup_valueKept).
  split; [exact Hkept | by apply valueKept_exactly].
Qed.

(** *** The two states of the loop *)

Lemma currentAbility_step st tr :
  currentAbility (processRow heroId st tr) = None
  <-> currentAbility st = None /\ isStartRow tr = false.
Proof.
  destruct (isStartRow tr) eqn:Hs.
  { rewrite processRow_start by done. cbn. split; [done | by intros [_ ?]]. }
  destruct (currentAbility st) as [cur|] eqn:Hcur.
  - destruct (isContinuationRow tr && htmlNonEmpty (first (cellsOf tr))) eqn:Hc.
    + rewrite (processRow_continuation _ _ cur) by done. cbn.
      destruct (nonEmpty _); (split; [done | by intros [? _]]).
    + rewrite processRow_ignored by done. rewrite Hcur.
      split; [done | by intros [? _]].
  - rewrite processRow_orphan by done. by rewrite Hcur.
Qed.

Lemma currentAbility_rows rows st :
  currentAbility (foldl (processRow heroId) st rows) = None
  <-> currentAbility st = None /\ Forall (fun r => isStartRow r = false) rows.
Proof.
  revert st. induction rows as [|r rows IH]; intros st; cbn.
  - split; [intros ?; by split | by intros [? _]].
  - rewrite IH, currentAbility_step, Forall_cons. tauto.
Qed.

(** C4. After any rows, a continuation row (one data cell, spanning the three
    columns) changes the last emitted ability only, which is the one started
    most recently: the list keeps its length, every earlier ability is left as
    it was, and the last one absorbs the row. The loop is in the state with no
    active ability exactly when no start row has been seen, and a continuation
    row met in that state leaves the state as it is and the output empty. *)
Theorem continuation_row_updates_last (rows : list located) (tr : located) :
  isContinuationRow tr = true ->
  let st := foldl (processRow heroId) initialState rows in
  let st' := processRow heroId st tr in
  (currentAbility st = None <-> Forall (fun r => isStartRow r = false) rows)
  /\ (currentAbility st = None -> st' = st /\ emitted st' = [])
  /\ length (emitted st') = length (emitted st)
  /\ (forall i, (S i < length (emitted st))%nat -> emitted st' !! i = emitted st !! i)
  /\ last (emitted st') = (fun a => absorb a tr) <$> last (emitted st).
Proof.
  intros Hc. cbv zeta.
  pose proof (continuation_not_start _ Hc) as Hs.
  destruct (processRows_simulation rows initialState StateInv_initial) as [Hinv _].
  destruct (processRow_simulation _ tr Hinv) as [_ Hstep].
  set (st := foldl (processRow heroId) initialState rows) in *.
  unfold machineStep in Hstep. rewrite Hs in Hstep.
  split; [|split; [|split; [|split]]].
  - unfold st. rewrite currentAbility_rows. cbn. tauto.
  - intros Hnone. rewrite processRow_orphan by done. split; [done|].
    destruct Hinv as [_ _ H]. rewrite Hnone in H. unfold emitted. by rewrite H.
  - by rewrite Hstep, length_alter.
  - intros i Hi. rewrite Hstep. apply list_lookup_alter_ne. lia.
  - rewrite Hstep, !last_lookup, length_alter.
    replace (pred (length (emitted st))) with (length (emitted st) - 1)%nat by lia.
    apply list_lookup_alter_eq.
Qed.

(** *** Start rows *)

Lemma startRowType_cases tds :
  let typeImg := find (only (tagSel "img")) (first tds) in
  (typeImg ≠ [] -> imageLabel typeImg = Some (js "Left mouse button") ->
     startRowType tds = LEFT_MOUSE_BUTTON)
  /\ (typeImg ≠ [] -> imageLabel typeImg = Some (js "Right mouse button") ->
      startRowType tds = RIGHT_MOUSE_BUTTON)
  /\ (typeImg = [] -> startRowType tds = toUpperCase (trim (text (first tds)))).
Proof.
  cbv zeta. unfold startRowType, imageLabel.
  destruct (find (only (tagSel "img")) (first tds)) as [|img imgs] eqn:Himg.
  - split; [done|]. split; done.
  - cbn [length Nat.ltb Nat.leb].
    split; [|split]; [| |done].
    + intros _ ->. done.
    + intros _ ->. done.
Qed.

(** C5, as amended. For every start row of the skill table, the ability
    emitted for it has, as its name, the text of the last cell, trimmed, with
    the first letter of each space-separated word in upper case and the rest
    in lower case; its type is "Left Mouse Button" (or "Right Mouse Button")
    when the first cell contains an image and the label of the first image -
    its title, or its alt text when the title is missing or empty - is "Left
    mouse button" (or "Right mouse button"); and when the first cell contains
    no image, its type is the text of the first cell, trimmed and in upper
    case. *)
Theorem start_row_type_and_name (skillTable : list located) (k : nat)
  (tr : located) :
  filter (fun r => isStartRow r = true) (abilityRows skillTable) !! k = Some tr ->
  let tds := cellsOf tr in
  let typeImg := find (only (tagSel "img")) (first tds) in
  exists a, extractNewFormatAbilities skillTable heroId !! k = Some a
    /\ name a = capitalizeWords (trim (text (last_ tds)))
    /\ (typeImg ≠ [] -> imageLabel typeImg = Some (js "Left mouse button") ->
          type a = VString (js "Left Mouse Button"))
    /\ (typeImg ≠ [] -> imageLabel typeImg = Some (js "Right mouse button") ->
          type a = VString (js "Right Mouse Button"))
    /\ (typeImg = [] -> type a = VString (toUpperCase (trim (text (first tds))))).
Proof.
  intros Hk. cbv zeta.
  pose proof (extractNewFormatAbilities_length skillTable) as Hlen.
  pose proof (extractNewFormatAbilities_names skillTable) as Hnt.
  assert (is_Some (extractNewFormatAbilities skillTable heroId !! k)) as [a Ha].
  { apply lookup_lt_is_Some. rewrite Hlen. by eapply lookup_lt_Some. }
  exists a. split; [done|].
  apply (f_equal (fun l => l !! k)) in Hnt.
  rewrite !list_lookup_fmap, Ha, Hk in Hnt. cbn in Hnt.
  injection Hnt as Hn Ht. rewrite Hn, Ht.
  split; [done|].
  destruct (startRowType_cases (cellsOf tr)) as (H1 & H2 & H3).
  split; [|split].
  - intros ? ?. f_equal. by apply H1.
  - intros ? ?. f_equal. by apply H2.
  - intros ?. f_equal. by apply H3.
Qed.

End CurrentFormat.

(** *** Examples *)

Example web_page_rows :
  abilityRows (skillTableOf web_page) = [web_start_row; web_continuation_row].
Proof. reflexivity. Qed.

(** The end-to-end example of section 8 of the specification. *)
Example web_page_abilities : extractAbilities web_page (js "hero-1") = [web_strike].
Proof. vm_compute. reflexivity. Qed.

(** A continuation row before any start row is ignored. *)
Example orphan_row_ignored :
  extractAbilities (skillTablePage [web_continuation; web_start]) (js "hero-1")
  = [mkAbility (js "hero-1") (js "Web Strike") (VString (js "Left Mouse Button")) [] ∅].
Proof. vm_compute. reflexivity. Qed.

Lemma continuation_row_updates_last_witness :
  isContinuationRow web_continuation_row = true
  /\ last (emitted (processRow (js "hero-1")
                      (foldl (processRow (js "hero-1")) initialState [web_start_row])
                      web_continuation_row))
     = (fun a => absorb a web_continuation_row)
         <$> last (emitted (foldl (processRow (js "hero-1")) initialState [web_start_row])).
Proof.
  assert (H : isContinuationRow web_continuation_row = true) by reflexivity.
  split; [exact H|].
  exact (proj2 (proj2 (proj2 (proj2
           (continuation_row_updates_last (js "hero-1") [web_start_row]
              web_continuation_row H))))).
Defined.

Lemma start_row_type_and_name_witness :
  filter (fun r => isStartRow r = true) (abilityRows (skillTableOf web_page)) !! 0%nat
  = Some web_start_row
  /\ exists a, extractNewFormatAbilities (skillTableOf web_page) (js "hero-1") !! 0%nat = Some a
       /\ name a = capitalizeWords (trim (text (last_ (cellsOf web_start_row)))).
Proof.
  assert (H : filter (fun r => isStartRow r = true)
                (abilityRows (skillTableOf web_page)) !! 0%nat = Some web_start_row)
    by reflexivity.
  split; [exact H|].
  destruct (start_row_type_and_name (js "hero-1") (skillTableOf web_page) 0 web_start_row H)
    as (a & Ha & Hn & _).
  exists a. split; [exact Ha | exact Hn].
Defined.

(** C5 as stated fails: the first cell of the start row of [key_page] holds an
    image whose label names no mouse button. The claim gives the ability the
    type "E", the text of the cell; the source gives it the empty string. *)
Lemma start_row_unlabelled_image :
  let rows := filter (fun r => isStartRow r = true) (abilityRows (skillTableOf key_page)) in
  (fun tr => imageLabel (find (only (tagSel "img")) (first (cellsOf tr)))) <$> rows
  = [Some (js "E key")]
  /\ (fun tr => toUpperCase (trim (text (first (cellsOf tr))))) <$> rows = [js "E"]
  /\ type <$> extractNewFormatAbilities (skillTableOf key_page) (js "hero-1")
     = [VString []].
Proof. cbv zeta. split; [|split]; vm_compute; reflexivity. Qed.

(** C1 as stated fails: the continuation row of [shadow_page] gives the key
    "damage" twice and the key [__proto__] once. Three pairs are read; the
    stats object holds one, the later of the two with the same key, so it
    does not contain exactly the pairs read. *)
Lemma repeated_key_keeps_last :
  let groups := groupRows (abilityRows (skillTableOf shadow_page)) in
  let out := extractNewFormatAbilities (skillTableOf shadow_page) (js "hero-1") in
  (fun g => g.2 ≫= pairsRead) <$> groups
  = [[(js "__proto__", js "x"); (js "damage", js "40"); (js "damage", js "55")]]
  /\ stats <$> out = [{[ js "damage" := js "55" ]}]
  /\ ~ Forall2 (fun a g => containsExactly (stats a) (g.2 ≫= pairsRead)) out groups.
Proof.
  cbv zeta.
  assert (H1 : (fun g => g.2 ≫= pairsRead)
                 <$> groupRows (abilityRows (skillTableOf shadow_page))
               = [[(js "__proto__", js "x"); (js "damage", js "40");
                   (js "damage", js "55")]]) by (vm_compute; reflexivity).
  assert (H2 : stats <$> extractNewFormatAbilities (skillTableOf shadow_page) (js "hero-1")
               = [{[ js "damage" := js "55" ]}]) by (vm_compute; reflexivity).
  split; [exact H1|]. split; [exact H2|].
  intros Hall.
  apply (Forall2_fmap_2 stats (fun g => g.2 ≫= pairsRead)
           (fun m pairs => containsExactly m pairs)) in Hall.
  rewrite H1, H2 in Hall. apply Forall2_cons_1 in Hall as [Hex _].
  assert (Hin : (js "damage", js "40")
                ∈ [(js "__proto__", js "x"); (js "damage", js "40");
                   (js "damage", js "55")]) by (right; left).
  apply Hex in Hin. rewrite lookup_singleton_eq in Hin. discriminate.
Qed.

(** ** Both strategies *)

(** C9, as amended. For every page and either strategy, every start row of the
    skill table (current format) and every info panel (legacy format) yields
    exactly one ability of the emitted list, with the name and the type
    computed from it, empty or not: no ability is dropped. *)
Theorem extractAbilities_drops_nothing (doc : list node) (heroId : jsstring) :
  extractAbilities doc heroId
  = (if (0 <? length (skillTableOf doc))%nat
     then abilityOfGroup heroId <$> groupRows (abilityRows (skillTableOf doc))
     else legacyAbility heroId <$> legacyAsides doc)
  /\ length (extractAbilities doc heroId)
     = (if (0 <? length (skillTableOf doc))%nat
        then length (filter (fun r => isStartRow r = true)
                       (abilityRows (skillTableOf doc)))
        else length (legacyAsides doc)).
Proof.
  unfold extractAbilities. destruct (0 <? _)%nat.
  - split; [apply extractNewFormatAbilities_groups
           | apply extractNewFormatAbilities_length].
  - split; [done|]. unfold extractLegacyAbilities. by rewrite length_fmap.
Qed.

(** C9 as stated fails, in both strategies: a start row with empty cells, and
    a panel with no title and no key binding, are emitted with an empty name
    and an empty type. *)
Lemma empty_fields_are_emitted :
  extractAbilities blank_page (js "hero-1")
  = [mkAbility (js "hero-1") [] (VString []) [] ∅]
  /\ extractAbilities blank_legacy_page (js "hero-1")
     = [mkAbility (js "hero-1") [] (VString []) [] ∅].
Proof. split; vm_compute; reflexivity. Qed.

(** ** The legacy type mapping *)

Lemma mapAbilityType_table :
  mapAbilityType (js "Primary 1") = VString (js "Left Mouse Button")
  /\ mapAbilityType (js "Primary 2") = VString (js "Right Mouse Button")
  /\ mapAbilityType (js "Primary") = VString (js "Left Mouse Button")
  /\ mapAbilityType (js "Q") = VString (js "Q")
  /\ mapAbilityType (js "E") = VString (js "E")
  /\ mapAbilityType (js "F") = VString (js "F")
  /\ mapAbilityType (js "Passive") = VString (js "Passive")
  /\ mapAbilityType (js "Left Shift") = VString (js "Left Shift").
Proof. repeat split; vm_compute; reflexivity. Qed.

(** A token that is no entry of the table and no member of [Object.prototype]
    passes through unchanged. *)
Lemma mapAbilityType_passes rawType :
  typeMap !! rawType = None -> rawType ∉ Object_prototype_keys ->
  mapAbilityType rawType = VString rawType.
Proof.
  intros Hown Hproto. unfold mapAbilityType, getProp. rewrite Hown.
  by rewrite bool_decide_eq_false_2.
Qed.

(** C6, at the input where the source departs from it. The token
    "constructor" is no entry of the lookup table, yet [mapAbilityType] does
    not return it unchanged: [typeMap[rawType]] finds the member that every
    object literal inherits from [Object.prototype], which is truthy, and
    returns that function instead of a string. *)
Theorem mapAbilityType_inherited_member :
  typeMap !! js "constructor" = None
  /\ mapAbilityType (js "constructor") = VInherited (js "constructor")
  /\ mapAbilityType (js "constructor") ≠ VString (js "constructor").
Proof.
  split; [vm_compute; reflexivity|]. split; [vm_compute; reflexivity|].
  vm_compute. discriminate.
Qed.

(** ** Difficulty *)

Lemma altOf_star img : altOf img = STAR_FULL <-> attr "alt" [img] = Some STAR_FULL.
Proof.
  unfold altOf. destruct (attr "alt" [img]) as [[|c s]|]; cbn.
  - split; intros H; [|injection H as H]; vm_compute in H; discriminate.
  - split; [by intros -> | intros H; by apply (inj Some)].
  - split; intros H; [vm_compute in H|]; discriminate.
Qed.

Lemma countFullStars_filter imgs :
  countFullStars imgs
  = length (filter (fun img => attr "alt" [img] = Some STAR_FULL) imgs).
Proof.
  unfold countFullStars.
  enough (forall n,
             foldl (fun difficulty img =>
                      if bool_decide (altOf img = STAR_FULL) then S difficulty
                      else difficulty) n imgs
             = (n + length (filter (fun img => attr "alt" [img] = Some STAR_FULL) imgs))%nat)
    as H by apply H.
  induction imgs as [|img imgs IH]; intros n; cbn [foldl].
  - cbn. lia.
  - rewrite IH. case_bool_decide as Hd.
    + rewrite filter_cons_True by (by apply altOf_star). cbn. lia.
    + rewrite filter_cons_False; [done|]. by rewrite <- altOf_star.
Qed.

(** C7. For every page, [extractDifficulty] returns the number of images
    below the difficulty panel whose alt text is exactly "StarFull" when that
    number lies between 1 and 5, and null otherwise; it never returns a number
    outside that range, and a number outside it is not clamped but given
    up. *)
Theorem extractDifficulty_star_count (doc : list node) :
  let stars :=
    length (filter (fun img => attr "alt" [img] = Some STAR_FULL) (starImages doc)) in
  extractDifficulty doc
  = (if (1 <=? stars)%nat && (stars <=? 5)%nat then Some stars else None)
  /\ forall d, extractDifficulty doc = Some d -> (1 <= d <= 5)%nat.
Proof.
  intros stars. subst stars. unfold extractDifficulty, starImages.
  set (panel := select (only (dataSource (tagSel "div") "difficulty")) doc).
  rewrite <- countFullStars_filter.
  destruct panel as [|p ps] eqn:Hp.
  { split; [reflexivity|]. intros d. cbn. done. }
  rewrite <- Hp.
  set (n := countFullStars _).
  assert (Hn : (if (n <? 1)%nat || (5 <? n)%nat then None else Some n)
               = (if (1 <=? n)%nat && (n <=? 5)%nat then Some n else None)).
  { destruct (Nat.ltb_spec n 1), (Nat.ltb_spec 5 n), (Nat.leb_spec 1 n),
      (Nat.leb_spec n 5); cbn; try done; lia. }
  assert ((length panel =? 0)%nat = false) as ->.
  { rewrite Hp. done. }
  split; [done|].
  intros d. rewrite Hn.
  destruct (Nat.leb_spec 1 n), (Nat.leb_spec n 5); cbv [andb]; try done.
  intros [= <-]. lia.
Qed.

(** The end-to-end example of section 8: four full stars and an empty one. *)
Example stars_page_difficulty : extractDifficulty stars_page = Some 4%nat.
Proof. reflexivity. Qed.

Lemma extractDifficulty_star_count_witness :
  extractDifficulty stars_page = Some 4%nat /\ (1 <= 4 <= 5)%nat.
Proof.
  assert (H : extractDifficulty stars_page = Some 4%nat) by reflexivity.
  split; [exact H|].
  exact (proj2 (extractDifficulty_star_count stars_page) 4%nat H).
Defined.

(** ** Lore *)

Lemma trimStart_keeps c s : isWhiteSpace c = false -> trimStart (c :: s) = c :: s.
Proof. intros H. cbn. by rewrite H. Qed.

Lemma trimStart_drops c s : isWhiteSpace c = true -> trimStart (c :: s) = trimStart s.
Proof. intros H. cbn. by rewrite H. Qed.

Lemma trimStart_head s c r : trimStart s = c :: r -> isWhiteSpace c = false.
Proof.
  induction s as [|x s IH]; cbn; [done|].
  destruct (isWhiteSpace x) eqn:Hx; [done|]. by intros [= <- _].
Qed.

Lemma trimStart_suffix s : exists pre, s = pre ++ trimStart s.
Proof.
  induction s as [|x s [pre IH]]; cbn; [by exists []|].
  destruct (isWhiteSpace x).
  - exists (x :: pre). cbn. by rewrite <- IH.
  - by exists [].
Qed.

Lemma trimStart_last s : trimStart s ≠ [] -> last (trimStart s) = last s.
Proof.
  intros Hne. destruct (trimStart_suffix s) as [pre Hs].
  rewrite Hs at 2. rewrite last_app.
  destruct (last (trimStart s)) eqn:Hl; [done|].
  by apply last_None in Hl.
Qed.

(** What [trim] returns is empty or bounded. *)
Lemma trim_bounded s : trim s ≠ [] -> bounded (trim s).
Proof.
  unfold trim, trimEnd. set (t := trimStart s).
  set (u := trimStart (reverse t)). intros Hne.
  assert (Hu : u ≠ []) by (intros E; rewrite E in Hne; done).
  split.
  - rewrite head_reverse. unfold u. rewrite trimStart_last by done.
    rewrite last_reverse.
    destruct t as [|c r] eqn:Ht.
    { exfalso. apply Hu. done. }
    exists c. split; [done|]. by eapply trimStart_head.
  - rewrite last_reverse. destruct u as [|d r] eqn:Hd; [done|].
    exists d. split; [done|]. by eapply trimStart_head.
Qed.

Lemma trim_newlines s : bounded s -> trim (s ++ NEWLINES) = s.
Proof.
  intros [(c & Hc & Hcw) (d & Hd & Hdw)].
  unfold trim, trimEnd.
  apply head_Some in Hc as [r ->]. cbn [app]. rewrite trimStart_keeps by done.
  apply last_Some in Hd as [l Hl].
  change (c :: r ++ NEWLINES) with ((c :: r) ++ NEWLINES).
  rewrite Hl, reverse_app, reverse_snoc.
  change (reverse NEWLINES) with [10; 10]. cbn [app].
  rewrite !trimStart_drops by done. rewrite trimStart_keeps by done.
  by rewrite <- (reverse_snoc l d), reverse_involutive.
Qed.

Lemma bounded_app s m t : bounded s -> bounded t -> bounded (s ++ m ++ t).
Proof.
  intros [(c & Hc & Hcw) _] [_ (d & Hd & Hdw)]. split.
  - exists c. split; [|done]. apply head_Some in Hc as [r ->]. done.
  - exists d. split; [|done]. apply last_Some in Hd as [l ->].
    by rewrite !app_assoc, last_snoc.
Qed.

Lemma joinBlank_bounded ps :
  ps ≠ [] -> Forall bounded ps -> bounded (joinBlank ps).
Proof.
  induction ps as [|p ps IH]; [done|]. intros _ [Hp Hps]%Forall_cons.
  destruct ps as [|q ps]; [done|].
  cbn [joinBlank]. apply bounded_app; [done|]. by apply IH.
Qed.

(** What the loop over the paragraphs leaves in [loreContent]. *)
Lemma foldl_appendParagraph ps acc :
  foldl appendParagraph acc ps
  = acc ++ (filter (fun t => nonEmpty t = true) ((fun p => trim (text [p])) <$> ps)
              ≫= fun t => t ++ NEWLINES).
Proof.
  revert acc. induction ps as [|p ps IH]; intros acc; cbn [foldl fmap list_fmap].
  - by rewrite app_nil_r.
  - rewrite IH. unfold appendParagraph.
    destruct (nonEmpty (trim (text [p]))) eqn:Hp.
    + rewrite filter_cons_True by done. rewrite bind_cons. by rewrite <- !app_assoc.
    + rewrite filter_cons_False by (by rewrite Hp). done.
Qed.

Lemma concat_newlines ps :
  ps ≠ [] -> (ps ≫= fun t => t ++ NEWLINES) = joinBlank ps ++ NEWLINES.
Proof.
  induction ps as [|p ps IH]; [done|]. intros _.
  destruct ps as [|q ps].
  - cbn. by rewrite app_nil_r.
  - rewrite bind_cons, IH by done. cbn [joinBlank]. by rewrite <- !app_assoc.
Qed.

Lemma trim_paragraphs ps :
  Forall bounded ps -> trim (ps ≫= fun t => t ++ NEWLINES) = joinBlank ps.
Proof.
  intros Hps. destruct ps as [|p ps]; [done|].
  rewrite concat_newlines by done. apply trim_newlines.
  by apply joinBlank_bounded.
Qed.

Lemma eachBlockquote_first blocks :
  eachBlockquote blocks
  = match filter (fun b => endsWithMarker b = true) blocks with
    | [] => ([], false)
    | b :: _ => (foldl appendParagraph [] (sliceInit (paragraphs b)), true)
    end.
Proof.
  induction blocks as [|b blocks IH]; [done|].
  cbn [eachBlockquote]. fold (paragraphs b).
  destruct (bool_decide (trim (text (last_ (paragraphs b))) = BIOGRAPHY)) eqn:Hb.
  - rewrite filter_cons_True by done. done.
  - rewrite filter_cons_False; [done|]. unfold endsWithMarker. by rewrite Hb.
Qed.

Lemma lore_of_block b :
  trim (foldl appendParagraph [] (sliceInit (paragraphs b))) = loreOfBlock b.
Proof.
  rewrite foldl_appendParagraph. cbn [app]. unfold loreOfBlock, precedingTexts.
  apply trim_paragraphs.
  apply Forall_forall. intros t [Ht Hin]%list_elem_of_filter.
  apply list_elem_of_fmap in Hin as (p & -> & _).
  apply trim_bounded. by apply nonEmpty_true.
Qed.

(** C8, as amended. For every page, [getHeroLoreSection] considers the
    quotation blocks whose id and class attributes are absent or empty, takes
    the first of them whose last paragraph has, once trimmed, exactly the text
    of the marker, and returns the trimmed texts of the paragraphs before it
    that are not empty, joined by blank lines; it returns null when there is
    no such block or when that text is empty. *)
Theorem getHeroLoreSection_paragraphs (doc : list node) :
  getHeroLoreSection doc
  = match filter (fun b => endsWithMarker b = true) (loreBlockquotes doc) with
    | [] => None
    | b :: _ => if nonEmpty (loreOfBlock b) then Some (loreOfBlock b) else None
    end.
Proof.
  unfold getHeroLoreSection.
  destruct (loreBlockquotes doc) as [|b0 blocks] eqn:Hblocks; [done|].
  cbn [length Nat.eqb]. rewrite eachBlockquote_first.
  destruct (filter _ (b0 :: blocks)) as [|b rest]; [done|].
  cbn [negb]. by rewrite lore_of_block.
Qed.

(** The end-to-end example of section 8: two paragraphs before the marker, in
    a block with no id and no class, after a block that has a class. *)
Example lore_page_section :
  getHeroLoreSection lore_page
  = Some (js "Bitten by a spider." ++ NEWLINES ++ js "He swings.").
Proof. vm_compute. reflexivity. Qed.

(** C8 as stated fails: with an empty paragraph between two others, the
    concatenation of the trimmed texts separated by blank lines has two blank
    lines in the middle; the source leaves the empty paragraph out. *)
Lemma lore_skips_empty_paragraph :
  loreAsSpecified gap_page
  = Some (js "One." ++ NEWLINES ++ NEWLINES ++ js "Two.")
  /\ getHeroLoreSection gap_page = Some (js "One." ++ NEWLINES ++ js "Two.")
  /\ getHeroLoreSection gap_page ≠ loreAsSpecified gap_page.
Proof.
  split; [vm_compute; reflexivity|]. split; [vm_compute; reflexivity|].
  vm_compute. discriminate.
Qed.

(** ** The fetch-permission check *)

(** C3. For every world, URL and agent: when the retrieval of the crawl policy
    throws - at the construction of its URL, at the request, in the parser or
    in the evaluation - [canScrape] returns true; it never throws itself; and
    it returns false only when the policy was fetched and parsed and disallows
    the URL for the agent. *)
Theorem canScrape_fails_open (w : World) (url userAgent : jsstring) :
  (forall message, policyVerdict w url userAgent = Throws message ->
     canScrape w url userAgent = Returns true)
  /\ (forall message, canScrape w url userAgent ≠ Throws message)
  /\ (canScrape w url userAgent = Returns false ->
      exists robotsUrl data robots,
        newURL w (js "/robots.txt") url = Returns robotsUrl
        /\ axiosGet w robotsUrl = Returns data
        /\ robotsParser w robotsUrl data = Returns robots
        /\ isAllowed robots url userAgent = Returns false).
Proof.
  unfold canScrape, policyVerdict, tryCatch.
  split; [|split].
  - by intros message ->.
  - intros message. by destruct (bindOutcome _ _).
  - destruct (newURL w (js "/robots.txt") url) as [robotsUrl|] eqn:H1; cbn; [|done].
    destruct (axiosGet w robotsUrl) as [data|] eqn:H2; cbn; [|done].
    destruct (robotsParser w robotsUrl data) as [robots|] eqn:H3; cbn; [|done].
    destruct (isAllowed robots url userAgent) as [b|] eqn:H4; [|done].
    intros [= ->]. by exists robotsUrl, data, robots.
Qed.

Lemma canScrape_fails_open_witness :
  policyVerdict offline (wikiUrl "Venom") (js "*")
  = Throws (js "getaddrinfo ENOTFOUND marvelrivals.fandom.com")
  /\ canScrape offline (wikiUrl "Venom") (js "*") = Returns true.
Proof.
  assert (H : policyVerdict offline (wikiUrl "Venom") (js "*")
              = Throws (js "getaddrinfo ENOTFOUND marvelrivals.fandom.com"))
    by reflexivity.
  split; [exact H|].
  exact (proj1 (canScrape_fails_open offline (wikiUrl "Venom") (js "*")) _ H).
Defined.

(** ** The ability pass and the store *)

Lemma conflictKey_name r : conflictKey (js "name") r = [CellText (name r)].
Proof. reflexivity. Qed.

Lemma conflictKey_name_eq r1 r2 :
  conflictKey (js "name") r1 = conflictKey (js "name") r2 <-> name r1 = name r2.
Proof. rewrite !conflictKey_name. split; [by intros [= ->] | by intros ->]. Qed.

(** After the upsert of one row keyed on the name, the table holds that row
    and the rows it held under other names. *)
Lemma upsertRow_name_elem table r x :
  x ∈ upsertRow (js "name") table r
  <-> x = r \/ (x ∈ table /\ name x ≠ name r).
Proof.
  unfold upsertRow.
  destruct (existsb _ table) eqn:Hex.
  - apply existsb_exists in Hex as (old & Hold & Hkey).
    apply bool_decide_eq_true, conflictKey_name_eq in Hkey.
    apply list_elem_of_In in Hold.
    rewrite list_elem_of_fmap. split.
    + intros (y & -> & Hy). case_bool_decide as Hd; [by left|].
      right. split; [done|]. by rewrite conflictKey_name_eq in Hd.
    + intros [-> |[Hx Hne]].
      * exists old. split; [|done].
        by rewrite bool_decide_eq_true_2 by (by apply conflictKey_name_eq).
      * exists x. split; [|done].
        by rewrite bool_decide_eq_false_2 by (by rewrite conflictKey_name_eq).
  - rewrite elem_of_app, list_elem_of_singleton. split.
    + intros [Hx| ->]; [|by left]. right. split; [done|].
      intros Hn. apply not_true_iff_false in Hex. apply Hex.
      apply existsb_exists. exists x. split; [by apply list_elem_of_In|].
      by apply bool_decide_eq_true, conflictKey_name_eq.
    + intros [-> |[Hx _]]; [by right | by left].
Qed.

Lemma upsertRows_name_elem rows table x :
  x ∈ upsertRows (js "name") rows table ->
  x ∈ rows \/ (x ∈ table /\ forall r, r ∈ rows -> name r ≠ name x).
Proof.
  unfold upsertRows. revert table.
  induction rows as [|r rows IH]; intros table; cbn [foldl].
  - intros Hx. right. split; [done|]. by intros r ?%not_elem_of_nil.
  - intros [Hx|[Hx Hall]]%IH.
    + left. by right.
    + apply upsertRow_name_elem in Hx as [-> |[Hx Hne]]; [left; by left|].
      right. split; [done|]. intros r' [-> |Hr']%elem_of_cons; [done|]. by apply Hall.
Qed.

Lemma upsertRows_name_kept rows table n :
  (exists x, x ∈ table /\ name x = n) ->
  exists x, x ∈ upsertRows (js "name") rows table /\ name x = n.
Proof.
  unfold upsertRows. revert table.
  induction rows as [|r rows IH]; intros table; cbn [foldl]; [done|].
  intros (x & Hx & Hn). apply IH.
  destruct (decide (name x = name r)) as [Heq|Hne].
  - exists r. split; [|congruence]. apply upsertRow_name_elem. by left.
  - exists x. split; [|done]. apply upsertRow_name_elem. by right.
Qed.

Lemma upsertRows_name_stored rows table r :
  r ∈ rows -> exists x, x ∈ upsertRows (js "name") rows table /\ name x = name r.
Proof.
  unfold upsertRows. revert table.
  induction rows as [|r' rows IH]; intros table; [by intros ?%not_elem_of_nil|].
  cbn [foldl]. intros [-> |Hr]%elem_of_cons; [|by apply IH].
  apply upsertRows_name_kept. exists r'. split; [|done].
  apply upsertRow_name_elem. by left.
Qed.

(** C2, as amended. In every run of the ability pass, the abilities extracted
    for a hero - when the page is allowed and fetched, some ability is
    extracted and the store accepts the write - are upserted with the name
    alone as conflict identity: afterwards the table holds a row under the
    name of each extracted ability, and a row it held before survives only if
    no extracted ability has its name, whichever hero it belongs to. *)
Theorem abilities_upserted_by_name (w : World) (table : list Ability)
  (hero : Hero) (heroUrl heroPageData : jsstring) :
  canScrape w heroUrl (js "*") = Returns true ->
  axiosGet w heroUrl = Returns heroPageData ->
  let rows := extractAbilities (cheerioLoad w heroPageData) (id hero) in
  rows ≠ [] ->
  storeRejects w rows = false ->
  let table' := scrapeHero w table hero heroUrl in
  table' = upsertRows (js "name") rows table
  /\ (forall r, r ∈ rows -> exists x, x ∈ table' /\ name x = name r)
  /\ (forall x, x ∈ table' ->
        x ∈ rows \/ (x ∈ table /\ forall r, r ∈ rows -> name r ≠ name x)).
Proof.
  intros Hcan Hget rows Hne Hok table'.
  assert (Ht : table' = upsertRows (js "name") rows table).
  { unfold table', scrapeHero, upsert. rewrite Hcan, Hget. fold rows.
    destruct rows; [done|]. cbn [length Nat.eqb]. by rewrite Hok. }
  split; [done|]. rewrite Ht. split.
  - intros r Hr. by apply upsertRows_name_stored.
  - intros x Hx. by apply upsertRows_name_elem.
Qed.

Lemma abilities_upserted_by_name_witness :
  scrapeHero two_heroes [web_strike] (mkHero (js "hero-2") (js "Venom")) (wikiUrl "Venom")
  = upsertRows (js "name")
      (extractAbilities (cheerioLoad two_heroes (js "page 2")) (js "hero-2"))
      [web_strike].
Proof.
  assert (H1 : canScrape two_heroes (wikiUrl "Venom") (js "*") = Returns true)
    by reflexivity.
  assert (H2 : axiosGet two_heroes (wikiUrl "Venom") = Returns (js "page 2"))
    by reflexivity.
  assert (H3 : extractAbilities (cheerioLoad two_heroes (js "page 2")) (js "hero-2") ≠ [])
    by (vm_compute; discriminate).
  assert (H4 : storeRejects two_heroes
                 (extractAbilities (cheerioLoad two_heroes (js "page 2")) (js "hero-2"))
               = false) by reflexivity.
  exact (proj1 (abilities_upserted_by_name two_heroes [web_strike]
                  (mkHero (js "hero-2") (js "Venom")) (wikiUrl "Venom") (js "page 2")
                  H1 H2 H3 H4)).
Defined.

(** C2 as stated fails: two heroes each have an ability named "Web Strike".
    With the conflict identity (hero, name) both rows would be stored; the pass
    upserts on the name alone, so the row of the second hero replaces the row
    of the first. *)
Lemma same_name_overwrites :
  extractAbilities web_page (js "hero-1") = [web_strike]
  /\ extractAbilities venom_page (js "hero-2") = [venom_strike]
  /\ hero_id web_strike ≠ hero_id venom_strike
  /\ name web_strike = name venom_strike
  /\ conflictKey (js "hero_id,name") web_strike ≠ conflictKey (js "hero_id,name") venom_strike
  /\ scrapeHeroAbilities two_heroes [] = [venom_strike]
  /\ web_strike ∉ scrapeHeroAbilities two_heroes [].
Proof.
  assert (H : scrapeHeroAbilities two_heroes [] = [venom_strike])
    by (vm_compute; reflexivity).
  rewrite H.
  split; [vm_compute; reflexivity|].
  split; [vm_compute; reflexivity|].
  split; [vm_compute; discriminate|].
  split; [vm_compute; reflexivity|].
  split; [vm_compute; discriminate|].
  split; [reflexivity|].
  intros Hin%list_elem_of_singleton. vm_compute in Hin. discriminate.
Qed.

(** ** The store, for any table *)

Section UpsertBy.

Context {A K : Type} `{EqDecision K} (key : A -> K).

Lemma upsertBy_elem table r x :
  x ∈ upsertBy key table r <-> x = r \/ (x ∈ table /\ key x ≠ key r).
Proof.
  unfold upsertBy.
  destruct (existsb _ table) eqn:Hex.
  - apply existsb_exists in Hex as (old & Hold & Hkey).
    apply bool_decide_eq_true in Hkey. apply list_elem_of_In in Hold.
    rewrite list_elem_of_fmap. split.
    + intros (y & -> & Hy). case_bool_decide as Hd; [by left | by right].
    + intros [-> |[Hx Hne]].
      * exists old. split; [|done]. by rewrite bool_decide_eq_true_2.
      * exists x. split; [|done]. by rewrite bool_decide_eq_false_2.
  - rewrite elem_of_app, list_elem_of_singleton. split.
    + intros [Hx| ->]; [|by left]. right. split; [done|].
      intros Hn. apply not_true_iff_false in Hex. apply Hex.
      apply existsb_exists. exists x. split; [by apply list_elem_of_In|].
      by apply bool_decide_eq_true.
    + intros [-> |[Hx _]]; [by right | by left].
Qed.

Lemma upsertBy_keys table r :
  key <$> upsertBy key table r
  = (key <$> table) ++ (if bool_decide (key r ∈ key <$> table) then [] else [key r]).
Proof.
  unfold upsertBy. destruct (existsb _ table) eqn:Hex.
  - apply existsb_exists in Hex as (old & Hold & Hkey).
    apply bool_decide_eq_true in Hkey. apply list_elem_of_In in Hold.
    rewrite bool_decide_eq_true_2.
    2:{ apply list_elem_of_fmap. by exists old. }
    rewrite app_nil_r, <- list_fmap_compose. apply list_fmap_ext.
    intros _ old' _. cbn. by case_bool_decide.
  - rewrite bool_decide_eq_false_2.
    2:{ intros (old & Heq & Hold)%list_elem_of_fmap.
        apply not_true_iff_false in Hex. apply Hex. apply existsb_exists.
        exists old. split; [by apply list_elem_of_In|]. by apply bool_decide_eq_true. }
    by rewrite fmap_app.
Qed.

Lemma upsertBy_NoDup table r :
  NoDup (key <$> table) -> NoDup (key <$> upsertBy key table r).
Proof.
  intros Hnd. rewrite upsertBy_keys. case_bool_decide as Hin.
  - by rewrite app_nil_r.
  - apply NoDup_app. split; [done|]. split; [|apply NoDup_singleton].
    intros k Hk ->%list_elem_of_singleton. done.
Qed.

Lemma upsertBy_present table r :
  key r ∈ key <$> table ->
  upsertBy key table r
  = (fun old => if bool_decide (key old = key r) then r else old) <$> table.
Proof.
  intros (old & Heq & Hold)%list_elem_of_fmap. unfold upsertBy.
  assert (existsb (fun old => bool_decide (key old = key r)) table = true) as ->; [|done].
  apply existsb_exists. exists old. split; [by apply list_elem_of_In|].
  by apply bool_decide_eq_true.
Qed.

Lemma foldl_upsertBy_keys_mono rows table k :
  k ∈ key <$> table -> k ∈ key <$> foldl (upsertBy key) table rows.
Proof.
  revert table. induction rows as [|r rows IH]; intros table Hk; [done|].
  cbn [foldl]. apply IH. rewrite upsertBy_keys. apply elem_of_app. by left.
Qed.

Lemma foldl_upsertBy_keys_stored rows table r :
  r ∈ rows -> key r ∈ key <$> foldl (upsertBy key) table rows.
Proof.
  revert table. induction rows as [|r' rows IH]; intros table; [by intros ?%not_elem_of_nil|].
  cbn [foldl]. intros [-> |Hr]%elem_of_cons; [|by apply IH].
  apply foldl_upsertBy_keys_mono. apply list_elem_of_fmap. exists r'.
  split; [done|]. apply upsertBy_elem. by left.
Qed.

Lemma foldl_upsertBy_NoDup rows table :
  NoDup (key <$> table) -> NoDup (key <$> foldl (upsertBy key) table rows).
Proof.
  revert table. induction rows as [|r rows IH]; intros table Hnd; [done|].
  cbn [foldl]. by apply IH, upsertBy_NoDup.
Qed.

Lemma foldl_upsertBy_elem rows table x :
  x ∈ foldl (upsertBy key) table rows -> x ∈ rows \/ x ∈ table.
Proof.
  revert table. induction rows as [|r rows IH]; intros table; cbn [foldl]; [by right|].
  intros [Hx|Hx]%IH; [left; by right|].
  apply upsertBy_elem in Hx as [-> |[Hx _]]; [left; by left | by right].
Qed.

Lemma replacedBy_key rows old : key (replacedBy key rows old) = key old.
Proof.
  revert old. induction rows as [|r rows IH]; intros old; [done|].
  unfold replacedBy in *. cbn [foldl]. rewrite IH. by case_bool_decide.
Qed.

(** When every key of the batch is stored, the batch only replaces rows. *)
Lemma foldl_upsertBy_present rows table :
  (forall r, r ∈ rows -> key r ∈ key <$> table) ->
  foldl (upsertBy key) table rows = replacedBy key rows <$> table.
Proof.
  revert table. induction rows as [|r rows IH]; intros table Hall.
  - cbn. by rewrite list_fmap_id.
  - cbn [foldl]. rewrite upsertBy_present by (apply Hall; by left).
    rewrite IH.
    + by rewrite <- list_fmap_compose.
    + intros r' Hr'. rewrite <- list_fmap_compose.
      erewrite list_fmap_ext; [apply Hall; by right|].
      intros _ old _. cbn. by case_bool_decide.
Qed.

(** The rows stored under one key all become what the batch makes of them. *)
Lemma foldl_upsertBy_settled rows table k a x :
  key a = k ->
  (forall y, y ∈ table -> key y = k -> y = a) ->
  x ∈ foldl (upsertBy key) table rows -> key x = k ->
  x = replacedBy key rows a.
Proof.
  revert table a. induction rows as [|r rows IH]; intros table a Ha Hall Hx Hk.
  - cbn. by apply Hall.
  - cbn [foldl] in Hx. unfold replacedBy. cbn [foldl].
    eapply (IH (upsertBy key table r)); [| |exact Hx|exact Hk].
    + case_bool_decide; congruence.
    + intros y Hy Hyk. apply upsertBy_elem in Hy as [-> |[Hy Hne]].
      * rewrite bool_decide_eq_true_2; [done|]. congruence.
      * rewrite bool_decide_eq_false_2 by congruence. by apply Hall.
Qed.

(** A row of the table after a batch is left as it is by the same batch. *)
Lemma foldl_upsertBy_fixed rows table x :
  x ∈ foldl (upsertBy key) table rows -> replacedBy key rows x = x.
Proof.
  revert table. induction rows as [|r rows IH]; intros table Hx; [done|].
  cbn [foldl] in Hx. unfold replacedBy. cbn [foldl].
  case_bool_decide as Hk; [|by eapply IH].
  symmetry. eapply (foldl_upsertBy_settled rows (upsertBy key table r) (key r));
    [done| |exact Hx|done].
  intros y Hy Hyk. apply upsertBy_elem in Hy as [-> |[Hy Hne]]; done.
Qed.

Lemma foldl_upsertBy_idempotent rows table :
  foldl (upsertBy key) (foldl (upsertBy key) table rows) rows
  = foldl (upsertBy key) table rows.
Proof.
  rewrite foldl_upsertBy_present.
  - apply list_eq. intros i. rewrite list_lookup_fmap.
    destruct (foldl (upsertBy key) table rows !! i) as [x|] eqn:Hx; [|done].
    cbn. f_equal. eapply foldl_upsertBy_fixed. by eapply list_elem_of_lookup_2.
  - intros r Hr. by apply foldl_upsertBy_keys_stored.
Qed.

End UpsertBy.

(** ** The ability pass as one batch *)

Lemma upsertRow_name_by table r :
  upsertRow (js "name") table r = upsertBy name table r.
Proof.
  unfold upsertRow, upsertBy.
  assert (Hext : forall old,
             bool_decide (conflictKey (js "name") old = conflictKey (js "name") r)
             = bool_decide (name old = name r)).
  { intros old. apply bool_decide_ext, conflictKey_name_eq. }
  assert (Hex : existsb (fun old => bool_decide (conflictKey (js "name") old
                                                 = conflictKey (js "name") r)) table
                = existsb (fun old => bool_decide (name old = name r)) table).
  { induction table as [|old table IH]; [done|]. cbn [existsb]. by rewrite Hext, IH. }
  rewrite Hex. clear Hex. destruct (existsb _ table); [|reflexivity].
  apply list_fmap_ext. intros _ old _. cbv beta. by rewrite Hext.
Qed.

Lemma upsertRows_name_by rows table :
  upsertRows (js "name") rows table = foldl (upsertBy name) table rows.
Proof.
  unfold upsertRows. revert table.
  induction rows as [|r rows IH]; intros table; [done|].
  cbn [foldl]. by rewrite upsertRow_name_by, IH.
Qed.

Lemma scrapeHero_written w table hero heroUrl :
  scrapeHero w table hero heroUrl
  = upsertRows (js "name") (writtenFor w hero heroUrl) table.
Proof.
  unfold scrapeHero, writtenFor, upsert.
  destruct (canScrape w heroUrl (js "*")) as [[|]|]; [|done|done].
  destruct (axiosGet w heroUrl) as [heroPageData|]; [|done].
  destruct (extractAbilities _ _) as [|a rows] eqn:Hrows.
  - by destruct (storeRejects w []).
  - cbn [length Nat.eqb]. by destruct (storeRejects w (a :: rows)).
Qed.

Lemma forEachHero_written w heroes table :
  forEachHero w table heroes
  = upsertRows (js "name") (writtenForAll w heroes) table.
Proof.
  revert table. induction heroes as [|hero rest IH]; intros table; [done|].
  cbn [forEachHero writtenForAll].
  destruct (getHeroPageUrl w (hero_name hero)) as [heroUrl|]; [|done].
  rewrite IH, scrapeHero_written. unfold upsertRows. by rewrite foldl_app.
Qed.

Lemma writtenForAll_elem w heroes x :
  x ∈ writtenForAll w heroes ->
  exists hero heroUrl heroPageData,
    hero ∈ heroes
    /\ getHeroPageUrl w (hero_name hero) = Returns heroUrl
    /\ canScrape w heroUrl (js "*") = Returns true
    /\ axiosGet w heroUrl = Returns heroPageData
    /\ x ∈ extractAbilities (cheerioLoad w heroPageData) (id hero).
Proof.
  induction heroes as [|hero rest IH]; [by intros ?%not_elem_of_nil|].
  cbn [writtenForAll].
  destruct (getHeroPageUrl w (hero_name hero)) as [heroUrl|] eqn:Hurl;
    [|by intros ?%not_elem_of_nil].
  intros [Hx|Hx]%elem_of_app.
  - unfold writtenFor in Hx.
    destruct (canScrape w heroUrl (js "*")) as [[|]|] eqn:Hcan;
      try by apply not_elem_of_nil in Hx.
    destruct (axiosGet w heroUrl) as [heroPageData|] eqn:Hget;
      [|by apply not_elem_of_nil in Hx].
    destruct (storeRejects w _); [by apply not_elem_of_nil in Hx|].
    exists hero, heroUrl, heroPageData. repeat split; try done. by left.
  - destruct (IH Hx) as (h & u & d & Hh & ?). exists h, u, d. split; [by right|done].
Qed.

(** X1. Running the ability pass a second time on the table it has produced,
    in an unchanged world, changes nothing. *)
Theorem scrapeHeroAbilities_idempotent (w : World) (table : list Ability) :
  scrapeHeroAbilities w (scrapeHeroAbilities w table) = scrapeHeroAbilities w table.
Proof.
  unfold scrapeHeroAbilities. destruct (selectHeroes w) as [heroes|]; [|done].
  rewrite !forEachHero_written, !upsertRows_name_by.
  apply foldl_upsertBy_idempotent.
Qed.

(** X2. The ability pass keeps the names of the table distinct: if no two
    stored abilities have the same name before the pass, none have after. *)
Theorem scrapeHeroAbilities_names_distinct (w : World) (table : list Ability) :
  NoDup (name <$> table) -> NoDup (name <$> scrapeHeroAbilities w table).
Proof.
  intros Hnd. unfold scrapeHeroAbilities.
  destruct (selectHeroes w) as [heroes|]; [|done].
  rewrite forEachHero_written, upsertRows_name_by.
  by apply foldl_upsertBy_NoDup.
Qed.

Lemma scrapeHeroAbilities_names_distinct_witness :
  NoDup (name <$> [venom_strike])
  /\ NoDup (name <$> scrapeHeroAbilities two_heroes [venom_strike]).
Proof.
  assert (H : NoDup (name <$> [venom_strike])).
  { apply NoDup_singleton. }
  split; [exact H|].
  exact (scrapeHeroAbilities_names_distinct two_heroes [venom_strike] H).
Defined.

(** X3. Every row of the table after the ability pass was in the table before
    it, or was extracted, for a hero of the list, from the page fetched at
    that hero's URL after the policy check allowed it. *)
Theorem scrapeHeroAbilities_provenance (w : World) (table : list Ability)
  (x : Ability) :
  x ∈ scrapeHeroAbilities w table ->
  x ∈ table
  \/ exists heroes hero heroUrl heroPageData,
       selectHeroes w = Some heroes
       /\ hero ∈ heroes
       /\ getHeroPageUrl w (hero_name hero) = Returns heroUrl
       /\ canScrape w heroUrl (js "*") = Returns true
       /\ axiosGet w heroUrl = Returns heroPageData
       /\ x ∈ extractAbilities (cheerioLoad w heroPageData) (id hero).
Proof.
  unfold scrapeHeroAbilities. destruct (selectHeroes w) as [heroes|] eqn:Hsel; [|by left].
  rewrite forEachHero_written, upsertRows_name_by.
  intros [Hx|Hx]%foldl_upsertBy_elem; [|by left].
  right. destruct (writtenForAll_elem _ _ _ Hx) as (hero & u & d & ?).
  by exists heroes, hero, u, d.
Qed.

Lemma scrapeHeroAbilities_provenance_witness :
  venom_strike ∈ scrapeHeroAbilities two_heroes []
  /\ (venom_strike ∈ []
      \/ exists heroes hero heroUrl heroPageData,
           selectHeroes two_heroes = Some heroes
           /\ hero ∈ heroes
           /\ getHeroPageUrl two_heroes (hero_name hero) = Returns heroUrl
           /\ canScrape two_heroes heroUrl (js "*") = Returns true
           /\ axiosGet two_heroes heroUrl = Returns heroPageData
           /\ venom_strike ∈ extractAbilities (cheerioLoad two_heroes heroPageData) (id hero)).
Proof.
  assert (H : venom_strike ∈ scrapeHeroAbilities two_heroes []).
  { replace (scrapeHeroAbilities two_heroes []) with [venom_strike]
      by (vm_compute; reflexivity).
    apply list_elem_of_singleton. reflexivity. }
  split; [exact H|].
  exact (scrapeHeroAbilities_provenance two_heroes [] venom_strike H).
Defined.

(** X4. Failures are isolated per hero. When the URL of a listed hero can be
    built but the policy check denies it, or the page cannot be fetched, or
    no ability is extracted, or the store rejects the write, the pass goes on
    and the table is in the end as if that hero had not been listed. When the
    URL itself cannot be built, the pass ends there: the table is as if the
    list had stopped before that hero, and the heroes after it are not
    scraped. *)
Theorem forEachHero_failure_isolated (w : World) (table : list Ability)
  (before : list Hero) (hero : Hero) (rest : list Hero) :
  (forall heroUrl,
      getHeroPageUrl w (hero_name hero) = Returns heroUrl ->
      canScrape w heroUrl (js "*") = Returns false
      \/ (exists e, axiosGet w heroUrl = Throws e)
      \/ (exists heroPageData,
            axiosGet w heroUrl = Returns heroPageData
            /\ (extractAbilities (cheerioLoad w heroPageData) (id hero) = []
                \/ storeRejects w (extractAbilities (cheerioLoad w heroPageData) (id hero))
                   = true)) ->
      forEachHero w table (before ++ hero :: rest) = forEachHero w table (before ++ rest))
  /\ (forall e,
         getHeroPageUrl w (hero_name hero) = Throws e ->
         forEachHero w table (before ++ hero :: rest) = forEachHero w table before).
Proof.
  revert table. induction before as [|h before IH]; intros table.
  - split.
    + intros heroUrl Hurl Hfail. cbn [app forEachHero]. rewrite Hurl. f_equal.
      unfold scrapeHero, upsert.
      destruct Hfail as [-> |[[e ->]|(d & -> & [-> | ->])]]; try done.
      * by destruct (canScrape w heroUrl (js "*")) as [[|]|].
      * by destruct (canScrape w heroUrl (js "*")) as [[|]|].
      * destruct (canScrape w heroUrl (js "*")) as [[|]|]; try done.
        by destruct (length _ =? 0)%nat.
    + intros e Hurl. cbn [app forEachHero]. by rewrite Hurl.
  - cbn [app forEachHero].
    destruct (getHeroPageUrl w (hero_name h)) as [u|]; [|done].
    apply IH.
Qed.

Lemma forEachHero_failure_isolated_witness :
  forEachHero first_page_gone [] ([venom] ++ spider_man :: [venom])
  = forEachHero first_page_gone [] ([venom] ++ [venom]).
Proof.
  assert (Hurl : getHeroPageUrl first_page_gone (hero_name spider_man)
                 = Returns (wikiUrl "Spider-Man")) by reflexivity.
  assert (Hfail : canScrape first_page_gone (wikiUrl "Spider-Man") (js "*") = Returns false
      \/ (exists e, axiosGet first_page_gone (wikiUrl "Spider-Man") = Throws e)
      \/ (exists heroPageData,
            axiosGet first_page_gone (wikiUrl "Spider-Man") = Returns heroPageData
            /\ (extractAbilities (cheerioLoad first_page_gone heroPageData) (id spider_man) = []
                \/ storeRejects first_page_gone
                     (extractAbilities (cheerioLoad first_page_gone heroPageData) (id spider_man))
                   = true))).
  { right. left. eexists. reflexivity. }
  exact (proj1 (forEachHero_failure_isolated first_page_gone [] [venom] spider_man [venom])
           (wikiUrl "Spider-Man") Hurl Hfail).
Defined.

(** ** Keys and values of the stats objects *)

Lemma trim_nil : trim [] = [].
Proof. reflexivity. Qed.

Lemma trim_of_bounded s : bounded s -> trim s = s.
Proof.
  intros [(c & Hc & Hcw) (d & Hd & Hdw)].
  unfold trim, trimEnd.
  apply head_Some in Hc as [r ->]. rewrite trimStart_keeps by done.
  apply last_Some in Hd as [l Hl]. rewrite Hl, reverse_snoc, trimStart_keeps by done.
  by rewrite <- (reverse_snoc l d), reverse_involutive.
Qed.

Lemma trim_idem s : trim (trim s) = trim s.
Proof.
  destruct (trim s) as [|c r] eqn:Hs; [done|].
  rewrite <- Hs. apply trim_of_bounded, trim_bounded. by rewrite Hs.
Qed.

Lemma trim_trimmedValue s : nonEmpty (trim s) = true -> trimmedValue (trim s).
Proof. intros H. split; [by apply nonEmpty_true | apply trim_idem]. Qed.






(** *** Text below a node *)










(** *** Strings that stay Latin-1 *)








(** *** Keys and values *)












(** ** More on the row loop *)

Lemma absorb_all_description a rows :
  description (foldl absorb a rows)
  = default (description a)
      (last (filter (fun d => nonEmpty d = true) (rowDescription <$> rows))).
Proof.
  revert a. induction rows as [|r rows IH]; intros a; [done|].
  cbn [foldl fmap list_fmap]. rewrite IH. cbn [description absorb].
  destruct (nonEmpty (rowDescription r)) eqn:Hd.
  - rewrite filter_cons_True by done.
    destruct (filter _ (rowDescription <$> rows)) as [|d ds] eqn:Hf; [done|].
    rewrite last_cons_cons.
    destruct (last (d :: ds)) eqn:E; [done|]. by apply last_None in E.
  - rewrite filter_cons_False by (by rewrite Hd). done.
Qed.

(** X6. The description of an ability of the current format is the one
    supplied last among the rows of its group, and is empty if none of them
    supplies one: a continuation row without description text keeps the
    description set by an earlier one. *)
Theorem description_is_last_supplied (skillTable : list located) (heroId : jsstring) :
  description <$> extractNewFormatAbilities skillTable heroId
  = (fun g => lastDescription g.2) <$> groupRows (abilityRows skillTable).
Proof.
  rewrite extractNewFormatAbilities_groups, <- list_fmap_compose.
  apply list_fmap_ext. intros _ [r rs] _. cbn. unfold abilityOfGroup. cbn.
  by rewrite absorb_all_description.
Qed.

(** X7. Rows that are neither start rows nor continuation rows with content -
    header rows, rows with two cells, a single cell that does not span three
    columns, an empty continuation cell - have no effect wherever they occur:
    the loop ends in the same state as on the rows that remain when they are
    taken out. *)
Theorem other_rows_are_ignored (heroId : jsstring) (st : State) (rows : list located) :
  foldl (processRow heroId) st rows
  = foldl (processRow heroId) st (filter (fun tr => contributes tr = true) rows).
Proof.
  revert st. induction rows as [|tr rows IH]; intros st; [done|].
  cbn [foldl]. destruct (contributes tr) eqn:Hc.
  - rewrite filter_cons_True by done. cbn [foldl]. apply IH.
  - rewrite filter_cons_False by (by rewrite Hc).
    unfold contributes in Hc. apply orb_false_iff in Hc as [Hs Hcont].
    rewrite processRow_ignored by done. apply IH.
Qed.

Example header_row_ignored :
  extractAbilities (skillTablePage [header_row; web_start; header_row; web_continuation])
                   (js "hero-1")
  = [web_strike].
Proof. vm_compute. reflexivity. Qed.

(** X8. Every ability either strategy emits for a page carries the hero id
    the extraction was called with. *)
Theorem abilities_belong_to_hero (doc : list node) (heroId : jsstring) (a : Ability) :
  a ∈ extractAbilities doc heroId -> hero_id a = heroId.
Proof.
  unfold extractAbilities. destruct (0 <? _)%nat.
  - rewrite extractNewFormatAbilities_groups.
    intros ([r rs] & -> & _)%list_elem_of_fmap. unfold abilityOfGroup. cbn [fst snd].
    by destruct (absorb_all_fixed (startAbility heroId r) rs) as (-> & _).
  - by intros (aside & -> & _)%list_elem_of_fmap.
Qed.

Lemma abilities_belong_to_hero_witness :
  web_strike ∈ extractAbilities web_page (js "hero-1")
  /\ hero_id web_strike = js "hero-1".
Proof.
  assert (H1 : web_strike ∈ extractAbilities web_page (js "hero-1")).
  { replace (extractAbilities web_page (js "hero-1")) with [web_strike]
      by (vm_compute; reflexivity).
    apply list_elem_of_singleton. reflexivity. }
  split; [exact H1|].
  exact (abilities_belong_to_hero web_page (js "hero-1") web_strike H1).
Defined.

(** ** More on the type mapping *)

Lemma typeMap_lookup rawType v :
  typeMap !! rawType = Some v ->
  v ∈ [js "Left Mouse Button"; js "Right Mouse Button"; js "Q"; js "E"; js "F";
       js "Passive"; js "Left Shift"].
Proof.
  unfold typeMap. intros H%elem_of_list_to_map_2.
  apply list_elem_of_In in H. cbn [In] in H.
  repeat (destruct H as [H|H]; [injection H as _ <-; set_solver|]). done.
Qed.

(** X9. The canonical tokens are fixed points of the mapping: whenever
    [mapAbilityType] returns a string, mapping that string again returns it
    unchanged. *)
Theorem mapAbilityType_fixed_point (rawType s : jsstring) :
  mapAbilityType rawType = VString s -> mapAbilityType s = VString s.
Proof.
  unfold mapAbilityType, getProp, orElse.
  destruct (typeMap !! rawType) as [v|] eqn:Hraw.
  - pose proof (typeMap_lookup _ _ Hraw) as Hv.
    apply list_elem_of_In in Hv. cbn [In] in Hv.
    repeat (destruct Hv as [Hv|Hv];
            [subst v; vm_compute (truthy _); cbv iota; intros [= <-];
             vm_compute; reflexivity|]).
    done.
  - case_bool_decide as Hp; cbn [truthy]; [done|].
    intros [= <-]. rewrite Hraw. by rewrite bool_decide_eq_false_2.
Qed.

Lemma mapAbilityType_fixed_point_witness :
  mapAbilityType (js "Primary 1") = VString (js "Left Mouse Button")
  /\ mapAbilityType (js "Left Mouse Button") = VString (js "Left Mouse Button").
Proof.
  assert (H : mapAbilityType (js "Primary 1") = VString (js "Left Mouse Button"))
    by (vm_compute; reflexivity).
  split; [exact H|].
  exact (mapAbilityType_fixed_point (js "Primary 1") (js "Left Mouse Button") H).
Defined.

(** ** More on [capitalizeWords] *)

Lemma caseOnly_ascii c : c < 128 -> caseOnly c = true.
Proof.
  intros Hc.
  assert (Hall : forallb caseOnly (N.of_nat <$> seq 0 128) = true)
    by (vm_compute; reflexivity).
  rewrite forallb_forall in Hall. apply Hall.
  apply list_elem_of_In, list_elem_of_fmap. exists (N.to_nat c).
  split; [lia|]. apply elem_of_seq. lia.
Qed.

Lemma capitalizeWord_lower w :
  Forall (fun c => caseOnly c = true) w ->
  toLowerCase (capitalizeWord (toLowerCase w)) = toLowerCase w.
Proof.
  destruct w as [|c w]; [done|]. intros [Hc _]%Forall_cons.
  rewrite toLowerCase_cons, capitalizeWord_cons. unfold caseOnly in Hc.
  destruct (upperUnit (lowerUnit c)) as [|u [|? ?]]; try done.
  apply N.eqb_eq in Hc.
  change ([u] ++ toLowerCase w) with (u :: toLowerCase w).
  by rewrite toLowerCase_cons, toLowerCase_idem, Hc.
Qed.

Lemma elem_of_split sep s w c : w ∈ split sep s -> c ∈ w -> c ∈ s.
Proof.
  intros Hw Hc. rewrite <- (join_split sep s).
  apply list_elem_of_split in Hc as (w1 & w2 & ->).
  revert Hw. generalize (split sep s). intros ws.
  induction ws as [|w' ws IH]; [by intros ?%not_elem_of_nil|].
  intros [<- |Hin]%elem_of_cons.
  - destruct ws; cbn [join]; rewrite ?elem_of_app, !elem_of_cons; tauto.
  - destruct ws as [|w'' ws]; [by apply not_elem_of_nil in Hin|].
    cbn [join]. apply elem_of_app. right. right. by apply IH.
Qed.

(** X10. On ASCII text [capitalizeWords] changes nothing but the case of
    letters: the result has the length of the input, and lower-casing it gives
    the lower-cased input. *)
Theorem capitalizeWords_changes_case_only (text : jsstring) :
  Forall (fun c => c < 128) text ->
  toLowerCase (capitalizeWords text) = toLowerCase text
  /\ length (capitalizeWords text) = length text.
Proof.
  intros Hascii.
  assert (Hlow : toLowerCase (capitalizeWords text) = toLowerCase text).
  { unfold capitalizeWords.
    rewrite toLowerCase_join, split_toLowerCase, <- !list_fmap_compose.
    transitivity (join SPACE (split SPACE (toLowerCase text))); [|apply join_split].
    rewrite split_toLowerCase. f_equal.
    apply list_eq. intros i. rewrite !list_lookup_fmap.
    destruct (split SPACE text !! i) as [w|] eqn:Hw; [|done]. cbn. f_equal.
    apply capitalizeWord_lower. apply Forall_forall. intros c Hc.
    apply caseOnly_ascii.
    eapply (proj1 (Forall_forall _ _) Hascii), elem_of_split; [|exact Hc].
    by eapply list_elem_of_lookup_2. }
  split; [exact Hlow|].
  apply (f_equal length) in Hlow. unfold toLowerCase in Hlow.
  by rewrite !length_fmap in Hlow.
Qed.

Lemma capitalizeWords_changes_case_only_witness :
  Forall (fun c => c < 128) (js "wEB strike")
  /\ toLowerCase (capitalizeWords (js "wEB strike")) = toLowerCase (js "wEB strike")
  /\ length (capitalizeWords (js "wEB strike")) = length (js "wEB strike").
Proof.
  assert (H : Forall (fun c => c < 128) (js "wEB strike")) by (repeat constructor).
  split; [exact H|].
  exact (capitalizeWords_changes_case_only (js "wEB strike") H).
Defined.

(** ** More on the lore *)

(** A lore that is returned is the trimmed text gathered from the block. *)
Lemma getHeroLoreSection_trim doc lore :
  getHeroLoreSection doc = Some lore ->
  exists loreContent, lore = trim loreContent /\ nonEmpty (trim loreContent) = true.
Proof.
  unfold getHeroLoreSection.
  destruct (length (loreBlockquotes doc) =? 0)%nat; [done|].
  destruct (eachBlockquote _) as [loreContent biographyFound].
  destruct biographyFound; [|done]. cbn [negb].
  destruct (nonEmpty (trim loreContent)) eqn:Hne; [|done].
  intros [= <-]. by exists loreContent.
Qed.

(** X11. When [getHeroLoreSection] returns a text, the text is not empty and
    has no white space at either end. *)
Theorem lore_is_trimmed (doc : list node) (lore : jsstring) :
  getHeroLoreSection doc = Some lore -> trimmedValue lore.
Proof.
  intros (loreContent & -> & Hne)%getHeroLoreSection_trim.
  split.
  - by apply nonEmpty_true.
  - apply trim_idem.
Qed.

Lemma lore_is_trimmed_witness :
  getHeroLoreSection lore_page
  = Some (js "Bitten by a spider." ++ NEWLINES ++ js "He swings.")
  /\ trimmedValue (js "Bitten by a spider." ++ NEWLINES ++ js "He swings.").
Proof.
  assert (H : getHeroLoreSection lore_page
              = Some (js "Bitten by a spider." ++ NEWLINES ++ js "He swings."))
    by (vm_compute; reflexivity).
  split; [exact H|].
  exact (lore_is_trimmed lore_page _ H).
Defined.

(** ** Health *)

Example decimal_250 : decimal 250 = js "250".
Proof. reflexivity. Qed.

Example health_250 : extractHealth (health_page (js " 250 HP ")) = Some (Exactly 250).
Proof. reflexivity. Qed.

Example health_none : extractHealth (health_page (js "about 250")) = None.
Proof. reflexivity. Qed.

Example health_missing : extractHealth stars_page = None.
Proof. reflexivity. Qed.

Lemma isDigit_of_digit d : d < 10 -> isDigit (48 + d) = true.
Proof. intros H. unfold isDigit. apply andb_true_iff. split; apply N.leb_le; lia. Qed.

(** Digits in front of a string count before it. *)
Lemma digitsValue_digits ds acc :
  Forall (fun c => isDigit c = true) ds ->
  digitsValue acc ds = acc * 10 ^ N.of_nat (length ds) + digitsValue 0 ds.
Proof.
  revert acc. induction ds as [|c ds IH]; intros acc Hds.
  - cbn. lia.
  - apply Forall_cons in Hds as [Hc Hds]. cbn [digitsValue length]. rewrite Hc.
    rewrite IH by done. rewrite (IH (10 * 0 + (c - 48))) by done.
    rewrite Nat2N.inj_succ, N.pow_succ_r'. lia.
Qed.

Lemma digitsValue_app ds rest acc :
  Forall (fun c => isDigit c = true) ds ->
  digitsValue acc (ds ++ rest) = digitsValue (digitsValue acc ds) rest.
Proof.
  revert acc. induction ds as [|c ds IH]; intros acc Hds; [done|].
  apply Forall_cons in Hds as [Hc Hds]. cbn [app digitsValue]. rewrite Hc.
  by apply IH.
Qed.

Lemma decimalFrom_spec fuel n acc :
  n < 10 ^ N.of_nat fuel -> (0 < fuel)%nat ->
  Forall (fun c => isDigit c = true) acc ->
  Forall (fun c => isDigit c = true) (decimalFrom fuel n acc)
  /\ decimalFrom fuel n acc ≠ []
  /\ digitsValue 0 (decimalFrom fuel n acc)
     = n * 10 ^ N.of_nat (length acc) + digitsValue 0 acc.
Proof.
  revert n acc. induction fuel as [|fuel IH]; intros n acc Hn Hfuel Hacc; [lia|].
  cbn [decimalFrom].
  assert (Hd : isDigit (48 + n mod 10) = true).
  { apply isDigit_of_digit. apply N.mod_lt. lia. }
  assert (Hacc' : Forall (fun c => isDigit c = true) ((48 + n mod 10) :: acc))
    by (by constructor).
  assert (Hval : digitsValue 0 ((48 + n mod 10) :: acc)
                 = (n mod 10) * 10 ^ N.of_nat (length acc) + digitsValue 0 acc).
  { cbn [digitsValue]. rewrite Hd, digitsValue_digits by done.
    generalize (n mod 10). intros d. f_equal. f_equal. lia. }
  destruct (n / 10 =? 0) eqn:Hq.
  - apply N.eqb_eq in Hq. split; [done|]. split; [done|].
    rewrite Hval. f_equal. f_equal.
    pose proof (N.div_mod n 10). lia.
  - apply N.eqb_neq in Hq.
    destruct fuel as [|fuel'].
    { exfalso. apply Hq. apply N.div_small. cbn in Hn. lia. }
    destruct (IH (n / 10) ((48 + n mod 10) :: acc)) as (H1 & H2 & H3); try done; try lia.
    { rewrite Nat2N.inj_succ, N.pow_succ_r' in Hn.
      apply N.Div0.div_lt_upper_bound. lia. }
    split; [done|]. split; [done|].
    rewrite H3, Hval. cbn [length]. rewrite Nat2N.inj_succ, N.pow_succ_r'.
    pose proof (N.div_mod n 10). nia.
Qed.

Lemma decimal_spec n :
  Forall (fun c => isDigit c = true) (decimal n)
  /\ decimal n ≠ []
  /\ digitsValue 0 (decimal n) = n.
Proof.
  unfold decimal.
  destruct (decimalFrom_spec (S (N.to_nat (N.log2 n))) n []) as (H1 & H2 & H3);
    [|lia|done|].
  - rewrite Nat2N.inj_succ, N2Nat.id.
    destruct (N.eq_dec n 0) as [-> |Hn]; [done|].
    eapply N.lt_le_trans; [apply N.log2_spec; lia|].
    apply N.pow_le_mono_l. lia.
  - split; [done|]. split; [done|]. rewrite H3. cbn. lia.
Qed.

Lemma digit_not_space c : isDigit c = true -> isWhiteSpace c = false.
Proof.
  unfold isDigit, isWhiteSpace. intros [H1 H2]%andb_true_iff.
  apply N.leb_le in H1. apply N.leb_le in H2.
  repeat (apply orb_false_iff; split);
    first [apply N.eqb_neq; lia | apply andb_false_iff; right; apply N.leb_gt; lia
          | apply andb_false_iff; left; apply N.leb_gt; lia].
Qed.

Lemma parseInt10_decimal n rest :
  (forall c r, rest = c :: r -> isDigit c = false) ->
  parseInt10 (decimal n ++ rest) = Some (toNumber (Z.of_N n)).
Proof.
  intros Hrest. destruct (decimal_spec n) as (Hds & Hne & Hval).
  assert (Hdv : digitsValue 0 (decimal n ++ rest) = n).
  { rewrite digitsValue_app, Hval by done.
    destruct rest as [|c r]; [done|]. cbn. by rewrite (Hrest c r). }
  destruct (decimal n) as [|c ds] eqn:Hd; [done|].
  apply Forall_cons in Hds as [Hc Hds].
  unfold parseInt10. cbn [app]. rewrite trimStart_keeps by (by apply digit_not_space).
  assert (c ≠ 45 /\ c ≠ 43) as [H45 H43].
  { unfold isDigit in Hc. apply andb_true_iff in Hc as [Hc _].
    apply N.leb_le in Hc. lia. }
  change (c :: ds ++ rest) with ((c :: ds) ++ rest) in *.
  destruct c as [|p]; [done|].
  assert (Hgoal : (if isDigit (N.pos p)
                   then Some (toNumber (1 * Z.of_N (digitsValue 0 ((N.pos p :: ds) ++ rest))))
                   else None) = Some (toNumber (Z.of_N n))).
  { rewrite Hc, Hdv. f_equal. f_equal. lia. }
  do 7 (destruct p as [p|p|]; try exact Hgoal; try done).
Qed.

(** X12. A health panel whose value text is, once trimmed, the decimal
    writing of a number followed by anything that does not begin with a digit
    ("250", "250 HP") yields that number, exactly when it is at most 2^53. *)
Theorem extractHealth_reads_decimal (doc : list node) (n : N) (rest : jsstring) :
  let healthDiv := select (only (dataSource (tagSel "div") "health")) doc in
  healthDiv ≠ [] ->
  healthTextOf healthDiv = decimal n ++ rest ->
  (forall c r, rest = c :: r -> isDigit c = false) ->
  (n <= 2 ^ 53)%N ->
  extractHealth doc = Some (Exactly (Z.of_N n)).
Proof.
  intros healthDiv Hne Htext Hrest Hn. unfold extractHealth. fold healthDiv.
  destruct healthDiv as [|d ds] eqn:E; [done|]. cbn [length Nat.eqb].
  rewrite Htext, parseInt10_decimal by done.
  unfold toNumber. rewrite (proj2 (Z.leb_le _ _)); [done|]. lia.
Qed.

Lemma extractHealth_reads_decimal_witness :
  extractHealth (health_page (js " 250 HP ")) = Some (Exactly (Z.of_N 250)).
Proof.
  apply (extractHealth_reads_decimal (health_page (js " 250 HP ")) 250 (js " HP")).
  - vm_compute. discriminate.
  - vm_compute. reflexivity.
  - intros c r [= <- _]. reflexivity.
  - vm_compute. discriminate.
Defined.

(** ** The news pass *)

Example news_services_run : scrapeNews (news_services 1000) [] = [season_1].
Proof. vm_compute. reflexivity. Qed.

Example news_services_refresh :
  scrapeNews (news_services 1000) [stale_season_1; season_0] = [season_1; season_0].
Proof. vm_compute. reflexivity. Qed.

Lemma orNull_trimmed x u : orNull (trimOpt x) = Some u -> trimmedValue u.
Proof.
  unfold orNull, trimOpt. destruct x as [y|]; cbn; [|done].
  destruct (nonEmpty (trim y)) eqn:Hy; [|done].
  intros [= <-]. by apply trim_trimmedValue.
Qed.

(** What one anchor does: nothing, or the upsert of an item under its link,
    unless the store rejects it. *)
Lemma scrapeNewsItem_step s type st element :
  match linkOf element with
  | None => scrapeNewsItem s type st element = st
  | Some link =>
      exists item,
        n_url item = link
        /\ (type ∈ [js "announcement"; js "update"; js "dev_diary"] ->
            wellFormedNews item)
        /\ (scrapeNewsItem s type st element).1
           = (if newsRejects s item then st.1 else upsertBy n_url st.1 item)
  end.
Proof.
  unfold linkOf, scrapeNewsItem.
  destruct (trimOpt (attr "href" [element])) as [[|c l]|] eqn:Hhref; [done| |done].
  destruct (nonEmpty (trim (text _))) eqn:Htitle; [|done].
  cbv zeta.
  match goal with |- context [newsRejects s ?i] => exists i end.
  split; [reflexivity|]. split.
  - intros Htype. split; [|split; [|split; [|split; [|split]]]]; cbn.
    + unfold trimOpt in Hhref. destruct (attr "href" [element]) as [h|]; [|done].
      injection Hhref as Hh. rewrite <- Hh. apply trim_trimmedValue. by rewrite Hh.
    + by apply trim_trimmedValue.
    + done.
    + done.
    + intros d. apply (orNull_trimmed (Some _)).
    + intros u. apply orNull_trimmed.
  - by destruct (newsRejects s _).
Qed.

Lemma scrapeItems_elem s type anchors st x :
  type ∈ [js "announcement"; js "update"; js "dev_diary"] ->
  x ∈ (foldl (scrapeNewsItem s type) st anchors).1 -> x ∈ st.1 \/ wellFormedNews x.
Proof.
  intros Htype. revert st. induction anchors as [|a anchors IH]; intros st; [by left|].
  cbn [foldl]. intros [Hx|Hx]%IH; [|by right].
  pose proof (scrapeNewsItem_step s type st a) as Hstep.
  destruct (linkOf a) as [link|].
  - destruct Hstep as (item & _ & Hwf & Heq). rewrite Heq in Hx.
    destruct (newsRejects s item); [by left|].
    apply upsertBy_elem in Hx as [-> |[Hx _]]; [right; by apply Hwf | by left].
  - rewrite Hstep in Hx. by left.
Qed.

Lemma scrapeFeed_anchors s st news :
  scrapeFeed s st news = foldl (scrapeNewsItem s news.2) st (feedAnchors (world s) news).
Proof.
  destruct news as [url type]. unfold scrapeFeed, feedAnchors. cbn [fst snd].
  destruct (canScrape _ _ _) as [[|]|]; [|done|done].
  destruct (axiosGet _ _) as [data|]; [|done].
  by destruct (select _ _).
Qed.

Lemma newsUrls_types news :
  news ∈ newsUrls -> news.2 ∈ [js "announcement"; js "update"; js "dev_diary"].
Proof.
  unfold newsUrls. rewrite !elem_of_cons.
  intros [-> |[-> |[-> |?%not_elem_of_nil]]]; cbn; set_solver.
Qed.

(** X13. Every row of the table after the news pass was there before, or is
    well formed: its URL and its title are not empty and trimmed, its type is
    one of the three feed types, its game id is the fixed one, and its content
    and image URL, when present, are not empty and trimmed. *)
Theorem scrapeNews_rows_well_formed (s : Services) (table : list NewsItem)
  (x : NewsItem) :
  x ∈ scrapeNews s table -> x ∈ table \/ wellFormedNews x.
Proof.
  unfold scrapeNews.
  enough (forall feeds st,
             (forall news, news ∈ feeds -> news ∈ newsUrls) ->
             x ∈ (foldl (scrapeFeed s) st feeds).1 -> x ∈ st.1 \/ wellFormedNews x)
    as H by (apply (H newsUrls (table, 0%nat)); done).
  induction feeds as [|news feeds IH]; intros st Hfeeds; [by left|].
  cbn [foldl]. intros [Hx|Hx]%IH; [| by right | intros n Hn; apply Hfeeds; by right].
  rewrite scrapeFeed_anchors in Hx.
  eapply scrapeItems_elem; [|exact Hx]. apply newsUrls_types, Hfeeds. by left.
Qed.

Lemma scrapeNews_rows_well_formed_witness :
  season_1 ∈ scrapeNews (news_services 1000) []
  /\ (season_1 ∈ [] \/ wellFormedNews season_1).
Proof.
  assert (H : season_1 ∈ scrapeNews (news_services 1000) []).
  { replace (scrapeNews (news_services 1000) []) with [season_1]
      by (vm_compute; reflexivity).
    apply list_elem_of_singleton. reflexivity. }
  split; [exact H|].
  exact (scrapeNews_rows_well_formed (news_services 1000) [] season_1 H).
Defined.

Lemma scrapeNews_anchors s table :
  scrapeNews s table
  = (foldl (fun st a => scrapeNewsItem s a.1 st a.2) (table, 0%nat)
       (newsAnchors (world s))).1.
Proof.
  unfold scrapeNews, newsAnchors. generalize (table, 0%nat). generalize newsUrls.
  induction l as [|news feeds IH]; intros st; [done|].
  cbn [foldl mbind list_bind]. rewrite foldl_app, <- IH. f_equal. f_equal.
  rewrite scrapeFeed_anchors. generalize (feedAnchors (world s) news). clear.
  intros anchors. revert st. induction anchors as [|a anchors IH]; intros st; [done|].
  cbn [foldl fmap list_fmap]. apply IH.
Qed.

Lemma scrapeNewsItem_urls s type st element :
  n_url <$> (scrapeNewsItem s type st element).1
  = (n_url <$> st.1)
    ++ match linkOf element with
       | Some link =>
           if bool_decide (link ∈ n_url <$> st.1) then []
           else if bool_decide (n_url <$> (scrapeNewsItem s type st element).1
                                = n_url <$> st.1) then [] else [link]
       | None => []
       end.
Proof.
  pose proof (scrapeNewsItem_step s type st element) as Hstep.
  destruct (linkOf element) as [link|].
  - destruct Hstep as (item & <- & _ & Heq). rewrite Heq.
    destruct (newsRejects s item).
    + case_bool_decide; [by rewrite app_nil_r|].
      rewrite bool_decide_eq_true_2 by done. by rewrite app_nil_r.
    + rewrite upsertBy_keys. case_bool_decide as Hin; [done|].
      rewrite bool_decide_eq_false_2; [done|].
      intros Habs. apply (f_equal length) in Habs.
      rewrite length_app in Habs. cbn in Habs. lia.
  - rewrite Hstep. by rewrite app_nil_r.
Qed.

Lemma scrapeItems_prefix s anchors st :
  (n_url <$> st.1)
    `prefix_of` (n_url <$> (foldl (fun st a => scrapeNewsItem s a.1 st a.2) st anchors).1).
Proof.
  revert st. induction anchors as [|a anchors IH]; intros st; [done|].
  cbn [foldl]. etrans; [|apply IH]. rewrite scrapeNewsItem_urls. by eexists.
Qed.

Lemma scrapeItems_NoDup s anchors st :
  NoDup (n_url <$> st.1) ->
  NoDup (n_url <$> (foldl (fun st a => scrapeNewsItem s a.1 st a.2) st anchors).1).
Proof.
  revert st. induction anchors as [|a anchors IH]; intros st Hnd; [done|].
  cbn [foldl]. apply IH. rewrite scrapeNewsItem_urls.
  destruct (linkOf a.2) as [link|]; [|by rewrite app_nil_r].
  case_bool_decide as Hin; [by rewrite app_nil_r|].
  case_bool_decide; [by rewrite app_nil_r|].
  apply NoDup_app. split; [done|]. split; [|apply NoDup_singleton].
  intros k Hk ->%list_elem_of_singleton. done.
Qed.

Lemma newsAnchors_types w a :
  a ∈ newsAnchors w -> a.1 ∈ [js "announcement"; js "update"; js "dev_diary"].
Proof.
  unfold newsAnchors. intros (news & Ha & Hnews)%list_elem_of_bind.
  apply list_elem_of_fmap in Ha as (element & -> & _). by apply newsUrls_types.
Qed.

Lemma scrapeNewsItem_keeps s type st element x :
  type ∈ [js "announcement"; js "update"; js "dev_diary"] ->
  keptOrRefreshed st.1 x -> keptOrRefreshed (scrapeNewsItem s type st element).1 x.
Proof.
  intros Htype Hx.
  pose proof (scrapeNewsItem_step s type st element) as Hstep.
  destruct (linkOf element) as [link|]; [|by rewrite Hstep].
  destruct Hstep as (item & _ & Hwf & ->). specialize (Hwf Htype).
  destruct (newsRejects s item); [done|].
  assert (Hput : forall z, z ∈ st.1 ->
            z ∈ upsertBy n_url st.1 item
            \/ (item ∈ upsertBy n_url st.1 item /\ n_url item = n_url z)).
  { intros z Hz. destruct (decide (n_url z = n_url item)) as [Heq|Hne].
    - right. split; [apply upsertBy_elem; by left | done].
    - left. apply upsertBy_elem. by right. }
  destruct Hx as [Hx|(y & Hy & Hurl & Hy_wf)].
  - destruct (Hput x Hx) as [?|[Hin Heq]]; [by left|].
    right. by exists item.
  - destruct (Hput y Hy) as [?|[Hin Heq]]; right.
    + by exists y.
    + exists item. split; [done|]. split; [congruence | done].
Qed.

Lemma scrapeItems_keeps s anchors st x :
  (forall a, a ∈ anchors -> a.1 ∈ [js "announcement"; js "update"; js "dev_diary"]) ->
  keptOrRefreshed st.1 x ->
  keptOrRefreshed (foldl (fun st a => scrapeNewsItem s a.1 st a.2) st anchors).1 x.
Proof.
  revert st. induction anchors as [|a anchors IH]; intros st Htypes Hx; [done|].
  cbn [foldl]. apply IH; [intros a' Ha'; apply Htypes; by right|].
  apply scrapeNewsItem_keeps; [apply Htypes; by left | done].
Qed.

(** X14. The news pass loses no stored row: every row stored before the pass
    is still there after it, as it was or replaced by a well-formed row with
    the same URL; and if no two rows had the same URL before, none have
    after. *)
Theorem scrapeNews_keeps_rows (s : Services) (table : list NewsItem) :
  NoDup (n_url <$> table) ->
  (forall x, x ∈ table -> keptOrRefreshed (scrapeNews s table) x)
  /\ NoDup (n_url <$> scrapeNews s table).
Proof.
  intros Hnd. rewrite scrapeNews_anchors. split.
  - intros x Hx. apply (scrapeItems_keeps s _ (table, 0%nat)).
    + intros a. apply newsAnchors_types.
    + by left.
  - by apply (scrapeItems_NoDup s _ (table, 0%nat)).
Qed.

Lemma scrapeNews_keeps_rows_witness :
  NoDup (n_url <$> [stale_season_1; season_0])
  /\ (forall x, x ∈ [stale_season_1; season_0] ->
        keptOrRefreshed (scrapeNews (news_services 1000) [stale_season_1; season_0]) x)
  /\ NoDup (n_url <$> scrapeNews (news_services 1000) [stale_season_1; season_0]).
Proof.
  assert (H : NoDup (n_url <$> [stale_season_1; season_0])).
  { apply (bool_decide_unpack _). vm_compute. reflexivity. }
  split; [exact H|].
  exact (scrapeNews_keeps_rows (news_services 1000) [stale_season_1; season_0] H).
Defined.

Lemma scrapeItems_stored s anchors st a link :
  (forall item, newsRejects s item = false) ->
  a ∈ anchors -> linkOf a.2 = Some link ->
  link ∈ n_url <$> (foldl (fun st a => scrapeNewsItem s a.1 st a.2) st anchors).1.
Proof.
  intros Hok. revert st. induction anchors as [|a' anchors IH]; intros st;
    [by intros ?%not_elem_of_nil|].
  cbn [foldl]. intros [-> |Ha]%elem_of_cons Hlink; [|by apply IH].
  destruct (scrapeItems_prefix s anchors (scrapeNewsItem s a'.1 st a'.2)) as [more ->].
  apply elem_of_app. left.
  pose proof (scrapeNewsItem_step s a'.1 st a'.2) as Hstep. rewrite Hlink in Hstep.
  destruct Hstep as (item & <- & _ & ->). rewrite Hok.
  apply list_elem_of_fmap. exists item. split; [done|]. apply upsertBy_elem. by left.
Qed.

Lemma scrapeItems_settled s anchors st :
  (forall a link, a ∈ anchors -> linkOf a.2 = Some link -> link ∈ n_url <$> st.1) ->
  n_url <$> (foldl (fun st a => scrapeNewsItem s a.1 st a.2) st anchors).1
  = n_url <$> st.1.
Proof.
  revert st. induction anchors as [|a anchors IH]; intros st Hall; [done|].
  cbn [foldl].
  assert (n_url <$> (scrapeNewsItem s a.1 st a.2).1 = n_url <$> st.1) as Hstep.
  { rewrite scrapeNewsItem_urls. destruct (linkOf a.2) as [link|] eqn:Hlink;
      [|by rewrite app_nil_r].
    rewrite bool_decide_eq_true_2; [by rewrite app_nil_r|].
    apply (Hall a); [by left | done]. }
  rewrite IH; [done|]. intros a' link Ha' Hlink. rewrite Hstep.
  apply (Hall a'); [by right | done].
Qed.

(** X15. Running the news pass again on the same pages adds no row: when the
    store rejected nothing in the first pass, the table after a second pass,
    whatever its clock and whatever the store rejects then, has the same URLs
    in the same order. *)
Theorem scrapeNews_again_adds_nothing (s s' : Services) (table : list NewsItem) :
  world s' = world s ->
  (forall item, newsRejects s item = false) ->
  n_url <$> scrapeNews s' (scrapeNews s table) = n_url <$> scrapeNews s table.
Proof.
  intros Hworld Hok. rewrite (scrapeNews_anchors s'), Hworld.
  rewrite (scrapeItems_settled s' _ (scrapeNews s table, 0%nat)); [done|].
  intros a link Ha Hlink. cbn [fst]. rewrite scrapeNews_anchors.
  by eapply scrapeItems_stored.
Qed.

Lemma scrapeNews_again_adds_nothing_witness :
  n_url <$> scrapeNews (news_services 2000) (scrapeNews (news_services 1000) [])
  = n_url <$> scrapeNews (news_services 1000) [].
Proof.
  apply (scrapeNews_again_adds_nothing (news_services 1000) (news_services 2000) []).
  - reflexivity.
  - intros item. reflexivity.
Defined.

(** ** The heroes pass *)

Example heroes_services_run :
  scrapeHeroes heroes_services
  = Some [mkHeroInsert (js "Spider-Man") (js "https://img.example/spider-man.png")
            (js "duelist") 0 marvelRivalsGameId;
          mkHeroInsert (js "Venom") (js "https://img.example/venom.png")
            (js "duelist") 1 marvelRivalsGameId].
Proof. vm_compute. reflexivity. Qed.

Example lore_services_run :
  scrapeHeroLoreAndStats lore_services stored_heroes
  = [mkHeroRow (js "hero-1") (js "Spider-Man") (js "https://img.example/spider-man.png")
       (js "duelist") (Some (js "Bitten by a spider." ++ NEWLINES ++ js "He swings."))
       (Some (mkHeroStats (Some (Exactly 250)) (Some 2%nat)));
     mkHeroRow (js "hero-2") (js "Venom") (js "https://img.example/venom.png")
       (js "vanguard") (Some (js "A symbiote.")) None].
Proof. vm_compute. reflexivity. Qed.

Lemma trimStart_nil_inv s c : trimStart s = [] -> c ∈ s -> isWhiteSpace c = true.
Proof.
  induction s as [|x s IH]; [by intros _ ?%not_elem_of_nil|].
  cbn. destruct (isWhiteSpace x) eqn:Hx; [|done].
  intros Hs [-> |Hc]%elem_of_cons; [done | by apply IH].
Qed.

Lemma trimStart_white s t : Forall (fun c => isWhiteSpace c = true) s ->
  trimStart (s ++ t) = trimStart t.
Proof.
  induction 1 as [|x s Hx _ IH]; [done|]. cbn [app]. by rewrite trimStart_drops.
Qed.

Lemma trimStart_head_elem s c r : trimStart s = c :: r -> c ∈ s.
Proof.
  intros Hs. destruct (trimStart_suffix s) as [pre Hpre].
  rewrite Hpre, Hs. apply elem_of_app. right. by left.
Qed.

(** A string that begins with a code unit that is no white space does not
    trim to nothing. *)
Lemma trim_cons_nonEmpty c s : isWhiteSpace c = false -> nonEmpty (trim (c :: s)) = true.
Proof.
  intros Hc. unfold trim, trimEnd. rewrite trimStart_keeps by done.
  destruct (trimStart (reverse (c :: s))) as [|d r] eqn:Hr.
  - assert (isWhiteSpace c = true); [|congruence].
    apply (trimStart_nil_inv (reverse (c :: s))); [done|].
    apply elem_of_reverse. by left.
  - rewrite reverse_cons. by destruct (reverse r).
Qed.

Lemma trimmedValue_bounded v : trimmedValue v -> bounded v.
Proof. intros [Hne Htrim]. rewrite <- Htrim. apply trim_bounded. by rewrite Htrim. Qed.

Lemma lazyGroup_prefix taken rest group :
  lazyGroup taken rest = Some group -> taken `prefix_of` group.
Proof.
  revert taken. induction rest as [|c rest IH]; intros taken; cbn [lazyGroup].
  - destruct (startsWithParen _); [by intros [= <-] | done].
  - destruct (startsWithParen _); [by intros [= <-]|].
    destruct (isLineTerminator c); [done|].
    intros Hg%IH. etrans; [|exact Hg]. by eexists.
Qed.

(** The name parsed from a title that is not empty and trimmed is not empty
    and trimmed. *)
Lemma heroNameOf_trimmed title : trimmedValue title -> trimmedValue (heroNameOf title).
Proof.
  intros Htitle. unfold heroNameOf.
  destruct (nameMatch title) as [group|] eqn:Hmatch; [|done].
  apply trim_trimmedValue.
  destruct (trimmedValue_bounded _ Htitle) as [(c & Hc & Hcw) _].
  apply head_Some in Hc as [rest ->]. cbn [nameMatch] in Hmatch.
  destruct (isLineTerminator c); [done|].
  apply lazyGroup_prefix in Hmatch as [more ->]. cbn [app].
  by apply trim_cons_nonEmpty.
Qed.

Lemma trimOpt_trimmed x c l : trimOpt x = Some (c :: l) -> trimmedValue (c :: l).
Proof.
  unfold trimOpt. destruct x as [y|]; [|done]. cbn. intros [= Hy].
  rewrite <- Hy. apply trim_trimmedValue. by rewrite Hy.
Qed.

(** What a wrapper adds to the array: one row if it has an id, an image URL
    and a title, whatever the title. *)
Lemma scrapeWrapper_listed s heroType st wrapper :
  scrapeWrapper s heroType st wrapper
  = if complete wrapper
    then (st.1 ++ [mkHeroInsert (heroNameOf (wrapperTitle wrapper)) (wrapperImage wrapper)
                     heroType (now s st.2) marvelRivalsGameId],
          S st.2)
    else st.
Proof.
  unfold scrapeWrapper, complete, wrapperImage, wrapperTitle, wrapperImg. cbv zeta.
  destruct (trimOpt (attr "id" [wrapper])) as [[|i il]|]; [done| |done].
  destruct (trimOpt (attr "data-src" _)) as [[|u rl]|] eqn:Hsrc; [done| |done].
  destruct (trimOpt (attr "title" _)) as [[|t tl]|] eqn:Htitle;
    [done| |done].
  cbn [truthyStr nonEmpty andb default].
  assert (nonEmpty (heroNameOf (t :: tl)) = true) as ->; [|done].
  destruct (heroNameOf_trimmed (t :: tl)) as [Hne _];
    [by eapply trimOpt_trimmed|].
  by destruct (heroNameOf (t :: tl)).
Qed.

Lemma complete_trimmed wrapper :
  complete wrapper = true ->
  trimmedValue (wrapperImage wrapper) /\ trimmedValue (wrapperTitle wrapper).
Proof.
  unfold complete, wrapperImage, wrapperTitle.
  intros [[_ Hi]%andb_true_iff Ht]%andb_true_iff.
  split.
  - destruct (trimOpt (attr "data-src" _)) as [[|u rl]|] eqn:Hsrc; try done.
    by eapply trimOpt_trimmed.
  - destruct (trimOpt (attr "title" _)) as [[|t tl]|] eqn:Htitle; try done.
    by eapply trimOpt_trimmed.
Qed.

Lemma scrapeWrappers_listed s heroType wrappers st :
  heroType ≠ [] ->
  let st' := foldl (scrapeWrapper s heroType) st wrappers in
  storedAs <$> st'.1
  = (storedAs <$> st.1)
    ++ (heroOf <$> ((fun wrapper => (heroType, wrapper))
                      <$> filter (fun wrapper => complete wrapper = true) wrappers))
  /\ (Forall wellFormedHero st.1 -> Forall wellFormedHero st'.1).
Proof.
  intros Hne. cbv zeta. revert st.
  induction wrappers as [|w wrappers IH]; intros st.
  - cbn. by rewrite app_nil_r.
  - cbn [foldl]. destruct (IH (scrapeWrapper s heroType st w)) as [-> Hwf].
    rewrite scrapeWrapper_listed in *. destruct (complete w) eqn:Hw.
    + rewrite filter_cons_True by done. cbn [fst fmap list_fmap] in *.
      split.
      * by rewrite fmap_app, <- app_assoc.
      * intros Hst. apply Hwf, Forall_app. split; [done|].
        apply Forall_singleton. destruct (complete_trimmed w Hw) as [Hi Ht].
        split; [by apply heroNameOf_trimmed|]. split; [exact Hi|]. by split.
    + rewrite filter_cons_False by (by rewrite Hw). done.
Qed.

Lemma scrapeSection_listed s st mrMainDiv :
  let st' := scrapeSection s st mrMainDiv in
  storedAs <$> st'.1 = (storedAs <$> st.1) ++ (heroOf <$> listedIn mrMainDiv)
  /\ (Forall wellFormedHero st.1 -> Forall wellFormedHero st'.1).
Proof.
  unfold scrapeSection, listedIn. cbv zeta. fold (sectionType mrMainDiv).
  destruct (nonEmpty (sectionType mrMainDiv)) eqn:Hne.
  - apply scrapeWrappers_listed. by apply nonEmpty_true.
  - cbn. by rewrite app_nil_r.
Qed.

Lemma scrapeSections_listed s divs st :
  let st' := foldl (scrapeSection s) st divs in
  storedAs <$> st'.1 = (storedAs <$> st.1) ++ (heroOf <$> (divs ≫= listedIn))
  /\ (Forall wellFormedHero st.1 -> Forall wellFormedHero st'.1).
Proof.
  cbv zeta. revert st. induction divs as [|d divs IH]; intros st.
  - cbn. by rewrite app_nil_r.
  - cbn [foldl]. destruct (IH (scrapeSection s st d)) as [-> Hwf].
    destruct (scrapeSection_listed s st d) as [-> Hwf'].
    rewrite bind_cons, fmap_app, <- app_assoc. split; [done|].
    intros Hst. by apply Hwf, Hwf'.
Qed.

(** X16. The rows the heroes pass hands to the upsert are never none; each
    has a name and an image URL that are not empty and trimmed, a type that
    is not empty, and the fixed game id; and there is exactly one of them, in
    the order of the page, for every gallery wrapper that has an id, an
    image URL and a title and stands in a section with a type, with the name
    parsed from that title: no hero is left out for its name, the test of
    the parsed name never fails. *)
Theorem scrapeHeroes_rows_well_formed (s : Services) (heroes : list HeroInsert) :
  scrapeHeroes s = Some heroes ->
  heroes ≠ []
  /\ Forall wellFormedHero heroes
  /\ exists data,
       axiosGet (world s) heroesUrl = Returns data
       /\ storedAs <$> heroes = heroOf <$> listedHeroes (cheerioLoad (world s) data).
Proof.
  unfold scrapeHeroes.
  destruct (canScrape _ _ _) as [[|]|]; [|done|done].
  destruct (axiosGet _ _) as [data|]; [|done].
  cbv zeta. destruct (length (select _ _) =? 0)%nat; [done|].
  destruct (length _ =? 0)%nat eqn:Hlen; [done|].
  intros [= <-].
  destruct (scrapeSections_listed s
              (select (only (Compound (Some "div"%string) [] [("id"%string, js "mr-main")]))
                 (cheerioLoad (world s) data))
              ([], 0%nat)) as [Hlisted Hwf].
  split; [|split].
  - intros E. rewrite E in Hlen. done.
  - by apply Hwf.
  - exists data. split; [done|]. exact Hlisted.
Qed.

Lemma scrapeHeroes_rows_well_formed_witness :
  exists heroes,
    scrapeHeroes heroes_services = Some heroes
    /\ heroes ≠ []
    /\ Forall wellFormedHero heroes
    /\ exists data,
         axiosGet (world heroes_services) heroesUrl = Returns data
         /\ storedAs <$> heroes
            = heroOf <$> listedHeroes (cheerioLoad (world heroes_services) data).
Proof.
  eexists. split; [vm_compute; reflexivity|].
  apply (scrapeHeroes_rows_well_formed heroes_services). vm_compute. reflexivity.
Defined.

Lemma lazyGroup_name taken name sp rest :
  Forall (fun c => c ≠ PAREN /\ isLineTerminator c = false) name ->
  (name = [] \/ exists d, last name = Some d /\ isWhiteSpace d = false) ->
  Forall (fun c => isWhiteSpace c = true) sp ->
  lazyGroup taken (name ++ sp ++ PAREN :: rest) = Some (taken ++ name).
Proof.
  intros Hname Hlast Hsp. revert taken Hlast.
  induction Hname as [|x name [Hx Hxl] Hname IH]; intros taken Hlast.
  - cbn [app]. rewrite app_nil_r.
    assert (startsWithParen (trimStart (sp ++ PAREN :: rest)) = true) as Hp.
    { rewrite trimStart_white by done. reflexivity. }
    destruct sp; cbn [lazyGroup app] in *; by rewrite Hp.
  - destruct Hlast as [?|(d & Hd & Hdw)]; [done|].
    assert (startsWithParen (trimStart ((x :: name) ++ sp ++ PAREN :: rest)) = false) as Hp.
    { apply last_Some in Hd as [front Hfront]. rewrite Hfront, <- app_assoc.
      destruct (trimStart (front ++ [d] ++ sp ++ PAREN :: rest)) as [|c r] eqn:Ht.
      - done.
      - cbn. apply N.eqb_neq. intros ->.
        assert (Hin : PAREN ∈ front ++ [d]).
        { clear -Ht Hdw. induction front as [|f front IH].
          - cbn in Ht. rewrite Hdw in Ht. injection Ht as Ht _. subst d. by left.
          - cbn in Ht. destruct (isWhiteSpace f).
            + right. by apply IH.
            + injection Ht as Ht _. subst f. by left. }
        rewrite <- Hfront in Hin.
        apply elem_of_cons in Hin as [Hin|Hin]; [by apply Hx|].
        by apply (proj1 (Forall_forall _ _) Hname) in Hin as [? _]. }
    cbn [app lazyGroup] in *. rewrite Hp, Hxl.
    rewrite IH, <- app_assoc; [done|].
    destruct name as [|y name]; [by left|]. right. exists d. split; [|done].
    by rewrite last_cons_cons in Hd.
Qed.

(** X17. A title of the form name, white space, opening parenthesis, rest
    gives the name: for a name that is not empty, is trimmed and has neither
    an opening parenthesis nor a line terminator, whatever follows the
    parenthesis. *)
Theorem heroNameOf_before_parenthesis (name sp rest : jsstring) :
  trimmedValue name ->
  Forall (fun c => c ≠ PAREN /\ isLineTerminator c = false) name ->
  Forall (fun c => isWhiteSpace c = true) sp ->
  heroNameOf (name ++ sp ++ PAREN :: rest) = name.
Proof.
  intros Hname Hall Hsp.
  destruct (trimmedValue_bounded _ Hname) as [(c & Hc & Hcw) (d & Hd & Hdw)].
  apply head_Some in Hc as [name' ->].
  apply Forall_cons in Hall as [[_ Hcl] Hall].
  unfold heroNameOf. cbn [app nameMatch]. rewrite Hcl.
  rewrite (lazyGroup_name [c] name' sp rest); [| done | | done].
  - cbn [app]. by destruct Hname.
  - destruct name' as [|y name']; [by left|]. right. exists d. split; [|done].
    by rewrite last_cons_cons in Hd.
Qed.

Lemma heroNameOf_before_parenthesis_witness :
  heroNameOf (js "Cloak & Dagger  (Strategist) (2)") = js "Cloak & Dagger".
Proof.
  apply (heroNameOf_before_parenthesis (js "Cloak & Dagger") (js "  ")
           (js "Strategist) (2)")).
  - split; [done | vm_compute; reflexivity].
  - repeat constructor; done.
  - repeat constructor.
Defined.

Lemma lazyGroup_none taken rest : PAREN ∉ rest -> lazyGroup taken rest = None.
Proof.
  revert taken. induction rest as [|c rest IH]; intros taken Hno; cbn [lazyGroup].
  - done.
  - assert (startsWithParen (trimStart (c :: rest)) = false) as ->.
    { destruct (trimStart (c :: rest)) as [|x r] eqn:Ht; [done|]. cbn.
      apply N.eqb_neq. intros ->. by apply trimStart_head_elem in Ht. }
    destruct (isLineTerminator c); [done|]. apply IH.
    intros Hin. apply Hno. by right.
Qed.

(** X18. A title is the name as it stands when no opening parenthesis follows
    its first code unit: it is not cut and not trimmed again. *)
Theorem heroNameOf_without_parenthesis (title : jsstring) :
  PAREN ∉ drop 1 title -> heroNameOf title = title.
Proof.
  intros Hno. unfold heroNameOf, nameMatch.
  destruct title as [|c rest]; [done|].
  destruct (isLineTerminator c); [done|].
  by rewrite lazyGroup_none.
Qed.

Lemma heroNameOf_without_parenthesis_witness :
  heroNameOf (js "Venom") = js "Venom".
Proof.
  apply (heroNameOf_without_parenthesis (js "Venom")).
  vm_compute. intros Hin. repeat (apply elem_of_cons in Hin as [Hin|Hin]; [done|]).
  by apply not_elem_of_nil in Hin.
Defined.

(** ** The lore pass *)

Lemma scrapeLore_applyLore s table hero heroUrl :
  getHeroPageUrl (world s) (h_name hero) = Returns heroUrl ->
  scrapeLore s table hero heroUrl = (fun row => applyLore s row hero) <$> table.
Proof.
  intros Hurl. unfold scrapeLore, applyLore, loreFor. rewrite Hurl.
  assert (Hid : table = (fun row => if bool_decide (h_id row = h_id hero) then row else row)
                          <$> table).
  { rewrite <- (list_fmap_id table) at 1. apply list_fmap_ext.
    intros i row _. by case_bool_decide. }
  destruct (canScrape _ _ _) as [[|]|]; [|done|done].
  destruct (axiosGet _ _) as [heroPageData|]; [|done].
  destruct (getHeroLoreSection _) as [[|c l]|]; [done| |done].
  cbv zeta. by destruct (updateRejects s (h_id hero)).
Qed.

Lemma keepsOrGainsLore_refl row : keepsOrGainsLore row row.
Proof. repeat split. by left. Qed.

Lemma keepsOrGainsLore_trans a b c :
  keepsOrGainsLore a b -> keepsOrGainsLore b c -> keepsOrGainsLore a c.
Proof.
  intros (Hi & Hn & Hu & Ht & Hab) (Hi' & Hn' & Hu' & Ht' & Hbc).
  split; [congruence|]. split; [congruence|]. split; [congruence|].
  split; [congruence|].
  destruct Hbc as [-> |Hbc]; [done | by right].
Qed.

Lemma applyLore_keepsOrGainsLore s row hero : keepsOrGainsLore row (applyLore s row hero).
Proof.
  unfold applyLore. case_bool_decide; [|apply keepsOrGainsLore_refl].
  destruct (loreFor s hero) as [[lore stats]|] eqn:Hlore; [|apply keepsOrGainsLore_refl].
  repeat split. right. exists lore, stats. split; [done|]. split; [|done].
  unfold loreFor in Hlore.
  destruct (getHeroPageUrl _ _); [|done].
  destruct (canScrape _ _ _) as [[|]|]; [|done|done].
  destruct (axiosGet _ _) as [data|]; [|done].
  destruct (getHeroLoreSection _) as [[|c l]|] eqn:Hget; [done| |done].
  destruct (updateRejects _ _); [done|]. injection Hlore as <- _.
  apply getHeroLoreSection_trim in Hget as (loreContent & -> & Hne).
  by apply trim_trimmedValue.
Qed.

Lemma forEachHeroRow_rows s heroes table current :
  Forall2 keepsOrGainsLore table current ->
  Forall2 keepsOrGainsLore table (forEachHeroRow s current heroes).
Proof.
  revert current. induction heroes as [|hero heroes IH]; intros current Hcur; [done|].
  cbn [forEachHeroRow].
  destruct (getHeroPageUrl _ _) as [heroUrl|] eqn:Hurl; [|done].
  apply IH. rewrite (scrapeLore_applyLore _ _ _ _ Hurl).
  apply Forall2_fmap_r. eapply Forall2_impl; [exact Hcur|].
  intros a b Hab. eapply keepsOrGainsLore_trans; [exact Hab|].
  apply applyLore_keepsOrGainsLore.
Qed.

(** X19. The lore pass adds no row, removes none and moves none; it never
    changes the id, the name, the image URL or the type of a row, and a row
    it changes ends with a lore that is not empty and trimmed, together with
    stats: a stored lore is never erased. *)
Theorem scrapeHeroLoreAndStats_rows (s : Services) (table : list HeroRow) :
  Forall2 keepsOrGainsLore table (scrapeHeroLoreAndStats s table).
Proof.
  assert (Hrefl : Forall2 keepsOrGainsLore table table).
  { apply Forall2_same_length_lookup_2; [done|].
    intros i a b Ha Hb. assert (a = b) as -> by congruence.
    apply keepsOrGainsLore_refl. }
  unfold scrapeHeroLoreAndStats. destruct (selectFails s); [done|].
  by apply forEachHeroRow_rows.
Qed.

Lemma forEachHeroRow_applyLore s heroes table :
  Forall (fun hero => exists heroUrl,
            getHeroPageUrl (world s) (h_name hero) = Returns heroUrl) heroes ->
  forEachHeroRow s table heroes
  = (fun row => foldl (applyLore s) row heroes) <$> table.
Proof.
  intros Hurls. revert table.
  induction Hurls as [|hero heroes [heroUrl Hurl] _ IH]; intros table.
  - cbn. by rewrite list_fmap_id.
  - cbn [forEachHeroRow foldl]. rewrite Hurl, IH, (scrapeLore_applyLore _ _ _ _ Hurl).
    by rewrite <- list_fmap_compose.
Qed.

Lemma applyLore_id s row hero : h_id (applyLore s row hero) = h_id row.
Proof. by destruct (applyLore_keepsOrGainsLore s row hero) as [? _]. Qed.

Lemma applyLore_others s heroes row :
  h_id row ∉ h_id <$> heroes -> foldl (applyLore s) row heroes = row.
Proof.
  revert row. induction heroes as [|hero heroes IH]; intros row Hid; [done|].
  cbn [foldl]. apply not_elem_of_cons in Hid as [Hne Hid].
  assert (applyLore s row hero = row) as ->; [|by apply IH].
  unfold applyLore. by rewrite bool_decide_eq_false_2.
Qed.

Lemma applyLore_own s heroes row :
  NoDup (h_id <$> heroes) -> row ∈ heroes ->
  foldl (applyLore s) row heroes = afterLore s row.
Proof.
  induction heroes as [|hero heroes IH]; [by intros _ ?%not_elem_of_nil|].
  cbn [fmap list_fmap foldl]. intros [Hfresh Hnd]%NoDup_cons [-> |Hrow]%elem_of_cons.
  - assert (applyLore s hero hero = afterLore s hero) as Hown.
    { unfold applyLore, afterLore. by rewrite bool_decide_eq_true_2. }
    rewrite Hown. apply applyLore_others.
    by rewrite <- Hown, applyLore_id.
  - assert (applyLore s row hero = row) as ->; [|by apply IH].
    unfold applyLore. rewrite bool_decide_eq_false_2; [done|].
    intros Heq. apply Hfresh. rewrite <- Heq. apply list_elem_of_fmap. by exists row.
Qed.

(** X20. When the ids of the stored heroes are distinct, the select succeeds
    and the URL of every hero can be built, the lore pass gives each hero the
    lore and the stats of its own page and touches no other row: the row of a
    hero whose page is allowed and fetched, has a lore and whose update the
    store accepts gets that lore and the stats generated from the same page;
    every other row stays as it is. *)
Theorem scrapeHeroLoreAndStats_each_hero (s : Services) (table : list HeroRow) :
  NoDup (h_id <$> table) ->
  selectFails s = false ->
  Forall (fun hero => exists heroUrl,
            getHeroPageUrl (world s) (h_name hero) = Returns heroUrl) table ->
  scrapeHeroLoreAndStats s table = afterLore s <$> table.
Proof.
  intros Hnd Hselect Hurls. unfold scrapeHeroLoreAndStats. rewrite Hselect.
  rewrite forEachHeroRow_applyLore by done.
  apply list_fmap_ext. intros i row Hrow.
  apply applyLore_own; [done|]. by eapply list_elem_of_lookup_2.
Qed.

Lemma scrapeHeroLoreAndStats_each_hero_witness :
  scrapeHeroLoreAndStats lore_services stored_heroes
  = afterLore lore_services <$> stored_heroes.
Proof.
  apply (scrapeHeroLoreAndStats_each_hero lore_services stored_heroes).
  - apply (bool_decide_unpack _). vm_compute. reflexivity.
  - reflexivity.
  - repeat constructor; eexists; vm_compute; reflexivity.
Defined.
